(** * Flickr browser: the synchronisation engine

    A shallow embedding of [src/oauth_downloader.py] (request signer,
    paginated fetchers, persistence) and of
    [src/incremental_updater_true.py] (existing-state index,
    reconciliation of photostream and album sweeps, orchestration),
    followed by the properties of the specification that concern them. *)

From Stdlib Require Import ZArith String Ascii List Bool Lia.
From stdpp Require Import base option list gmap strings pretty fin_maps sorting.

#[local] Set Warnings "-register-all,-clear-no-such-hyp".
Local Open Scope string_scope.
Local Open Scope list_scope.
Local Open Scope Z_scope.

(** ** Python values

    What [response.json()] hands to the program: JSON decoded into Python
    objects (floats are left out). *)

Inductive pyval : Type :=
  | PyNone
  | PyBool (b : bool)
  | PyInt (z : Z)
  | PyStr (s : string)
  | PyList (items : list pyval)
  | PyDict (entries : list (string * pyval)).

(** [bool(v)]. *)
Definition truthy (v : pyval) : bool :=
  match v with
  | PyNone => false
  | PyBool b => b
  | PyInt z => negb (z =? 0)
  | PyStr s => negb (String.eqb s "")
  | PyList l => match l with [] => false | _ => true end
  | PyDict d => match d with [] => false | _ => true end
  end.

(** [d.get(k)] on the entries of a dict (its keys are distinct). *)
Fixpoint entries_get (k : string) (d : list (string * pyval)) : option pyval :=
  match d with
  | [] => None
  | (k', v) :: d' => if String.eqb k k' then Some v else entries_get k d'
  end.

Module PyText.

Definition dquote : ascii := ascii_of_nat 34.

Definition contains (c : ascii) (s : string) : bool :=
  existsb (Ascii.eqb c) (list_ascii_of_string s).

Definition hex_digit (n : nat) : ascii :=
  ascii_of_nat (if (n <? 10)%nat then 48 + n else 87 + n)%nat.

(** One character of [repr(str)] between quotes [q]. Bytes above 127
    (UTF-8 of non-ASCII text) are kept as they are. *)
Definition repr_char (q c : ascii) : string :=
  let n := nat_of_ascii c in
  if Ascii.eqb c "\" then "\\"
  else if Ascii.eqb c q then String "\" (String q "")
  else if (n =? 10)%nat then "\n"
  else if (n =? 13)%nat then "\r"
  else if (n =? 9)%nat then "\t"
  else if ((n <? 32) || (n =? 127))%nat
       then "\x" +:+ String (hex_digit (n / 16)) (String (hex_digit (n mod 16)) "")
  else String c "".

(** [repr(s)] for a string: single quotes, unless the text has a single
    quote and no double quote. *)
Definition repr_str (s : string) : string :=
  let q : ascii := if contains "'" s && negb (contains dquote s) then dquote else "'"%char in
  String q (String.concat "" (map (repr_char q) (list_ascii_of_string s)))
    +:+ String q "".

Definition is_space (c : ascii) : bool :=
  let n := nat_of_ascii c in
  (((9 <=? n) && (n <=? 13)) || ((28 <=? n) && (n <=? 32)))%nat.

Definition is_digit (c : ascii) : bool :=
  let n := nat_of_ascii c in ((48 <=? n) && (n <=? 57))%nat.

Fixpoint lstrip (cs : list ascii) : list ascii :=
  match cs with
  | c :: cs' => if is_space c then lstrip cs' else cs
  | [] => []
  end.

Definition strip (cs : list ascii) : list ascii :=
  rev (lstrip (rev (lstrip cs))).

(** Decimal digits with single underscores between them. *)
Fixpoint digits (acc : Z) (after_digit : bool) (cs : list ascii) : option Z :=
  match cs with
  | [] => if after_digit then Some acc else None
  | c :: cs' =>
      if is_digit c
      then digits (10 * acc + (Z.of_nat (nat_of_ascii c) - 48)) true cs'
      else if Ascii.eqb c "_" && after_digit then digits acc false cs'
      else None
  end.

(** [int(s)] for a string: surrounding white space, an optional sign,
    decimal digits. [None] is [ValueError]. *)
Definition parse_int (s : string) : option Z :=
  match strip (list_ascii_of_string s) with
  | "-"%char :: ds => Z.opp <$> digits 0 false ds
  | "+"%char :: ds => digits 0 false ds
  | ds => digits 0 false ds
  end.

End PyText.

(** [repr(v)] and [str(v)]. *)
Fixpoint py_repr (v : pyval) : string :=
  match v with
  | PyNone => "None"
  | PyBool b => if b then "True" else "False"
  | PyInt z => pretty z
  | PyStr s => PyText.repr_str s
  | PyList l => "[" +:+ String.concat ", " (map py_repr l) +:+ "]"
  | PyDict d =>
      "{" +:+ String.concat ", "
                (map (fun kv => PyText.repr_str (fst kv) +:+ ": " +:+ py_repr (snd kv)) d)
          +:+ "}"
  end.

Definition py_str (v : pyval) : string :=
  match v with
  | PyStr s => s
  | _ => py_repr v
  end.

(** Exceptions, by the class the program could tell apart (it never does:
    every handler is [except Exception] or a bare [except]). *)
Inductive exn : Type :=
  | KeyError (key : string)
  | ValueError
  | TypeError
  | SqlError
  | TransportError (what : string)
  | ApiError (message : string).

(** [int(v)]. *)
Definition py_int (v : pyval) : exn + Z :=
  match v with
  | PyInt z => inr z
  | PyBool b => inr (if b then 1 else 0)
  | PyStr s => match PyText.parse_int s with Some z => inr z | None => inl ValueError end
  | _ => inl TypeError
  end.

(** [page >= v] for an [int] page: only numbers compare. *)
Definition py_int_ge (page : Z) (v : pyval) : exn + bool :=
  match v with
  | PyInt z => inr (z <=? page)
  | PyBool b => inr ((if b then 1 else 0) <=? page)
  | _ => inl TypeError
  end.

Example py_str_list : py_str (PyList [PyStr "a"; PyInt 3; PyNone]) = "['a', 3, None]".
Proof. reflexivity. Qed.

Example py_int_padded : py_int (PyStr " 1_000 ") = inr 1000.
Proof. reflexivity. Qed.

Example py_int_text : py_int (PyStr "many") = inl ValueError.
Proof. reflexivity. Qed.

(** ** What the service sends *)

(** A photo object of a listing or of [flickr.photos.getInfo]: its [id]
    (Flickr ids are JSON strings, so [str(photo['id'])] is the id itself)
    and its other keys. *)
Record photo : Type := {
  photo_id : string;
  photo_attrs : gmap string pyval;
}.

(** [photo.get(k)]. *)
Definition photo_get (k : string) (p : photo) : option pyval := photo_attrs p !! k.

(** [photo.update(photo_info)]: every key of [photo_info], its [id]
    included, replaces the one of [photo]. *)
Definition photo_update (p info : photo) : photo :=
  {| photo_id := photo_id info; photo_attrs := photo_attrs info ∪ photo_attrs p |}.

(** An object of the [photo] array of the photostream, as [photo['id']]
    and the lookup of that id in the set of known ids find it: a photo with
    its id, an object that has no key [id], or an object whose [id] is a
    list or an object and cannot be hashed. *)
Inductive element : Type :=
  | Photo (p : photo)
  | NoId
  | UnhashableId.

(** [photo['id']] and its hash: the photo, or what is raised. *)
Definition element_photo (x : element) : exn + photo :=
  match x with
  | Photo p => inr p
  | NoId => inl (KeyError "id")
  | UnhashableId => inl TypeError
  end.

(** An album of [flickr.photosets.getList]; [album_title] is [None] when the
    object has no [title] key. *)
Record album : Type := {
  album_id : string;
  album_title : option pyval;
}.

(** A comment object, as the entries of its dict. *)
Definition comment : Type := list (string * pyval).

(** One page of a listing: its items and the [pages] and [total] the
    service reports with it. *)
Record page (A : Type) : Type := {
  page_items : list A;
  page_pages : pyval;
  page_total : pyval;
}.
Arguments page_items {A} _.
Arguments page_pages {A} _.
Arguments page_total {A} _.

(** The result of one [api_call]: an exception on the way (transport,
    HTTP status, undecodable or misshapen body), a body whose [stat] is not
    ['ok'] (with its [message] when it has one), or a body that is. *)
Inductive response (A : Type) : Type :=
  | Raised (what : string)
  | Fail (message : option string)
  | Okay (body : A).
Arguments Raised {A} _.
Arguments Fail {A} _.
Arguments Okay {A} _.

(** The remote collection, as the answers it gives during one run. The
    objects of the photostream are [element]s: their [id] is read by the
    comprehension of [get_recent_photostream_photos], outside every [try].
    The objects of an album's listing are photos with their id: there
    [photo['id']] is read by [download_album_photo], under the [try] that
    [update_albums] puts around the sweep of the album. *)
Record remote : Type := {
  people_getPhotos : Z → response (page element);
  photosets_getList : Z → response (page album);
  photosets_getPhotos : string → Z → response (page photo);
  photos_getInfo : string → response photo;
  photos_comments_getList : string → response (list comment);
  (** [requests.get(url)] of a thumbnail and the write of its file: the
      suffix of the URL's path when both succeed. *)
  thumbnail_get : pyval → option string;
}.

(** ** Storage: the four tables of [flickr_metadata.db] *)

(** A row of [photos], without its key. Columns declared [TEXT] hold
    [NULL] ([None]) or text. *)
Record photo_row : Type := {
  row_album_id : option string;
  row_title : option string;
  row_description : option string;
  row_filename : string;
  row_thumbnail_path : string;
  row_date_taken : string;
  row_date_uploaded : string;
  row_views : Z;
  row_tags : option string;
  row_url_original : string;
  row_url_thumbnail : string;
}.

Record album_row : Type := {
  alb_title : option string;
  alb_description : option string;
  alb_photo_count : Z;
  alb_created_date : nat;
  alb_updated_date : nat;
}.

(** A row of [photo_albums]; [date_added] is the reading of the clock. *)
Record link_row : Type := {
  link_photo_id : string;
  link_album_id : string;
  link_is_primary : Z;
  link_date_added : nat;
}.

Record comment_row : Type := {
  com_id : option string;
  com_photo_id : string;
  com_author : option string;
  com_comment : option string;
  com_date_created : option string;
}.

(** [photos] and [albums] are keyed by their primary key; [photo_albums]
    and [comments] are kept as the list of their rows. *)
Record database : Type := {
  photos : gmap string photo_row;
  albums : gmap string album_row;
  photo_albums : list link_row;
  comments : list comment_row;
}.

Definition empty_database : database :=
  {| photos := ∅; albums := ∅; photo_albums := []; comments := [] |}.

Definition link_key (l : link_row) : string * string :=
  (link_photo_id l, link_album_id l).

(** [SELECT 1 FROM photo_albums WHERE photo_id = ? AND album_id = ?]. *)
Definition has_link (pid aid : string) (d : database) : bool :=
  existsb (fun l => String.eqb (link_photo_id l) pid && String.eqb (link_album_id l) aid)
          (photo_albums d).

(** [INSERT OR REPLACE INTO photos]. *)
Definition insert_or_replace_photo (pid : string) (r : photo_row) (d : database) : database :=
  {| photos := <[pid := r]> (photos d); albums := albums d;
     photo_albums := photo_albums d; comments := comments d |}.

(** [INSERT OR REPLACE INTO albums]. *)
Definition insert_or_replace_album (aid : string) (r : album_row) (d : database) : database :=
  {| photos := photos d; albums := <[aid := r]> (albums d);
     photo_albums := photo_albums d; comments := comments d |}.

(** [INSERT OR IGNORE INTO photo_albums]: the composite primary key
    [(photo_id, album_id)] makes the insertion of a present pair a no-op. *)
Definition insert_or_ignore_link (l : link_row) (d : database) : database :=
  if has_link (link_photo_id l) (link_album_id l) d then d
  else {| photos := photos d; albums := albums d;
          photo_albums := photo_albums d ++ [l]; comments := comments d |}.

(** [INSERT OR REPLACE INTO comments]: a row with the same (non-[NULL]) id
    gives way to the new one. *)
Definition insert_or_replace_comment (c : comment_row) (d : database) : database :=
  let same (c' : comment_row) : bool :=
    match com_id c, com_id c' with
    | Some i, Some i' => String.eqb i i'
    | _, _ => false
    end in
  {| photos := photos d; albums := albums d; photo_albums := photo_albums d;
     comments := filter (fun c' => same c' = false) (comments d) ++ [c] |}.

(** A Python value bound to a parameter of a [TEXT] column: [None] is
    [NULL], numbers are stored as their text, lists and dicts are refused
    by [sqlite3]. *)
Definition bind_text (v : pyval) : exn + option string :=
  match v with
  | PyNone => inr None
  | PyStr s => inr (Some s)
  | PyInt z => inr (Some (pretty z))
  | PyBool b => inr (Some (if b then "1" else "0"))
  | PyList _ | PyDict _ => inl SqlError
  end.

(** ** The updater's state and its effects *)

(** The fields [ComprehensiveFlickrUpdater.__init__] adds to the downloader:
    the Existing-State Index and the four counters. *)
Record updater : Type := {
  existing_photo_ids : gset string;
  new_photos_count : nat;
  new_associations_count : nat;
  skipped_photos_count : nat;
  photostream_new_count : nat;
}.

Inductive request : Type :=
  | ReqPeoplePhotos (page : Z)
  | ReqPhotosetsList (page : Z)
  | ReqPhotosetPhotos (album : string) (page : Z)
  | ReqPhotoInfo (pid : string)
  | ReqComments (pid : string)
  | ReqThumbnail (pid : string) (url : pyval).

Inductive write : Type :=
  | WrPhoto (pid : string)
  | WrLink (pid aid : string)
  | WrComments (pid : string)
  | WrAlbum (aid : string).

(** The lines the program prints, by the [print] that produces them. *)
Inductive message : Type :=
  | MsgCheckingPhotostream (days_back : Z)
  | MsgPhotostreamError (message : string)
  | MsgPhotostreamPage (page : Z) (got : nat)
  | MsgPhotostreamPageError (page : Z) (e : exn)
  | MsgPhotostreamTotal (n : nat)
  | MsgPhotostreamNew (n : nat)
  | MsgFetchingAlbums
  | MsgFetchedAlbumsPage (page : Z) (got : nat)
  | MsgTotalAlbums (n : nat)
  | MsgThumbnailError (pid : string)
  | MsgDownloadingPhotostreamPhoto (title : pyval)
  | MsgDownloadingAlbumPhoto (title : pyval)
  | MsgAddingExistingPhoto (title : pyval)
  | MsgPhotostreamBanner
  | MsgNoNewPhotos
  | MsgProcessing (n : nat)
  | MsgProgress (i n : nat)
  | MsgPhotoError (e : exn)
  | MsgAlbumsBanner
  | MsgFoundAlbums (n : nat)
  | MsgAlbumsError (e : exn)
  | MsgAlbumHeader (i n : nat) (title : pyval)
  | MsgAlbumError (title : pyval) (e : exn)
  | MsgCheckingAlbum (title : pyval)
  | MsgAlbumHas (n : nat)
  | MsgAlbumAdded (n : nat) (title : pyval)
  | MsgAlbumUpToDate (title : pyval)
  | MsgUpdateBanner
  | MsgSummary (elapsed : nat) (counters : updater)
  | MsgUpdated
  | MsgUpToDate.

(** What a run does, in the order it does it. A commit carries the storage
    it leaves behind. *)
Inductive event : Type :=
  | EvRequest (r : request)
  | EvCommit (w : write) (after : database)
  | EvIndexAdd (pid : string)
  | EvPrint (m : message)
  | EvSleep.

Record world : Type := {
  db : database;
  self : updater;
  clock : nat;
  trace : list event;
}.

Inductive outcome (A : Type) : Type :=
  | Ok (a : A)
  | Exn (e : exn).
Arguments Ok {A} _.
Arguments Exn {A} _.

(** A computation: from a world to an outcome and the world it leaves
    (what was done before an exception stays done), or [None] when the fuel
    of a [while True] loop ran out. *)
Definition M (A : Type) : Type := world → option (outcome A * world).

Definition ret {A} (a : A) : M A := fun w => Some (Ok a, w).

Definition raise {A} (e : exn) : M A := fun w => Some (Exn e, w).

Definition bind {A B} (m : M A) (f : A → M B) : M B := fun w =>
  match m w with
  | None => None
  | Some (Ok a, w') => f a w'
  | Some (Exn e, w') => Some (Exn e, w')
  end.

(** [try: m  except Exception as e: h e]. *)
Definition try_except {A} (m : M A) (h : exn → M A) : M A := fun w =>
  match m w with
  | None => None
  | Some (Ok a, w') => Some (Ok a, w')
  | Some (Exn e, w') => h e w'
  end.

Notation "'let*' x ':=' m 'in' k" := (bind m (fun x => k))
  (at level 10, x name, m at level 100, k at level 200).

Definition of_sum {A} (r : exn + A) : M A :=
  match r with
  | inl e => raise e
  | inr a => ret a
  end.

Definition emit (e : event) : M unit := fun w =>
  Some (Ok tt, {| db := db w; self := self w; clock := clock w; trace := trace w ++ [e] |}).

Definition print (m : message) : M unit := emit (EvPrint m).

Definition call (r : request) : M unit := emit (EvRequest r).

(** [datetime.now()] and [time.time()]: the clock is read and moves on. *)
Definition now : M nat := fun w =>
  Some (Ok (clock w),
        {| db := db w; self := self w; clock := S (clock w); trace := trace w |}).

Definition read_db : M database := fun w => Some (Ok (db w), w).

(** [conn.commit()] of a transaction that turns the storage into [d]. *)
Definition commit (wr : write) (d : database) : M unit := fun w =>
  Some (Ok tt, {| db := d; self := self w; clock := clock w;
                  trace := trace w ++ [EvCommit wr d] |}).

Definition read_self : M updater := fun w => Some (Ok (self w), w).

Definition write_self (u : updater) : M unit := fun w =>
  Some (Ok tt, {| db := db w; self := u; clock := clock w; trace := trace w |}).

(** The events of a paginated fetch, which touches nothing else. *)
Definition replay {A} (r : option (outcome A * list event)) : M A := fun w =>
  match r with
  | None => None
  | Some (o, evs) =>
      Some (o, {| db := db w; self := self w; clock := clock w; trace := trace w ++ evs |})
  end.

(** [self.existing_photo_ids.add(photo_id)]. *)
Definition index_add (pid : string) : M unit :=
  let* u := read_self in
  let* _ := write_self
    {| existing_photo_ids := {[pid]} ∪ existing_photo_ids u;
       new_photos_count := new_photos_count u;
       new_associations_count := new_associations_count u;
       skipped_photos_count := skipped_photos_count u;
       photostream_new_count := photostream_new_count u |} in
  emit (EvIndexAdd pid).

(** [self.new_photos_count += 1] and its three siblings. *)
Definition incr_new_photos : M unit :=
  let* u := read_self in
  write_self
    {| existing_photo_ids := existing_photo_ids u;
       new_photos_count := S (new_photos_count u);
       new_associations_count := new_associations_count u;
       skipped_photos_count := skipped_photos_count u;
       photostream_new_count := photostream_new_count u |}.

Definition incr_new_associations : M unit :=
  let* u := read_self in
  write_self
    {| existing_photo_ids := existing_photo_ids u;
       new_photos_count := new_photos_count u;
       new_associations_count := S (new_associations_count u);
       skipped_photos_count := skipped_photos_count u;
       photostream_new_count := photostream_new_count u |}.

Definition incr_skipped_photos : M unit :=
  let* u := read_self in
  write_self
    {| existing_photo_ids := existing_photo_ids u;
       new_photos_count := new_photos_count u;
       new_associations_count := new_associations_count u;
       skipped_photos_count := S (skipped_photos_count u);
       photostream_new_count := photostream_new_count u |}.

Definition incr_photostream_new : M unit :=
  let* u := read_self in
  write_self
    {| existing_photo_ids := existing_photo_ids u;
       new_photos_count := new_photos_count u;
       new_associations_count := new_associations_count u;
       skipped_photos_count := skipped_photos_count u;
       photostream_new_count := S (photostream_new_count u) |}.

(** ** [oauth_downloader.py]: fetchers and persistence *)

Section Engine.

(** The service the run talks to. *)
Variable flickr : remote.

(** [get_user_albums], the [while True] loop from page [page] on with
    [albums] gathered so far: a body that is not ['ok'] raises. *)
Fixpoint get_user_albums_from (fuel : nat) (page : Z) (albums : list album)
    (evs : list event) : option (outcome (list album) * list event) :=
  match fuel with
  | O => None
  | S fuel' =>
      let evs := evs ++ [EvRequest (ReqPhotosetsList page)] in
      match photosets_getList flickr page with
      | Raised what => Some (Exn (TransportError what), evs)
      | Fail message =>
          Some (Exn (ApiError (default "Unknown error" message)), evs)
      | Okay result =>
          let albums := albums ++ page_items result in
          let evs := evs ++ [EvPrint (MsgFetchedAlbumsPage page (length (page_items result)))] in
          match py_int_ge page (page_pages result) with
          | inl e => Some (Exn e, evs)
          | inr true => Some (Ok albums, evs ++ [EvPrint (MsgTotalAlbums (length albums))])
          | inr false => get_user_albums_from fuel' (page + 1) albums evs
          end
      end
  end.

Definition get_user_albums (fuel : nat) : M (list album) :=
  replay (get_user_albums_from fuel 1 [] [EvPrint MsgFetchingAlbums]).

(** [get_album_photos]: a body that is not ['ok'] ends the loop. *)
Fixpoint get_album_photos_from (fuel : nat) (aid : string) (page : Z)
    (photos : list photo) (evs : list event)
    : option (outcome (list photo) * list event) :=
  match fuel with
  | O => None
  | S fuel' =>
      let evs := evs ++ [EvRequest (ReqPhotosetPhotos aid page)] in
      match photosets_getPhotos flickr aid page with
      | Raised what => Some (Exn (TransportError what), evs)
      | Fail _ => Some (Ok photos, evs)
      | Okay result =>
          let photos := photos ++ page_items result in
          match py_int_ge page (page_pages result) with
          | inl e => Some (Exn e, evs)
          | inr true => Some (Ok photos, evs)
          | inr false => get_album_photos_from fuel' aid (page + 1) photos evs
          end
      end
  end.

Definition get_album_photos (fuel : nat) (aid : string) : M (list photo) :=
  replay (get_album_photos_from fuel aid 1 [] []).

(** [get_photo_info]: [None] when the body is not ['ok']. *)
Definition get_photo_info (pid : string) : M (option photo) :=
  let* _ := call (ReqPhotoInfo pid) in
  match photos_getInfo flickr pid with
  | Raised what => raise (TransportError what)
  | Fail _ => ret None
  | Okay info => ret (Some info)
  end.

(** [get_photo_comments]: whatever goes wrong, the empty list. *)
Definition get_photo_comments (pid : string) : M (list comment) :=
  let* _ := call (ReqComments pid) in
  match photos_comments_getList flickr pid with
  | Okay cs => ret cs
  | Raised _ | Fail _ => ret []
  end.

(** [download_thumbnail]: the relative path of the file, or [None]. *)
Definition download_thumbnail (pid : string) (url : pyval) : M (option string) :=
  if negb (truthy url) then ret None
  else
    let* _ := call (ReqThumbnail pid url) in
    match thumbnail_get flickr url with
    | Some ext =>
        ret (Some ("thumbnails/" +:+ pid +:+ (if String.eqb ext "" then ".jpg" else ext)))
    | None =>
        let* _ := print (MsgThumbnailError pid) in
        ret None
    end.

(** [save_album_metadata]. *)
Definition save_album_metadata (aid : string) (title description : pyval)
    (photo_count : nat) : M unit :=
  let* created := now in
  let* updated := now in
  let* title' := of_sum (bind_text title) in
  let* description' := of_sum (bind_text description) in
  let* d := read_db in
  commit (WrAlbum aid)
    (insert_or_replace_album aid
       {| alb_title := title'; alb_description := description';
          alb_photo_count := Z.of_nat photo_count;
          alb_created_date := created; alb_updated_date := updated |} d).

(** One row of [save_comments]. *)
Definition comment_values (pid : string) (c : comment) : exn + comment_row :=
  match entries_get "id" c with
  | None => inl (KeyError "id")
  | Some i =>
  match entries_get "authorname" c with
  | None => inl (KeyError "authorname")
  | Some a =>
  match entries_get "_content" c with
  | None => inl (KeyError "_content")
  | Some t =>
  match entries_get "datecreate" c with
  | None => inl (KeyError "datecreate")
  | Some dc =>
  match bind_text i, bind_text a, bind_text t, bind_text dc with
  | inr i', inr a', inr t', inr dc' =>
      inr {| com_id := i'; com_photo_id := pid; com_author := a';
             com_comment := t'; com_date_created := dc' |}
  | _, _, _, _ => inl SqlError
  end end end end end.

(** The [for] loop of [save_comments], inside its one transaction. *)
Fixpoint save_comments_rows (pid : string) (cs : list comment) (d : database)
    : exn + database :=
  match cs with
  | [] => inr d
  | c :: cs' =>
      match comment_values pid c with
      | inl e => inl e
      | inr row => save_comments_rows pid cs' (insert_or_replace_comment row d)
      end
  end.

(** [save_comments]: nothing is committed when a row raises. *)
Definition save_comments (pid : string) (cs : list comment) : M unit :=
  match cs with
  | [] => ret tt
  | _ =>
      let* d := read_db in
      let* d' := of_sum (save_comments_rows pid cs d) in
      commit (WrComments pid) d'
  end.

(** ** [incremental_updater_true.py]: the updater *)

(** [photo_exists]: membership in the Existing-State Index. *)
Definition photo_exists (pid : string) : M bool :=
  let* u := read_self in
  ret (bool_decide (pid ∈ existing_photo_ids u)).

(** [photo_in_album]: a query of storage. *)
Definition photo_in_album (pid aid : string) : M bool :=
  let* d := read_db in
  ret (has_link pid aid d).

(** [d.get('_content', '')]. *)
Definition content_or_empty (d : list (string * pyval)) : pyval :=
  default (PyStr "") (entries_get "_content" d).

(** The value bound for [tags]. *)
Definition tags_value (p : photo) : pyval :=
  match photo_get "tags" p with
  | None => PyStr ""
  | Some (PyDict d) => content_or_empty d
  | Some (PyList l) => PyStr (String.concat ", " (map py_str l))
  | Some v => PyStr (py_str v)
  end.

(** The value bound for [description] and for [title]. *)
Definition text_value (k : string) (p : photo) : pyval :=
  match photo_get k p with
  | None => PyStr ""
  | Some (PyDict d) => content_or_empty d
  | Some v => PyStr (py_str v)
  end.

(** [int(photo_data.get('views', 0)) if photo_data.get('views') else 0]. *)
Definition views_value (p : photo) : exn + Z :=
  match photo_get "views" p with
  | Some v => if truthy v then py_int v else inr 0
  | None => inr 0
  end.

(** [str(photo_data.get(k, ''))]. *)
Definition str_value (k : string) (p : photo) : string :=
  py_str (default (PyStr "") (photo_get k p)).

(** [save_photo_metadata_standalone]: the row is computed, bound and
    committed; nothing is written when a conversion raises. *)
Definition save_photo_metadata_standalone (p : photo) (thumbnail_path : option string)
    : M unit :=
  let pid := photo_id p in
  let tags := tags_value p in
  let description := text_value "description" p in
  let title := text_value "title" p in
  let filename := pid +:+ ".jpg" in
  let thumbnail_path := default "" thumbnail_path in
  let date_taken := str_value "datetaken" p in
  let date_uploaded := str_value "dateupload" p in
  let* views := of_sum (views_value p) in
  let url_original := str_value "url_o" p in
  let url_thumbnail := str_value "url_t" p in
  let* title' := of_sum (bind_text title) in
  let* description' := of_sum (bind_text description) in
  let* tags' := of_sum (bind_text tags) in
  let* d := read_db in
  commit (WrPhoto pid)
    (insert_or_replace_photo pid
       {| row_album_id := None; row_title := title'; row_description := description';
          row_filename := filename; row_thumbnail_path := thumbnail_path;
          row_date_taken := date_taken; row_date_uploaded := date_uploaded;
          row_views := views; row_tags := tags';
          row_url_original := url_original; row_url_thumbnail := url_thumbnail |} d).

(** [save_photo_metadata_junction]: the photo first, then the link. *)
Definition save_photo_metadata_junction (p : photo) (aid : string)
    (thumbnail_path : option string) : M unit :=
  let pid := photo_id p in
  let* _ := save_photo_metadata_standalone p thumbnail_path in
  let* added := now in
  let* d := read_db in
  commit (WrLink pid aid)
    (insert_or_ignore_link
       {| link_photo_id := pid; link_album_id := aid;
          link_is_primary := 1; link_date_added := added |} d).

(** [photo.get('title', dflt)]. *)
Definition title_or (dflt : string) (p : photo) : pyval :=
  default (PyStr dflt) (photo_get "title" p).

(** The steps both sweeps share for a photo that is not known: detail,
    thumbnail, comments. The result is the photo after
    [photo.update(photo_info)] and the thumbnail's path. *)
Definition fetch_new_photo (p : photo) : M (photo * option string) :=
  let pid := photo_id p in
  let* photo_info := get_photo_info pid in
  let p := match photo_info with Some info => photo_update p info | None => p end in
  let* thumbnail_path :=
    match photo_get "url_t" p with
    | Some url => if truthy url then download_thumbnail pid url else ret None
    | None => ret None
    end in
  let* cs := get_photo_comments pid in
  let* _ := save_comments pid cs in
  ret (p, thumbnail_path).

(** [download_photostream_photo]. *)
Definition download_photostream_photo (p : photo) : M bool :=
  let pid := photo_id p in
  let* known := photo_exists pid in
  if known then ret false
  else
    let* _ := print (MsgDownloadingPhotostreamPhoto (title_or "Untitled" p)) in
    let* fetched := fetch_new_photo p in
    let* _ := save_photo_metadata_standalone (fst fetched) (snd fetched) in
    let* _ := index_add pid in
    let* _ := incr_photostream_new in
    let* _ := incr_new_photos in
    ret true.

(** [download_album_photo]. *)
Definition download_album_photo (p : photo) (aid : string) (title : pyval) : M bool :=
  let pid := photo_id p in
  let* known := photo_exists pid in
  let* in_album := if known then photo_in_album pid aid else ret false in
  if known && in_album then
    let* _ := incr_skipped_photos in
    ret false
  else
    let* fetched :=
      if negb known then
        let* _ := print (MsgDownloadingAlbumPhoto (title_or "Untitled" p)) in
        let* fetched := fetch_new_photo p in
        let* _ := index_add pid in
        let* _ := incr_new_photos in
        ret fetched
      else
        let* _ := print (MsgAddingExistingPhoto (title_or "Untitled" p)) in
        ret (p, None) in
    let* _ := save_photo_metadata_junction (fst fetched) aid (snd fetched) in
    let* _ := if negb in_album then incr_new_associations else ret tt in
    ret true.

(** The [while True] loop of [get_recent_photostream_photos]: whatever is
    raised inside its [try] is printed and ends the loop. *)
Fixpoint photostream_pages_from (fuel : nat) (page : Z) (all_photos : list element)
    (evs : list event) : option (outcome (list element) * list event) :=
  match fuel with
  | O => None
  | S fuel' =>
      let evs := evs ++ [EvRequest (ReqPeoplePhotos page)] in
      match people_getPhotos flickr page with
      | Raised what =>
          Some (Ok all_photos,
                evs ++ [EvPrint (MsgPhotostreamPageError page (TransportError what))])
      | Fail message =>
          Some (Ok all_photos,
                evs ++ [EvPrint (MsgPhotostreamError (default "Unknown error" message))])
      | Okay result =>
          match page_items result with
          | [] => Some (Ok all_photos, evs)
          | photos =>
              let all_photos := all_photos ++ photos in
              let evs := evs ++ [EvPrint (MsgPhotostreamPage page (length photos))] in
              match py_int (page_total result), py_int (page_pages result) with
              | inl e, _ | inr _, inl e =>
                  Some (Ok all_photos, evs ++ [EvPrint (MsgPhotostreamPageError page e)])
              | inr _, inr pages_total =>
                  if pages_total <=? page then Some (Ok all_photos, evs)
                  else photostream_pages_from fuel' (page + 1) all_photos (evs ++ [EvSleep])
              end
          end
      end
  end.

(** [[photo for photo in all_photos if not self.photo_exists(photo['id'])]]:
    the objects are taken in order, and the first whose [id] cannot be read
    or hashed ends the comprehension with what it raises. *)
Fixpoint new_photos_of (u : updater) (all_photos : list element) : exn + list photo :=
  match all_photos with
  | [] => inr []
  | x :: rest =>
      match element_photo x with
      | inl e => inl e
      | inr p =>
          match new_photos_of u rest with
          | inl e => inl e
          | inr new_photos =>
              inr (if decide (photo_id p ∉ existing_photo_ids u)
                   then p :: new_photos else new_photos)
          end
      end
  end.

(** [get_recent_photostream_photos]. The comprehension that filters
    [all_photos] stands after the loop and outside its [try]: what
    [photo['id']] raises there is raised by the call. *)
Definition get_recent_photostream_photos (fuel : nat) (days_back : Z) : M (list photo) :=
  let* _ := print (MsgCheckingPhotostream days_back) in
  let* all_photos := replay (photostream_pages_from fuel 1 [] []) in
  let* u := read_self in
  let* new_photos := of_sum (new_photos_of u all_photos) in
  let* _ := print (MsgPhotostreamTotal (length all_photos)) in
  let* _ := print (MsgPhotostreamNew (length new_photos)) in
  ret new_photos.

(** The [for] loop of [update_photostream], at its [i]-th photo of [n].
    The title printed with an error is left out of the message. *)
Fixpoint update_photostream_loop (i n : nat) (ps : list photo) : M unit :=
  match ps with
  | [] => ret tt
  | p :: ps' =>
      let* _ :=
        try_except
          (let* _ := download_photostream_photo p in
           if (i mod 10 =? 0)%nat then print (MsgProgress i n) else ret tt)
          (fun e => print (MsgPhotoError e)) in
      update_photostream_loop (S i) n ps'
  end.

(** [update_photostream]. *)
Definition update_photostream (fuel : nat) : M unit :=
  let* _ := print MsgPhotostreamBanner in
  let* new_photos := get_recent_photostream_photos fuel 90 in
  match new_photos with
  | [] => print MsgNoNewPhotos
  | _ =>
      let* _ := print (MsgProcessing (length new_photos)) in
      update_photostream_loop 1 (length new_photos) new_photos
  end.

(** The [for] loop of [update_album_incremental]. *)
Fixpoint download_album_photos (ps : list photo) (aid : string) (title : pyval)
    (album_new_count : nat) : M nat :=
  match ps with
  | [] => ret album_new_count
  | p :: ps' =>
      let* added := download_album_photo p aid title in
      download_album_photos ps' aid title
        (if added then S album_new_count else album_new_count)
  end.

(** [update_album_incremental]. *)
Definition update_album_incremental (fuel : nat) (aid : string) (title : pyval) : M unit :=
  let* _ := print (MsgCheckingAlbum title) in
  let* photos := get_album_photos fuel aid in
  let total_photos := length photos in
  let* _ := print (MsgAlbumHas total_photos) in
  let* _ := save_album_metadata aid title (PyStr "") total_photos in
  let* album_new_count := download_album_photos photos aid title 0 in
  if (0 <? album_new_count)%nat then print (MsgAlbumAdded album_new_count title)
  else print (MsgAlbumUpToDate title).

(** [album['title']['_content'] if isinstance(album['title'], dict)
    else str(album['title'])]. *)
Definition album_title_value (a : album) : M pyval :=
  match album_title a with
  | None => raise (KeyError "title")
  | Some (PyDict d) =>
      match entries_get "_content" d with
      | Some v => ret v
      | None => raise (KeyError "_content")
      end
  | Some v => ret (PyStr (py_str v))
  end.

(** The [for] loop of [update_albums]: the title is read outside the
    [try], the album is swept inside it. *)
Fixpoint update_albums_loop (fuel : nat) (i n : nat) (als : list album) : M unit :=
  match als with
  | [] => ret tt
  | a :: als' =>
      let* title := album_title_value a in
      let* _ := print (MsgAlbumHeader i n title) in
      let* _ :=
        try_except (update_album_incremental fuel (album_id a) title)
                   (fun e => print (MsgAlbumError title e)) in
      update_albums_loop fuel (S i) n als'
  end.

(** [update_albums]. *)
Definition update_albums (fuel : nat) : M unit :=
  let* _ := print MsgAlbumsBanner in
  let* listed :=
    try_except
      (let* albums := get_user_albums fuel in
       let* _ := print (MsgFoundAlbums (length albums)) in
       ret (Some albums))
      (fun e => let* _ := print (MsgAlbumsError e) in ret None) in
  match listed with
  | None => ret tt
  | Some albums => update_albums_loop fuel 1 (length albums) albums
  end.

(** [comprehensive_update]: the photostream sweep, then the albums. *)
Definition comprehensive_update (fuel : nat) : M unit :=
  let* _ := print MsgUpdateBanner in
  let* start_time := now in
  let* _ := update_photostream fuel in
  let* _ := update_albums fuel in
  let* end_time := now in
  let* u := read_self in
  let* _ := print (MsgSummary (end_time - start_time) u) in
  if ((0 <? new_photos_count u) || (0 <? new_associations_count u))%nat
  then print MsgUpdated
  else print MsgUpToDate.

End Engine.

(** [get_existing_photo_ids]: the ids of the rows of [photos]. *)
Definition get_existing_photo_ids (d : database) : gset string := dom (photos d).

(** [ComprehensiveFlickrUpdater.__init__] over the storage [d], the clock
    reading [t]: counters at zero, the index loaded from storage. *)
Definition start (d : database) (t : nat) : world :=
  {| db := d;
     self := {| existing_photo_ids := get_existing_photo_ids d;
                new_photos_count := 0; new_associations_count := 0;
                skipped_photos_count := 0; photostream_new_count := 0 |};
     clock := t;
     trace := [] |}.

(** ** Reasoning about computations *)

(** The world after the events [evs]. *)
Definition with_events (evs : list event) (w : world) : world :=
  {| db := db w; self := self w; clock := clock w; trace := trace w ++ evs |}.

(** Events that touch neither storage nor the index. *)
Definition quiet (e : event) : Prop :=
  match e with
  | EvRequest _ | EvPrint _ | EvSleep => True
  | EvCommit _ _ | EvIndexAdd _ => False
  end.

(** Every run of [m] relates the world it starts in to the one it leaves. *)
Definition respects {A} (Rel : world → world → Prop) (m : M A) : Prop :=
  ∀ w o w', m w = Some (o, w') → Rel w w'.

Lemma bind_Some {A B} (m : M A) (f : A → M B) w o w' :
  bind m f w = Some (o, w') →
  (∃ a w1, m w = Some (Ok a, w1) ∧ f a w1 = Some (o, w')) ∨
  (∃ e, m w = Some (Exn e, w') ∧ o = Exn e).
Proof.
  unfold bind. destruct (m w) as [[[a|e] w1]|]; intros H.
  - left. eauto.
  - right. inversion H; subst. eauto.
  - discriminate.
Qed.

Lemma bind_Ok {A B} (m : M A) (f : A → M B) w b w' :
  bind m f w = Some (Ok b, w') →
  ∃ a w1, m w = Some (Ok a, w1) ∧ f a w1 = Some (Ok b, w').
Proof.
  intros H. apply bind_Some in H as [H | (e & _ & H)]; [exact H | discriminate].
Qed.

Lemma try_except_Some {A} (m : M A) (h : exn → M A) w o w' :
  try_except m h w = Some (o, w') →
  (∃ a, m w = Some (Ok a, w') ∧ o = Ok a) ∨
  (∃ e w1, m w = Some (Exn e, w1) ∧ h e w1 = Some (o, w')).
Proof.
  unfold try_except. destruct (m w) as [[[a|e] w1]|]; intros H.
  - left. inversion H; subst. eauto.
  - right. eauto.
  - discriminate.
Qed.

Lemma quiet_snoc evs e : Forall quiet evs → quiet e → Forall quiet (evs ++ [e]).
Proof. intros H He. apply Forall_app. split; [exact H | by constructor]. Qed.

(** The fetchers only ask and print. *)
Lemma get_user_albums_from_quiet flickr fuel page albums evs o evs' :
  get_user_albums_from flickr fuel page albums evs = Some (o, evs') →
  Forall quiet evs → Forall quiet evs'.
Proof.
  revert page albums evs. induction fuel as [|fuel IH]; intros page albums evs; simpl; [done|].
  destruct (photosets_getList flickr page) as [what|message|result].
  - intros [= <- <-] H. by apply quiet_snoc.
  - intros [= <- <-] H. by apply quiet_snoc.
  - destruct (py_int_ge page (page_pages result)) as [e|[|]].
    + intros [= <- <-] H. by repeat apply quiet_snoc.
    + intros [= <- <-] H. by repeat apply quiet_snoc.
    + intros Hrec H. eapply IH; [exact Hrec|]. by repeat apply quiet_snoc.
Qed.

Lemma get_album_photos_from_quiet flickr fuel aid page photos evs o evs' :
  get_album_photos_from flickr fuel aid page photos evs = Some (o, evs') →
  Forall quiet evs → Forall quiet evs'.
Proof.
  revert page photos evs. induction fuel as [|fuel IH]; intros page photos evs; simpl; [done|].
  destruct (photosets_getPhotos flickr aid page) as [what|message|result].
  - intros [= <- <-] H. by apply quiet_snoc.
  - intros [= <- <-] H. by apply quiet_snoc.
  - destruct (py_int_ge page (page_pages result)) as [e|[|]].
    + intros [= <- <-] H. by apply quiet_snoc.
    + intros [= <- <-] H. by apply quiet_snoc.
    + intros Hrec H. eapply IH; [exact Hrec|]. by apply quiet_snoc.
Qed.

Lemma photostream_pages_from_quiet flickr fuel page all_photos evs o evs' :
  photostream_pages_from flickr fuel page all_photos evs = Some (o, evs') →
  Forall quiet evs → Forall quiet evs'.
Proof.
  revert page all_photos evs.
  induction fuel as [|fuel IH]; intros page all_photos evs; simpl; [done|].
  destruct (people_getPhotos flickr page) as [what|message|result].
  - intros [= <- <-] H. by repeat apply quiet_snoc.
  - intros [= <- <-] H. by repeat apply quiet_snoc.
  - destruct (page_items result) as [|p ps].
    + intros [= <- <-] H. by apply quiet_snoc.
    + destruct (py_int (page_total result)) as [e|total].
      * intros [= <- <-] H. by repeat apply quiet_snoc.
      * destruct (py_int (page_pages result)) as [e|pages_total].
        -- intros [= <- <-] H. by repeat apply quiet_snoc.
        -- destruct (pages_total <=? page).
           ++ intros [= <- <-] H. by repeat apply quiet_snoc.
           ++ intros Hrec H. eapply IH; [exact Hrec|]. by repeat apply quiet_snoc.
Qed.

(** Whatever relation the persistence layer, the index and the counters
    respect, the sweeps and the whole run respect. *)
Section Respects.

Variable Rel : world → world → Prop.
Hypothesis Rel_refl : ∀ w, Rel w w.
Hypothesis Rel_trans : ∀ w1 w2 w3, Rel w1 w2 → Rel w2 w3 → Rel w1 w3.
Hypothesis Rel_quiet : ∀ evs w, Forall quiet evs → Rel w (with_events evs w).
Hypothesis Rel_now : respects Rel now.
Hypothesis Rel_index_add : ∀ pid, respects Rel (index_add pid).
Hypothesis Rel_new_photos : respects Rel incr_new_photos.
Hypothesis Rel_new_associations : respects Rel incr_new_associations.
Hypothesis Rel_skipped_photos : respects Rel incr_skipped_photos.
Hypothesis Rel_photostream_new : respects Rel incr_photostream_new.
Hypothesis Rel_save_album :
  ∀ aid title description n, respects Rel (save_album_metadata aid title description n).
Hypothesis Rel_save_comments : ∀ pid cs, respects Rel (save_comments pid cs).
Hypothesis Rel_save_standalone :
  ∀ p thumb, respects Rel (save_photo_metadata_standalone p thumb).
Hypothesis Rel_save_junction :
  ∀ p aid thumb, respects Rel (save_photo_metadata_junction p aid thumb).

Lemma respects_ret {A} (a : A) : respects Rel (ret a).
Proof. intros w o w' [= <- <-]. apply Rel_refl. Qed.

Lemma respects_raise {A} (e : exn) : respects Rel (raise (A:=A) e).
Proof. intros w o w' [= <- <-]. apply Rel_refl. Qed.

Lemma respects_bind {A B} (m : M A) (f : A → M B) :
  respects Rel m → (∀ a, respects Rel (f a)) → respects Rel (bind m f).
Proof.
  intros Hm Hf w o w' H.
  apply bind_Some in H as [(a & w1 & H1 & H2) | (e & H1 & _)].
  - eapply Rel_trans; [eapply Hm, H1 | eapply Hf, H2].
  - eapply Hm, H1.
Qed.

Lemma respects_try {A} (m : M A) (h : exn → M A) :
  respects Rel m → (∀ e, respects Rel (h e)) → respects Rel (try_except m h).
Proof.
  intros Hm Hh w o w' H.
  apply try_except_Some in H as [(a & H1 & _) | (e & w1 & H1 & H2)].
  - eapply Hm, H1.
  - eapply Rel_trans; [eapply Hm, H1 | eapply Hh, H2].
Qed.

Lemma respects_emit e : quiet e → respects Rel (emit e).
Proof. intros He w o w' [= <- <-]. apply (Rel_quiet [e]). by constructor. Qed.

Lemma respects_print m : respects Rel (print m).
Proof. by apply respects_emit. Qed.

Lemma respects_call r : respects Rel (call r).
Proof. by apply respects_emit. Qed.

Lemma respects_read_self : respects Rel read_self.
Proof. intros w o w' [= <- <-]. apply Rel_refl. Qed.

Lemma respects_read_db : respects Rel read_db.
Proof. intros w o w' [= <- <-]. apply Rel_refl. Qed.

Lemma respects_replay {A} (r : option (outcome A * list event)) :
  (∀ o evs, r = Some (o, evs) → Forall quiet evs) → respects Rel (replay r).
Proof.
  intros Hq w o w' H. destruct r as [[o' evs]|]; [|discriminate].
  injection H as <- <-. apply (Rel_quiet evs), (Hq o' evs eq_refl).
Qed.

Ltac respects_step :=
  first
    [ apply respects_ret | apply respects_raise | apply respects_print
    | apply respects_call | apply respects_read_self | apply respects_read_db
    | apply Rel_now | apply Rel_index_add | apply Rel_new_photos
    | apply Rel_new_associations | apply Rel_skipped_photos
    | apply Rel_photostream_new | apply Rel_save_album | apply Rel_save_comments
    | apply Rel_save_standalone | apply Rel_save_junction
    | apply respects_bind; [|intros ?]
    | apply respects_try; [|intros ?]
    | match goal with
      | |- respects _ (if ?b then _ else _) => destruct b
      | |- respects _ (match ?x with _ => _ end) => destruct x
      end ].

Variable flickr : remote.

Lemma respects_get_photo_info pid : respects Rel (get_photo_info flickr pid).
Proof. unfold get_photo_info. repeat respects_step. Qed.

Lemma respects_get_photo_comments pid : respects Rel (get_photo_comments flickr pid).
Proof. unfold get_photo_comments. repeat respects_step. Qed.

Lemma respects_download_thumbnail pid url : respects Rel (download_thumbnail flickr pid url).
Proof. unfold download_thumbnail. repeat respects_step. Qed.

Lemma respects_fetch_new_photo p : respects Rel (fetch_new_photo flickr p).
Proof.
  unfold fetch_new_photo.
  repeat first [ apply respects_get_photo_info | apply respects_get_photo_comments
               | apply respects_download_thumbnail | respects_step ].
Qed.

Lemma respects_photo_exists pid : respects Rel (photo_exists pid).
Proof. unfold photo_exists. repeat respects_step. Qed.

Lemma respects_photo_in_album pid aid : respects Rel (photo_in_album pid aid).
Proof. unfold photo_in_album. repeat respects_step. Qed.

Lemma respects_download_photostream_photo p :
  respects Rel (download_photostream_photo flickr p).
Proof.
  unfold download_photostream_photo.
  repeat first [ apply respects_photo_exists | apply respects_fetch_new_photo | respects_step ].
Qed.

Lemma respects_download_album_photo p aid title :
  respects Rel (download_album_photo flickr p aid title).
Proof.
  unfold download_album_photo.
  repeat first [ apply respects_photo_exists | apply respects_photo_in_album
               | apply respects_fetch_new_photo | respects_step ].
Qed.

End Respects.

(** Whatever relation the visit of one photo, the album row and the clock
    respect, the sweeps and the whole run respect. *)
Section Sweeps.

Variable Rel : world → world → Prop.
Hypothesis Rel_refl : ∀ w, Rel w w.
Hypothesis Rel_trans : ∀ w1 w2 w3, Rel w1 w2 → Rel w2 w3 → Rel w1 w3.
Hypothesis Rel_quiet : ∀ evs w, Forall quiet evs → Rel w (with_events evs w).
Hypothesis Rel_now : respects Rel now.
Hypothesis Rel_save_album :
  ∀ aid title description n, respects Rel (save_album_metadata aid title description n).

Variable flickr : remote.
Hypothesis Rel_photostream_photo : ∀ p, respects Rel (download_photostream_photo flickr p).
Hypothesis Rel_album_photo :
  ∀ p aid title, respects Rel (download_album_photo flickr p aid title).

Ltac sweeps_step :=
  first
    [ apply (respects_ret Rel Rel_refl) | apply (respects_raise Rel Rel_refl)
    | apply (respects_print Rel Rel_quiet) | apply (respects_read_self Rel Rel_refl)
    | apply Rel_now | apply Rel_save_album | apply Rel_photostream_photo
    | apply Rel_album_photo
    | apply (respects_bind Rel Rel_trans); [|intros ?]
    | apply (respects_try Rel Rel_trans); [|intros ?]
    | match goal with
      | |- respects _ (if ?b then _ else _) => destruct b
      | |- respects _ (match ?x with _ => _ end) => destruct x
      end ].

Lemma respects_get_recent_photostream_photos fuel days_back :
  respects Rel (get_recent_photostream_photos flickr fuel days_back).
Proof.
  unfold get_recent_photostream_photos.
  apply (respects_bind Rel Rel_trans); [sweeps_step | intros _].
  apply (respects_bind Rel Rel_trans);
    [| intros all_photos; repeat first [sweeps_step | progress unfold of_sum]].
  apply (respects_replay Rel Rel_quiet). intros o evs H.
  eapply photostream_pages_from_quiet; [exact H | constructor].
Qed.

Lemma respects_update_photostream_loop i n ps :
  respects Rel (update_photostream_loop flickr i n ps).
Proof.
  revert i. induction ps as [|p ps IH]; intros i; simpl.
  - sweeps_step.
  - apply (respects_bind Rel Rel_trans); [| intros _; apply IH].
    repeat sweeps_step.
Qed.

Lemma respects_update_photostream fuel : respects Rel (update_photostream flickr fuel).
Proof.
  unfold update_photostream.
  apply (respects_bind Rel Rel_trans); [sweeps_step | intros _].
  apply (respects_bind Rel Rel_trans);
    [apply respects_get_recent_photostream_photos | intros ps].
  destruct ps; [sweeps_step|].
  apply (respects_bind Rel Rel_trans); [sweeps_step | intros _].
  apply respects_update_photostream_loop.
Qed.

Lemma respects_download_album_photos ps aid title n :
  respects Rel (download_album_photos flickr ps aid title n).
Proof.
  revert n. induction ps as [|p ps IH]; intros n; simpl.
  - sweeps_step.
  - apply (respects_bind Rel Rel_trans); [apply Rel_album_photo | intros b; apply IH].
Qed.

Lemma respects_get_album_photos fuel aid : respects Rel (get_album_photos flickr fuel aid).
Proof.
  apply (respects_replay Rel Rel_quiet). intros o evs H.
  eapply get_album_photos_from_quiet; [exact H | constructor].
Qed.

Lemma respects_get_user_albums fuel : respects Rel (get_user_albums flickr fuel).
Proof.
  apply (respects_replay Rel Rel_quiet). intros o evs H.
  eapply get_user_albums_from_quiet; [exact H | by repeat constructor].
Qed.

Lemma respects_update_album_incremental fuel aid title :
  respects Rel (update_album_incremental flickr fuel aid title).
Proof.
  unfold update_album_incremental.
  repeat first [ apply respects_get_album_photos | apply respects_download_album_photos
               | sweeps_step ].
Qed.

Lemma respects_album_title_value a : respects Rel (album_title_value a).
Proof. unfold album_title_value. repeat sweeps_step. Qed.

Lemma respects_update_albums_loop fuel i n als :
  respects Rel (update_albums_loop flickr fuel i n als).
Proof.
  revert i. induction als as [|a als IH]; intros i; simpl.
  - sweeps_step.
  - apply (respects_bind Rel Rel_trans); [apply respects_album_title_value | intros title].
    apply (respects_bind Rel Rel_trans); [sweeps_step | intros _].
    apply (respects_bind Rel Rel_trans); [| intros _; apply IH].
    apply (respects_try Rel Rel_trans); [apply respects_update_album_incremental | intros e].
    sweeps_step.
Qed.

Lemma respects_update_albums fuel : respects Rel (update_albums flickr fuel).
Proof.
  unfold update_albums.
  apply (respects_bind Rel Rel_trans); [sweeps_step | intros _].
  apply (respects_bind Rel Rel_trans).
  - apply (respects_try Rel Rel_trans); [| intros e; repeat sweeps_step].
    apply (respects_bind Rel Rel_trans); [apply respects_get_user_albums | intros als].
    repeat sweeps_step.
  - intros [als|]; [apply respects_update_albums_loop | sweeps_step].
Qed.

Lemma respects_comprehensive_update fuel :
  respects Rel (comprehensive_update flickr fuel).
Proof.
  unfold comprehensive_update.
  repeat first [ apply respects_update_photostream | apply respects_update_albums
               | sweeps_step ].
Qed.

End Sweeps.

(** The premises on the persistence layer, the index and the counters, as
    one record. *)
Record stable (Rel : world → world → Prop) : Prop := Stable {
  stable_refl : ∀ w, Rel w w;
  stable_trans : ∀ w1 w2 w3, Rel w1 w2 → Rel w2 w3 → Rel w1 w3;
  stable_quiet : ∀ evs w, Forall quiet evs → Rel w (with_events evs w);
  stable_now : respects Rel now;
  stable_index_add : ∀ pid, respects Rel (index_add pid);
  stable_new_photos : respects Rel incr_new_photos;
  stable_new_associations : respects Rel incr_new_associations;
  stable_skipped_photos : respects Rel incr_skipped_photos;
  stable_photostream_new : respects Rel incr_photostream_new;
  stable_save_album :
    ∀ aid title description n, respects Rel (save_album_metadata aid title description n);
  stable_save_comments : ∀ pid cs, respects Rel (save_comments pid cs);
  stable_save_standalone : ∀ p thumb, respects Rel (save_photo_metadata_standalone p thumb);
  stable_save_junction :
    ∀ p aid thumb, respects Rel (save_photo_metadata_junction p aid thumb);
}.

Lemma stable_download_photostream_photo Rel flickr p :
  stable Rel → respects Rel (download_photostream_photo flickr p).
Proof. intros []. by apply respects_download_photostream_photo. Qed.

Lemma stable_download_album_photo Rel flickr p aid title :
  stable Rel → respects Rel (download_album_photo flickr p aid title).
Proof. intros []. by apply respects_download_album_photo. Qed.

Lemma stable_update_photostream_loop Rel flickr i n ps :
  stable Rel → respects Rel (update_photostream_loop flickr i n ps).
Proof.
  intros H. apply respects_update_photostream_loop; try apply H.
  intros. by apply stable_download_photostream_photo.
Qed.

Lemma stable_update_photostream Rel flickr fuel :
  stable Rel → respects Rel (update_photostream flickr fuel).
Proof.
  intros H. apply respects_update_photostream; try apply H.
  intros. by apply stable_download_photostream_photo.
Qed.

Lemma stable_download_album_photos Rel flickr ps aid title n :
  stable Rel → respects Rel (download_album_photos flickr ps aid title n).
Proof.
  intros H. apply respects_download_album_photos; try apply H.
  intros. by apply stable_download_album_photo.
Qed.

Lemma stable_update_album_incremental Rel flickr fuel aid title :
  stable Rel → respects Rel (update_album_incremental flickr fuel aid title).
Proof.
  intros H. apply respects_update_album_incremental; try apply H.
  intros. by apply stable_download_album_photo.
Qed.

Lemma stable_update_albums_loop Rel flickr fuel i n als :
  stable Rel → respects Rel (update_albums_loop flickr fuel i n als).
Proof.
  intros H. apply respects_update_albums_loop; try apply H.
  intros. by apply stable_download_album_photo.
Qed.

Lemma stable_update_albums Rel flickr fuel :
  stable Rel → respects Rel (update_albums flickr fuel).
Proof.
  intros H. apply respects_update_albums; try apply H.
  intros. by apply stable_download_album_photo.
Qed.

Lemma stable_comprehensive_update Rel flickr fuel :
  stable Rel → respects Rel (comprehensive_update flickr fuel).
Proof.
  intros H. apply respects_comprehensive_update; try apply H.
  - intros. by apply stable_download_photostream_photo.
  - intros. by apply stable_download_album_photo.
Qed.

(** ** What the persistence layer does to the world *)

(** The world after a commit that leaves storage [d]. *)
Definition after_commit (wr : write) (d : database) (w : world) : world :=
  {| db := d; self := self w; clock := clock w; trace := trace w ++ [EvCommit wr d] |}.

(** The world after one reading of the clock. *)
Definition tick (w : world) : world :=
  {| db := db w; self := self w; clock := S (clock w); trace := trace w |}.

Lemma of_sum_Some {A} (r : exn + A) w o w' :
  of_sum r w = Some (o, w') →
  w' = w ∧ ((∃ e, r = inl e ∧ o = Exn e) ∨ (∃ a, r = inr a ∧ o = Ok a)).
Proof. destruct r as [e|a]; intros [= <- <-]; eauto. Qed.

Lemma save_photo_metadata_standalone_inv p thumb w o w' :
  save_photo_metadata_standalone p thumb w = Some (o, w') →
  (∃ e, o = Exn e ∧ w' = w) ∨
  (∃ row, o = Ok tt ∧ row_thumbnail_path row = default "" thumb ∧
     w' = after_commit (WrPhoto (photo_id p))
            (insert_or_replace_photo (photo_id p) row (db w)) w).
Proof.
  unfold save_photo_metadata_standalone, bind.
  destruct (views_value p) as [e|views]; simpl; [intros [= <- <-]; eauto|].
  destruct (bind_text (text_value "title" p)) as [e|title']; simpl; [intros [= <- <-]; eauto|].
  destruct (bind_text (text_value "description" p)) as [e|description']; simpl;
    [intros [= <- <-]; eauto|].
  destruct (bind_text (tags_value p)) as [e|tags']; simpl; [intros [= <- <-]; eauto|].
  intros [= <- <-]. right. eexists. split; [done|]. split; [|reflexivity]. done.
Qed.

Lemma save_photo_metadata_junction_inv p aid thumb w o w' :
  save_photo_metadata_junction p aid thumb w = Some (o, w') →
  (∃ e, o = Exn e ∧ w' = w ∧ save_photo_metadata_standalone p thumb w = Some (Exn e, w)) ∨
  (∃ row, o = Ok tt ∧ row_thumbnail_path row = default "" thumb ∧
     let d1 := insert_or_replace_photo (photo_id p) row (db w) in
     w' = after_commit (WrLink (photo_id p) aid)
            (insert_or_ignore_link
               {| link_photo_id := photo_id p; link_album_id := aid;
                  link_is_primary := 1; link_date_added := clock w |} d1)
            (tick (after_commit (WrPhoto (photo_id p)) d1 w))).
Proof.
  unfold save_photo_metadata_junction. intros H.
  apply bind_Some in H as [(a & w1 & H1 & H2) | (e & H1 & ->)].
  - right. apply save_photo_metadata_standalone_inv in H1 as [(e & [=] & _) | (row & _ & Hrow & ->)].
    exists row. split; [|split; [exact Hrow|]].
    + simpl in H2. by injection H2 as <- _.
    + simpl in H2. by injection H2 as _ <-.
  - left. exists e.
    pose proof H1 as H1'.
    apply save_photo_metadata_standalone_inv in H1 as [(e' & [= <-] & ->) | (row & [=] & _)].
    done.
Qed.

Lemma save_comments_rows_frame pid cs d d' :
  save_comments_rows pid cs d = inr d' →
  photos d' = photos d ∧ albums d' = albums d ∧ photo_albums d' = photo_albums d.
Proof.
  revert d. induction cs as [|c cs IH]; intros d; simpl.
  - by intros [= <-].
  - destruct (comment_values pid c) as [e|row]; [done|].
    intros H. apply IH in H as (-> & -> & ->). done.
Qed.

Lemma save_comments_inv pid cs w o w' :
  save_comments pid cs w = Some (o, w') →
  (∃ e, o = Exn e ∧ w' = w) ∨ (o = Ok tt ∧ w' = w) ∨
  (∃ d', o = Ok tt ∧ w' = after_commit (WrComments pid) d' w ∧
     photos d' = photos (db w) ∧ albums d' = albums (db w) ∧
     photo_albums d' = photo_albums (db w)).
Proof.
  unfold save_comments. destruct cs as [|c cs]; [intros [= <- <-]; eauto|].
  unfold bind. simpl.
  destruct (match comment_values pid c with inl e => _ | inr row => _ end) as [e|d'] eqn:E;
    simpl; intros [= <- <-]; [eauto|].
  right. right. exists d'. split; [done|]. split; [done|].
  apply (save_comments_rows_frame pid (c :: cs)). exact E.
Qed.

Lemma save_album_metadata_inv aid title description n w o w' :
  save_album_metadata aid title description n w = Some (o, w') →
  (∃ e, o = Exn e ∧ w' = tick (tick w)) ∨
  (∃ row, o = Ok tt ∧
     w' = after_commit (WrAlbum aid) (insert_or_replace_album aid row (db w)) (tick (tick w))).
Proof.
  unfold save_album_metadata, bind. simpl.
  destruct (bind_text title) as [e|title']; simpl; [intros [= <- <-]; eauto|].
  destruct (bind_text description) as [e|description']; simpl; [intros [= <- <-]; eauto|].
  intros [= <- <-]. eauto.
Qed.

(** ** The link table *)

(** The composite keys of the rows of [photo_albums], in row order. *)
Definition link_keys (d : database) : list (string * string) :=
  link_key <$> photo_albums d.

Lemma has_link_spec pid aid d :
  has_link pid aid d = true ↔ (pid, aid) ∈ link_keys d.
Proof.
  unfold has_link, link_keys. rewrite existsb_exists, list_elem_of_fmap. split.
  - intros (l & Hl & Heq). apply andb_true_iff in Heq as [H1 H2].
    apply String.eqb_eq in H1, H2. exists l. split; [|by apply list_elem_of_In].
    unfold link_key. by rewrite H1, H2.
  - intros (l & Heq & Hl). exists l. split; [by apply list_elem_of_In|].
    unfold link_key in Heq. injection Heq as -> ->. by rewrite !String.eqb_refl.
Qed.

Lemma insert_or_ignore_link_present l d :
  link_key l ∈ link_keys d → insert_or_ignore_link l d = d.
Proof.
  intros H. unfold insert_or_ignore_link.
  destruct (has_link _ _ d) eqn:E; [done|].
  apply has_link_spec in H. unfold link_key in H. simpl in H. congruence.
Qed.

Lemma insert_or_ignore_link_keys l d :
  link_keys (insert_or_ignore_link l d) =
  if has_link (link_photo_id l) (link_album_id l) d then link_keys d
  else link_keys d ++ [link_key l].
Proof.
  unfold insert_or_ignore_link. destruct (has_link _ _ d); [done|].
  unfold link_keys. simpl. by rewrite fmap_app.
Qed.

Lemma insert_or_ignore_link_NoDup l d :
  NoDup (link_keys d) → NoDup (link_keys (insert_or_ignore_link l d)).
Proof.
  intros H. rewrite insert_or_ignore_link_keys.
  destruct (has_link _ _ d) eqn:E; [done|].
  apply NoDup_app. split; [done|]. split; [|apply NoDup_singleton].
  intros k Hk Hk'. apply list_elem_of_singleton in Hk' as ->.
  apply (has_link_spec (link_photo_id l) (link_album_id l)) in Hk. congruence.
Qed.

Lemma insert_or_ignore_link_has l d :
  has_link (link_photo_id l) (link_album_id l) (insert_or_ignore_link l d) = true.
Proof.
  apply has_link_spec. rewrite insert_or_ignore_link_keys.
  destruct (has_link _ _ d) eqn:E.
  - by apply has_link_spec.
  - apply elem_of_app. right. by apply list_elem_of_singleton.
Qed.

Lemma insert_or_ignore_link_mono l d k :
  k ∈ link_keys d → k ∈ link_keys (insert_or_ignore_link l d).
Proof.
  intros H. rewrite insert_or_ignore_link_keys.
  destruct (has_link _ _ d); [done|]. apply elem_of_app. by left.
Qed.

(** A run keeps the keys of the link table distinct. *)
Definition keeps_link_keys (w w' : world) : Prop :=
  NoDup (link_keys (db w)) → NoDup (link_keys (db w')).

Lemma keeps_link_keys_same w w' :
  photo_albums (db w') = photo_albums (db w) → keeps_link_keys w w'.
Proof. unfold keeps_link_keys, link_keys. by intros ->. Qed.

Lemma keeps_link_keys_stable : stable keeps_link_keys.
Proof.
  constructor.
  - by intros w H.
  - intros w1 w2 w3 H1 H2 H. by apply H2, H1.
  - intros evs w _. by apply keeps_link_keys_same.
  - intros w o w' [= <- <-]. by apply keeps_link_keys_same.
  - intros pid w o w' [= <- <-]. by apply keeps_link_keys_same.
  - intros w o w' [= <- <-]. by apply keeps_link_keys_same.
  - intros w o w' [= <- <-]. by apply keeps_link_keys_same.
  - intros w o w' [= <- <-]. by apply keeps_link_keys_same.
  - intros w o w' [= <- <-]. by apply keeps_link_keys_same.
  - intros aid title description n w o w' H.
    apply save_album_metadata_inv in H as [(e & _ & ->) | (row & _ & ->)];
      by apply keeps_link_keys_same.
  - intros pid cs w o w' H.
    apply save_comments_inv in H as [(e & _ & ->) | [(_ & ->) | (d' & _ & -> & _ & _ & Hl)]];
      by apply keeps_link_keys_same.
  - intros p thumb w o w' H.
    apply save_photo_metadata_standalone_inv in H as [(e & _ & ->) | (row & _ & _ & ->)];
      by apply keeps_link_keys_same.
  - intros p aid thumb w o w' H.
    apply save_photo_metadata_junction_inv in H as [(e & _ & -> & _) | (row & _ & _ & ->)].
    + by apply keeps_link_keys_same.
    + intros Hnd. simpl. by apply insert_or_ignore_link_NoDup.
Qed.

Lemma keeps_link_keys_run flickr fuel :
  respects keeps_link_keys (comprehensive_update flickr fuel).
Proof. apply stable_comprehensive_update, keeps_link_keys_stable. Qed.

(** Sync runs one after the other, each a new updater over the storage the
    previous one left: the service and the fuel of each run are given. *)
Fixpoint sync_runs (runs : list (remote * nat)) (t : nat) (d : database)
    : option database :=
  match runs with
  | [] => Some d
  | (flickr, fuel) :: rest =>
      match comprehensive_update flickr fuel (start d t) with
      | Some (_, w) => sync_runs rest (clock w) (db w)
      | None => None
      end
  end.

(** ** A small collection to run the model on *)

Module Demo.

(** A photo object from its id and its other entries. *)
Definition mk (pid : string) (kv : list (string * pyval)) : photo :=
  {| photo_id := pid; photo_attrs := list_to_map kv |}.

(** A listing of one page. *)
Definition one_page {A} (items : list A) (number : Z) : response (page A) :=
  if number =? 1
  then Okay {| page_items := items; page_pages := PyInt 1;
               page_total := PyInt (Z.of_nat (length items)) |}
  else Fail (Some "Page out of range").

Definition trip : album :=
  {| album_id := "a1"; album_title := Some (PyDict [("_content", PyStr "Trip")]) |}.

(** Album "Trip" holds [p1] and [p2]; the photostream holds [p3] as well. *)
Definition flickr : remote :=
  {| people_getPhotos :=
       one_page
         (Photo <$>
            [mk "p1" [("title", PyStr "one"); ("url_t", PyStr "https://live/p1_t.jpg")];
             mk "p2" [("title", PyStr "two")];
             mk "p3" [("title", PyStr "three")]]);
     photosets_getList := one_page [trip];
     photosets_getPhotos := fun _ =>
       one_page [mk "p1" [("title", PyStr "one")]; mk "p2" [("title", PyStr "two")]];
     photos_getInfo := fun pid =>
       Okay (mk pid [("description", PyDict [("_content", PyStr "seen")]);
                     ("views", PyStr "12")]);
     photos_comments_getList := fun _ => Okay [];
     thumbnail_get := fun _ => Some ".jpg" |}.

(** A listing whose second page does not report success. *)
Definition two_pages {A} (items : list A) (number : Z) : response (page A) :=
  if number =? 1
  then Okay {| page_items := items; page_pages := PyInt 2; page_total := PyInt 4 |}
  else Fail (Some "Service currently unavailable").

(** The demo collection behind listings that fail at their second page. *)
Definition failing : remote :=
  {| people_getPhotos := two_pages [Photo (mk "p1" [("title", PyStr "one")])];
     photosets_getList := two_pages [trip];
     photosets_getPhotos := fun _ => two_pages [mk "p1" []; mk "p2" []];
     photos_getInfo := photos_getInfo flickr;
     photos_comments_getList := photos_comments_getList flickr;
     thumbnail_get := thumbnail_get flickr |}.

(** Storage that holds [p1], with its thumbnail, and no link. *)
Definition stored_p1 : database :=
  {| photos :=
       {[ "p1" := {| row_album_id := None; row_title := Some "one";
                     row_description := Some "seen"; row_filename := "p1.jpg";
                     row_thumbnail_path := "thumbnails/p1.jpg";
                     row_date_taken := "2024-05-01 10:00:00";
                     row_date_uploaded := "1714557600"; row_views := 12;
                     row_tags := Some "sea"; row_url_original := "";
                     row_url_thumbnail := "https://live/p1_t.jpg" |} ]};
     albums := ∅; photo_albums := []; comments := [] |}.

(** The detail of [p4] cannot be fetched; [p4] comes before [p2] in the
    photostream and in album "Trip". *)
Definition flaky : remote :=
  {| people_getPhotos := one_page [Photo (mk "p4" []); Photo (mk "p2" [])];
     photosets_getList := one_page [trip];
     photosets_getPhotos := fun _ => one_page [mk "p4" []; mk "p2" []];
     photos_getInfo := fun pid =>
       if String.eqb pid "p4" then Raised "Read timed out" else photos_getInfo flickr pid;
     photos_comments_getList := photos_comments_getList flickr;
     thumbnail_get := thumbnail_get flickr |}.

(** Album "Trip" holds [p5], whose [views] is no integer; the photostream
    is empty. *)
Definition odd : remote :=
  {| people_getPhotos := one_page [];
     photosets_getList := one_page [trip];
     photosets_getPhotos := fun _ => one_page [mk "p5" [("views", PyStr "1,234")]];
     photos_getInfo := fun _ => Fail (Some "Photo not found");
     photos_comments_getList := photos_comments_getList flickr;
     thumbnail_get := thumbnail_get flickr |}.

End Demo.

Lemma filter_absent {A B} `{EqDecision B} (f : A → B) (k : B) (l : list A) :
  k ∉ f <$> l → filter (fun x => f x = k) l = [].
Proof.
  induction l as [|x l IH]; simpl; [done|].
  rewrite not_elem_of_cons. intros [Hx Hl]. rewrite filter_cons.
  destruct (decide (f x = k)); [congruence | by apply IH].
Qed.

Lemma NoDup_fmap_count {A B} `{EqDecision B} (f : A → B) (k : B) (l : list A) :
  NoDup (f <$> l) → (length (filter (fun x => f x = k) l) ≤ 1)%nat.
Proof.
  induction l as [|x l IH]; simpl; [lia|].
  rewrite NoDup_cons. intros [Hx Hl]. rewrite filter_cons.
  destruct (decide (f x = k)) as [<-|]; [|by apply IH].
  simpl. rewrite filter_absent; [simpl; lia | done].
Qed.

Lemma sync_runs_keeps_link_keys runs t d d' :
  NoDup (link_keys d) → sync_runs runs t d = Some d' → NoDup (link_keys d').
Proof.
  revert t d. induction runs as [|[flickr fuel] runs IH]; intros t d Hd; simpl.
  - by intros [= <-].
  - destruct (comprehensive_update flickr fuel (start d t)) as [[o w]|] eqn:E; [|done].
    apply IH. by apply (keeps_link_keys_run flickr fuel _ _ _ E).
Qed.

(** C8. Over a link table whose composite keys are distinct, any number of
    sync runs leaves at most one row for every [(photo_id, album_id)] pair;
    inserting a pair that is present changes nothing, and the link step of
    [save_photo_metadata_junction] raises nothing: the function raises only
    what the photo step before it raised. *)
Theorem link_pairs_stay_unique runs t d d' :
  NoDup (link_keys d) →
  sync_runs runs t d = Some d' →
  (∀ pid aid,
     (length (filter (fun l => link_key l = (pid, aid)) (photo_albums d')) ≤ 1)%nat) ∧
  (∀ l, link_key l ∈ link_keys d' → insert_or_ignore_link l d' = d') ∧
  (∀ p aid thumb w e w',
     save_photo_metadata_junction p aid thumb w = Some (Exn e, w') →
     save_photo_metadata_standalone p thumb w = Some (Exn e, w')).
Proof.
  intros Hd Hruns. split; [|split].
  - intros pid aid. apply NoDup_fmap_count.
    by apply (sync_runs_keeps_link_keys runs t d).
  - intros l. apply insert_or_ignore_link_present.
  - intros p aid thumb w e w' H.
    apply save_photo_metadata_junction_inv in H as [(e' & [= <-] & -> & H) | (row & [=] & _)].
    exact H.
Qed.

(** Two runs over the demo collection, from empty storage. *)
Lemma link_pairs_stay_unique_witness :
  ∃ d', sync_runs [(Demo.flickr, 3%nat); (Demo.flickr, 3%nat)] 0 empty_database = Some d' ∧
    ∀ pid aid,
      (length (filter (fun l => link_key l = (pid, aid)) (photo_albums d')) ≤ 1)%nat.
Proof.
  destruct (sync_runs [(Demo.flickr, 3%nat); (Demo.flickr, 3%nat)] 0 empty_database)
    as [d'|] eqn:E.
  - exists d'. split; [reflexivity|].
    exact (proj1 (link_pairs_stay_unique _ 0%nat empty_database d'
                    (NoDup_nil_2 : NoDup (link_keys empty_database)) E)).
  - vm_compute in E. discriminate.
Defined.

(** ** Photo rows and the links that reference them *)

(** In a sequence of events, every commit of a link row leaves storage
    with a row for its photo, and follows a commit of that photo's row. *)
Definition photo_before_link (evs : list event) : Prop :=
  ∀ i pid aid d,
    evs !! i = Some (EvCommit (WrLink pid aid) d) →
    is_Some (photos d !! pid) ∧
    ∃ j d', (j < i)%nat ∧ evs !! j = Some (EvCommit (WrPhoto pid) d') ∧
            is_Some (photos d' !! pid).

(** The events of a run, added to the trace, satisfy [P]. *)
Definition extends_by (P : list event → Prop) (w w' : world) : Prop :=
  ∃ evs, trace w' = trace w ++ evs ∧ P evs.

Definition writes_no_link (e : event) : Prop :=
  match e with
  | EvCommit (WrLink _ _) _ => False
  | _ => True
  end.

Lemma photo_before_link_none evs : Forall writes_no_link evs → photo_before_link evs.
Proof.
  intros H i pid aid d Hi. rewrite Forall_lookup in H. by apply H in Hi.
Qed.

Lemma photo_before_link_app evs1 evs2 :
  photo_before_link evs1 → photo_before_link evs2 → photo_before_link (evs1 ++ evs2).
Proof.
  intros H1 H2 i pid aid d Hi. apply lookup_app_Some in Hi as [Hi | [Hlen Hi]].
  - destruct (H1 _ _ _ _ Hi) as [Hd (j & d' & Hj & Hj' & Hd')]. split; [done|].
    exists j, d'. split; [done|]. split; [|done]. by apply lookup_app_l_Some.
  - destruct (H2 _ _ _ _ Hi) as [Hd (j & d' & Hj & Hj' & Hd')]. split; [done|].
    exists (length evs1 + j)%nat, d'. split; [lia|]. split; [|done].
    rewrite lookup_app_r by lia. by replace (length evs1 + j - length evs1)%nat with j by lia.
Qed.

Lemma quiet_writes_no_link evs : Forall quiet evs → Forall writes_no_link evs.
Proof. intros H. eapply Forall_impl; [exact H|]. by intros [| [] | | |]. Qed.

Lemma extends_by_same P w w' : P [] → trace w' = trace w → extends_by P w w'.
Proof. intros HP H. exists []. by rewrite app_nil_r. Qed.

Lemma photos_insert_or_ignore_link l d : photos (insert_or_ignore_link l d) = photos d.
Proof. unfold insert_or_ignore_link. by destruct (has_link _ _ d). Qed.

Lemma photo_before_link_refl w : extends_by photo_before_link w w.
Proof. apply extends_by_same; [|done]. by apply photo_before_link_none. Qed.

Lemma photo_before_link_junction p aid thumb :
  respects (extends_by photo_before_link) (save_photo_metadata_junction p aid thumb).
Proof.
  intros w o w' H.
  apply save_photo_metadata_junction_inv in H as [(e & _ & -> & _) | (row & _ & _ & ->)].
  - apply photo_before_link_refl.
  - eexists. split; [simpl; by rewrite <- app_assoc|].
    intros [|[|i]] pid' aid' d; simpl; [done| |done].
    intros [= <- <- <-]. rewrite photos_insert_or_ignore_link. simpl.
    split; [by rewrite lookup_insert_eq|].
    eexists 0%nat, _. split; [lia|]. split; [done|]. simpl. by rewrite lookup_insert_eq.
Qed.

Lemma photo_before_link_stable : stable (extends_by photo_before_link).
Proof.
  constructor;
    try (intros w o w' [= <- <-];
         apply extends_by_same; [by apply photo_before_link_none | done]).
  - apply photo_before_link_refl.
  - intros w1 w2 w3 (evs1 & H1 & P1) (evs2 & H2 & P2). exists (evs1 ++ evs2).
    split; [by rewrite H2, H1, app_assoc | by apply photo_before_link_app].
  - intros evs w Hq. exists evs. split; [done|].
    by apply photo_before_link_none, quiet_writes_no_link.
  - intros pid w o w' [= <- <-]. exists [EvIndexAdd pid]. split; [done|].
    apply photo_before_link_none. by repeat constructor.
  - intros aid' t' description n w o w' H.
    apply save_album_metadata_inv in H as [(e & _ & ->) | (row & _ & ->)].
    + apply extends_by_same; [by apply photo_before_link_none | done].
    + eexists. split; [done|]. apply photo_before_link_none. by repeat constructor.
  - intros pid cs w o w' H.
    apply save_comments_inv in H as [(e & _ & ->) | [(_ & ->) | (d' & _ & -> & _)]].
    + apply photo_before_link_refl.
    + apply photo_before_link_refl.
    + eexists. split; [done|]. apply photo_before_link_none. by repeat constructor.
  - intros p' thumb w o w' H.
    apply save_photo_metadata_standalone_inv in H as [(e & _ & ->) | (row & _ & _ & ->)].
    + apply photo_before_link_refl.
    + eexists. split; [done|]. apply photo_before_link_none. by repeat constructor.
  - apply photo_before_link_junction.
Qed.

(** C2. Wherever a link row is written (by [save_photo_metadata_junction],
    hence by [download_album_photo] and by a whole run), the commit of the
    link leaves storage holding a row for its photo and comes after a commit
    of that photo's row. *)
Theorem photo_row_committed_before_link :
  (∀ p aid thumb,
     respects (extends_by photo_before_link) (save_photo_metadata_junction p aid thumb)) ∧
  (∀ flickr p aid title,
     respects (extends_by photo_before_link) (download_album_photo flickr p aid title)) ∧
  (∀ flickr fuel,
     respects (extends_by photo_before_link) (comprehensive_update flickr fuel)).
Proof.
  split; [|split].
  - apply photo_before_link_junction.
  - intros. apply stable_download_album_photo, photo_before_link_stable.
  - intros. apply stable_comprehensive_update, photo_before_link_stable.
Qed.

(** The link commits among some events. *)
Definition link_commits (evs : list event) : list (string * string) :=
  flat_map (fun e => match e with EvCommit (WrLink pid aid) _ => [(pid, aid)] | _ => [] end) evs.

(** A run over the demo collection writes two links, each after its photo. *)
Lemma photo_row_committed_before_link_witness :
  ∃ o w', comprehensive_update Demo.flickr 3 (start empty_database 0) = Some (o, w') ∧
    photo_before_link (trace w') ∧
    link_commits (trace w') = [("p1", "a1"); ("p2", "a1")].
Proof.
  assert (option_map (fun r => link_commits (trace (snd r)))
            (comprehensive_update Demo.flickr 3 (start empty_database 0))
          = Some [("p1", "a1"); ("p2", "a1")]) as Hlinks by (vm_compute; reflexivity).
  destruct (comprehensive_update Demo.flickr 3 (start empty_database 0))
    as [[o w']|] eqn:E; [|discriminate].
  exists o, w'. split; [reflexivity|].
  destruct (proj2 (proj2 photo_row_committed_before_link) Demo.flickr 3%nat _ _ _ E)
    as (evs & Hevs & Hp).
  simpl in Hevs. subst evs. split; [exact Hp|].
  simpl in Hlinks. by injection Hlinks.
Defined.

(** ** The photostream listing and its [days_back] *)

(** What a call hands to its caller: the value, or what is raised. *)
Definition returned {A} (r : exn + A) : outcome A :=
  match r with
  | inl e => Exn e
  | inr a => Ok a
  end.

(** Over photos that all have their id the comprehension is the filter. *)
Lemma new_photos_of_photos u ps :
  new_photos_of u (Photo <$> ps) =
  inr (filter (fun p => photo_id p ∉ existing_photo_ids u) ps).
Proof.
  induction ps as [|p ps IH]; [done|]. csimpl. rewrite IH, filter_cons.
  by destruct (decide (photo_id p ∉ existing_photo_ids u)).
Qed.

(** When the comprehension gives its list every object had its id. *)
Lemma new_photos_of_inr u all_photos new_photos :
  new_photos_of u all_photos = inr new_photos →
  ∃ ps, all_photos = Photo <$> ps ∧
    new_photos = filter (fun p => photo_id p ∉ existing_photo_ids u) ps.
Proof.
  revert new_photos. induction all_photos as [|x rest IH]; intros new_photos; simpl.
  - intros [= <-]. by exists [].
  - destruct x as [p| |]; simpl; [|done|done].
    destruct (new_photos_of u rest) as [e|new'] eqn:E; [done|].
    destruct (IH _ eq_refl) as (ps & -> & ->). intros [= <-].
    exists (p :: ps). split; [done|]. rewrite filter_cons.
    by destruct (decide (photo_id p ∉ existing_photo_ids u)).
Qed.

(** When it raises, an object of the list has no id that can be read
    and hashed; the objects before it have theirs. *)
Lemma new_photos_of_inl u all_photos e :
  new_photos_of u all_photos = inl e →
  ∃ ps x rest, all_photos = (Photo <$> ps) ++ x :: rest ∧ element_photo x = inl e.
Proof.
  induction all_photos as [|x rest IH]; simpl; [done|].
  destruct (element_photo x) as [e'|p] eqn:Ex.
  - intros [= <-]. by exists [], x, rest.
  - destruct x as [p'| |]; simplify_eq/=.
    destruct (new_photos_of u rest) as [e'|new'] eqn:E; [|done].
    intros [= <-]. destruct (IH eq_refl) as (ps & x & rest' & -> & Hx).
    by exists (p :: ps), x, rest'.
Qed.

(** [get_recent_photostream_photos] in one step: the pages are fetched, the
    photos the index does not hold are returned; an object without an id
    that can be read makes the call raise before its last two lines. *)
Lemma get_recent_photostream_photos_run flickr fuel days_back w :
  get_recent_photostream_photos flickr fuel days_back w =
  match photostream_pages_from flickr fuel 1 [] [] with
  | None => None
  | Some (Exn e, evs) =>
      Some (Exn e, with_events (EvPrint (MsgCheckingPhotostream days_back) :: evs) w)
  | Some (Ok all_photos, evs) =>
      match new_photos_of (self w) all_photos with
      | inl e =>
          Some (Exn e, with_events (EvPrint (MsgCheckingPhotostream days_back) :: evs) w)
      | inr new_photos =>
          Some (Ok new_photos,
                with_events
                  (EvPrint (MsgCheckingPhotostream days_back) :: evs ++
                   [EvPrint (MsgPhotostreamTotal (length all_photos));
                    EvPrint (MsgPhotostreamNew (length new_photos))]) w)
      end
  end.
Proof.
  unfold get_recent_photostream_photos, bind, replay, with_events. simpl.
  destruct (photostream_pages_from flickr fuel 1 [] []) as [[[all_photos|e] evs]|]; simpl.
  - destruct (new_photos_of (self w) all_photos) as [e|new_photos]; simpl.
    + do 2 f_equal. f_equal. by rewrite <- !app_assoc.
    + do 2 f_equal. f_equal. by rewrite <- !app_assoc.
  - do 2 f_equal. f_equal. by rewrite <- !app_assoc.
  - done.
Qed.

(** The line that shows [days_back]. *)
Definition is_days_back_line (e : event) : bool :=
  match e with
  | EvPrint (MsgCheckingPhotostream _) => true
  | _ => false
  end.

(** What a computation shows once the [days_back] lines are struck from
    the trace: its outcome, storage, updater, clock and every other event. *)
Definition modulo_days_back_line {A} (r : option (outcome A * world))
    : option (outcome A * database * updater * nat * list event) :=
  match r with
  | None => None
  | Some (o, w) =>
      Some (o, db w, self w, clock w,
            filter (fun e => is_days_back_line e = false) (trace w))
  end.

(** Two calls that differ in [days_back] alone differ in the line that
    prints it alone. *)
Lemma get_recent_photostream_photos_days_back flickr fuel days_back days_back' w :
  modulo_days_back_line (get_recent_photostream_photos flickr fuel days_back w) =
  modulo_days_back_line (get_recent_photostream_photos flickr fuel days_back' w).
Proof.
  rewrite !get_recent_photostream_photos_run.
  destruct (photostream_pages_from flickr fuel 1 [] []) as [[[all_photos|e] evs]|];
    [| |done].
  - destruct (new_photos_of (self w) all_photos) as [e|new_photos]; simpl;
      by rewrite !filter_app, !filter_cons.
  - simpl. by rewrite !filter_app, !filter_cons.
Qed.

(** ** A page that does not report success *)

(** Pages [from], [from + 1], ... of a listing, [k] of them, are bodies that
    are ['ok'] after each of which the loop goes [on]; [items] is what they
    hold, in order. *)
Fixpoint gathered {A} (on : Z → page A → Prop) (listing : Z → response (page A))
    (from : Z) (k : nat) (items : list A) : Prop :=
  match k with
  | O => items = []
  | S k' =>
      ∃ result rest,
        listing from = Okay result ∧ on from result ∧
        gathered on listing (from + 1) k' rest ∧
        items = page_items result ++ rest
  end.

(** [get_user_albums] and [get_album_photos] go on to the next page when
    the page number is below the [pages] reported. *)
Definition below_pages {A} (number : Z) (result : page A) : Prop :=
  py_int_ge number (page_pages result) = inr false.

(** [get_recent_photostream_photos] goes on when the page has photos and its
    number is below the [pages] it reports, [total] and [pages] converting
    to integers. *)
Definition photostream_goes_on (number : Z) (result : page element) : Prop :=
  page_items result ≠ [] ∧
  ∃ total pages_total,
    py_int (page_total result) = inr total ∧
    py_int (page_pages result) = inr pages_total ∧
    number < pages_total.

Lemma get_user_albums_from_fail flickr k : ∀ fuel from albums evs items message,
  gathered below_pages (photosets_getList flickr) from k items →
  photosets_getList flickr (from + Z.of_nat k) = Fail message →
  (k < fuel)%nat →
  ∃ evs', get_user_albums_from flickr fuel from albums evs =
            Some (Exn (ApiError (default "Unknown error" message)), evs').
Proof.
  induction k as [|k IH]; intros fuel from albums evs items message Hg Hfail Hfuel;
    (destruct fuel as [|fuel]; [lia|]); simpl in *.
  - rewrite Z.add_0_r in Hfail. rewrite Hfail. eauto.
  - destruct Hg as (result & rest & Hres & Hon & Hg & ->).
    rewrite Hres. unfold below_pages in Hon. rewrite Hon.
    eapply IH; [exact Hg | | lia].
    rewrite <- Hfail. f_equal. lia.
Qed.

(** Events that are requests: nothing printed, nothing written. *)
Definition is_request (e : event) : Prop :=
  match e with
  | EvRequest _ => True
  | _ => False
  end.

Lemma get_album_photos_from_fail flickr aid k : ∀ fuel from photos evs items message,
  gathered below_pages (photosets_getPhotos flickr aid) from k items →
  photosets_getPhotos flickr aid (from + Z.of_nat k) = Fail message →
  (k < fuel)%nat →
  ∃ evs', Forall is_request evs' ∧
    get_album_photos_from flickr fuel aid from photos evs =
      Some (Ok (photos ++ items), evs ++ evs').
Proof.
  induction k as [|k IH]; intros fuel from photos evs items message Hg Hfail Hfuel;
    (destruct fuel as [|fuel]; [lia|]); simpl in *.
  - rewrite Z.add_0_r in *. rewrite Hfail, Hg, app_nil_r.
    eexists. split; [|reflexivity]. by repeat constructor.
  - destruct Hg as (result & rest & Hres & Hon & Hg & ->).
    rewrite Hres. unfold below_pages in Hon. rewrite Hon.
    edestruct IH as (evs' & Hreq & ->); [exact Hg | | |].
    + rewrite <- Hfail. f_equal. lia.
    + lia.
    + exists (EvRequest (ReqPhotosetPhotos aid from) :: evs').
      split; [by constructor|]. by rewrite <- !app_assoc.
Qed.

Lemma photostream_pages_from_fail flickr k : ∀ fuel from all_photos evs items message,
  gathered photostream_goes_on (people_getPhotos flickr) from k items →
  people_getPhotos flickr (from + Z.of_nat k) = Fail message →
  (k < fuel)%nat →
  ∃ evs', photostream_pages_from flickr fuel from all_photos evs =
    Some (Ok (all_photos ++ items),
          evs' ++ [EvPrint (MsgPhotostreamError (default "Unknown error" message))]).
Proof.
  induction k as [|k IH]; intros fuel from all_photos evs items message Hg Hfail Hfuel;
    (destruct fuel as [|fuel]; [lia|]); simpl in *.
  - rewrite Z.add_0_r in *. rewrite Hfail, Hg, app_nil_r. eauto.
  - destruct Hg as (result & rest & Hres & Hon & Hg & ->).
    rewrite Hres. destruct Hon as (Hne & total & pages_total & Ht & Hp & Hlt).
    destruct (page_items result) as [|p ps] eqn:Hitems; [done|].
    rewrite Ht, Hp. destruct (Z.leb_spec pages_total from); [lia|].
    rewrite app_assoc. eapply IH; [exact Hg | | lia].
    rewrite <- Hfail. f_equal. lia.
Qed.

(** The lines that report an error. *)
Definition is_error_line (e : event) : bool :=
  match e with
  | EvPrint (MsgPhotostreamError _) | EvPrint (MsgPhotostreamPageError _ _)
  | EvPrint (MsgThumbnailError _) | EvPrint (MsgPhotoError _)
  | EvPrint (MsgAlbumsError _) | EvPrint (MsgAlbumError _ _) => true
  | _ => false
  end.

(** Following the specification's words for a fetch that met a page
    without success status: it "surfaces the error upward with the partial
    results already gathered". The caller learns of the error (it is raised,
    or at least printed) and receives the items [partial] of the pages
    before. *)
Definition surfaces_error_with_partial {A} (partial : list A)
    (r : option (outcome (list A) * list event)) : Prop :=
  match r with
  | None => False
  | Some (o, evs) =>
      ((∃ e, o = Exn e) ∨ existsb is_error_line evs = true) ∧
      (∃ items, o = Ok items ∧ partial ⊆ items)
  end.

(** Against C7 as stated: when page 2 fails, [get_user_albums] raises and
    the album of page 1 is gone; [get_album_photos] returns the photos of
    page 1 and no error is raised or printed. *)
Lemma failed_page_counterexample :
  ¬ surfaces_error_with_partial [Demo.trip]
      (get_user_albums_from Demo.failing 3 1 [] [EvPrint MsgFetchingAlbums]) ∧
  ¬ surfaces_error_with_partial [Demo.mk "p1" []; Demo.mk "p2" []]
      (get_album_photos_from Demo.failing 3 "a1" 1 [] []).
Proof.
  split.
  - simpl. intros [_ (items & [=] & _)].
  - simpl. intros [[(e & [=]) | [=]] _].
Qed.

(** C7, amended. When pages [1..k] of a listing are fetched and page
    [k + 1] does not report success: [get_user_albums] raises the API error
    and hands over none of the albums gathered; [get_album_photos] returns
    the photos gathered and neither raises nor prints anything;
    [get_recent_photostream_photos] prints the error and goes on with the
    photos gathered (those the index does not hold; an object gathered
    whose id cannot be read makes it raise instead). *)
Theorem failed_page_outcomes flickr fuel :
  (∀ k albums message w,
     gathered below_pages (photosets_getList flickr) 1 k albums →
     photosets_getList flickr (1 + Z.of_nat k) = Fail message →
     (k < fuel)%nat →
     ∃ w', get_user_albums flickr fuel w =
             Some (Exn (ApiError (default "Unknown error" message)), w')) ∧
  (∀ aid k photos message w,
     gathered below_pages (photosets_getPhotos flickr aid) 1 k photos →
     photosets_getPhotos flickr aid (1 + Z.of_nat k) = Fail message →
     (k < fuel)%nat →
     ∃ evs, Forall is_request evs ∧
       get_album_photos flickr fuel aid w = Some (Ok photos, with_events evs w)) ∧
  (∀ k photos message days_back w,
     gathered photostream_goes_on (people_getPhotos flickr) 1 k photos →
     people_getPhotos flickr (1 + Z.of_nat k) = Fail message →
     (k < fuel)%nat →
     ∃ evs,
       get_recent_photostream_photos flickr fuel days_back w =
         Some (returned (new_photos_of (self w) photos), with_events evs w) ∧
       EvPrint (MsgPhotostreamError (default "Unknown error" message)) ∈ evs).
Proof.
  split; [|split].
  - intros k albums message w Hg Hfail Hfuel.
    destruct (get_user_albums_from_fail flickr k fuel 1 [] [EvPrint MsgFetchingAlbums]
                albums message Hg Hfail Hfuel) as (evs' & H).
    unfold get_user_albums, replay. rewrite H. eauto.
  - intros aid k photos message w Hg Hfail Hfuel.
    destruct (get_album_photos_from_fail flickr aid k fuel 1 [] [] photos message
                Hg Hfail Hfuel) as (evs' & Hreq & H).
    unfold get_album_photos, replay. rewrite H. exists evs'. by split.
  - intros k photos message days_back w Hg Hfail Hfuel.
    destruct (photostream_pages_from_fail flickr k fuel 1 [] [] photos message
                Hg Hfail Hfuel) as (evs' & H).
    rewrite get_recent_photostream_photos_run, H. simpl.
    destruct (new_photos_of (self w) photos) as [e|new_photos]; simpl;
      (eexists; split; [reflexivity|]);
      apply elem_of_cons; right; [|rewrite <- app_assoc];
      apply elem_of_app; right; simpl; apply elem_of_cons; by left.
Qed.

(** The three fetchers over listings that fail at page 2. *)
Lemma failed_page_outcomes_witness :
  (∃ w', get_user_albums Demo.failing 3 (start empty_database 0) =
           Some (Exn (ApiError "Service currently unavailable"), w')) ∧
  (∃ evs, Forall is_request evs ∧
     get_album_photos Demo.failing 3 "a1" (start empty_database 0) =
       Some (Ok [Demo.mk "p1" []; Demo.mk "p2" []],
             with_events evs (start empty_database 0))) ∧
  (∃ evs,
     get_recent_photostream_photos Demo.failing 3 90 (start empty_database 0) =
       Some (Ok (filter (fun p => photo_id p ∉ existing_photo_ids (self (start empty_database 0)))
                        [Demo.mk "p1" [("title", PyStr "one")]]),
             with_events evs (start empty_database 0)) ∧
     EvPrint (MsgPhotostreamError "Service currently unavailable") ∈ evs).
Proof.
  pose proof (failed_page_outcomes Demo.failing 3) as (Ha & Hp & Hs).
  split; [|split].
  - apply (Ha 1%nat [Demo.trip] (Some "Service currently unavailable")); [|reflexivity|lia].
    eexists _, []. repeat split.
  - apply (Hp "a1" 1%nat _ (Some "Service currently unavailable")); [|reflexivity|lia].
    eexists _, []. repeat split.
  - destruct (Hs 1%nat [Photo (Demo.mk "p1" [("title", PyStr "one")])]
                 (Some "Service currently unavailable") 90 (start empty_database 0))
      as (evs & Hrun & Hin); [|reflexivity|lia|].
    + eexists _, []. split; [reflexivity|]. split; [|done].
      split; [done|]. exists 4, 2. repeat split.
    + change [Photo ?x] with (Photo <$> [x]) in Hrun.
      rewrite new_photos_of_photos in Hrun. exists evs. split; [exact Hrun | exact Hin].
Defined.

(** ** One photo of a sweep, step by step *)

(** The updater after each of its own updates. *)
Definition u_index_add (pid : string) (u : updater) : updater :=
  {| existing_photo_ids := {[pid]} ∪ existing_photo_ids u;
     new_photos_count := new_photos_count u;
     new_associations_count := new_associations_count u;
     skipped_photos_count := skipped_photos_count u;
     photostream_new_count := photostream_new_count u |}.

Definition u_new_photo (u : updater) : updater :=
  {| existing_photo_ids := existing_photo_ids u;
     new_photos_count := S (new_photos_count u);
     new_associations_count := new_associations_count u;
     skipped_photos_count := skipped_photos_count u;
     photostream_new_count := photostream_new_count u |}.

Definition u_new_association (u : updater) : updater :=
  {| existing_photo_ids := existing_photo_ids u;
     new_photos_count := new_photos_count u;
     new_associations_count := S (new_associations_count u);
     skipped_photos_count := skipped_photos_count u;
     photostream_new_count := photostream_new_count u |}.

Definition u_skipped (u : updater) : updater :=
  {| existing_photo_ids := existing_photo_ids u;
     new_photos_count := new_photos_count u;
     new_associations_count := new_associations_count u;
     skipped_photos_count := S (skipped_photos_count u);
     photostream_new_count := photostream_new_count u |}.

Definition u_photostream_new (u : updater) : updater :=
  {| existing_photo_ids := existing_photo_ids u;
     new_photos_count := new_photos_count u;
     new_associations_count := new_associations_count u;
     skipped_photos_count := skipped_photos_count u;
     photostream_new_count := S (photostream_new_count u) |}.

(** The world with its updater changed by [f]. *)
Definition map_self (f : updater → updater) (w : world) : world :=
  {| db := db w; self := f (self w); clock := clock w; trace := trace w |}.

(** The world after [index_add pid]. *)
Definition indexed (pid : string) (w : world) : world :=
  with_events [EvIndexAdd pid] (map_self (u_index_add pid) w).

(** [download_photostream_photo] on a photo the index holds: nothing. *)
Lemma download_photostream_photo_known flickr p w :
  photo_id p ∈ existing_photo_ids (self w) →
  download_photostream_photo flickr p w = Some (Ok false, w).
Proof.
  intros H. unfold download_photostream_photo, bind, photo_exists. simpl.
  by rewrite bool_decide_eq_true_2.
Qed.

(** [download_photostream_photo] on a photo the index does not hold. *)
Lemma download_photostream_photo_new flickr p w :
  photo_id p ∉ existing_photo_ids (self w) →
  download_photostream_photo flickr p w =
  match fetch_new_photo flickr p
          (with_events [EvPrint (MsgDownloadingPhotostreamPhoto (title_or "Untitled" p))] w)
  with
  | None => None
  | Some (Exn e, w1) => Some (Exn e, w1)
  | Some (Ok fetched, w1) =>
      match save_photo_metadata_standalone (fst fetched) (snd fetched) w1 with
      | None => None
      | Some (Exn e, w2) => Some (Exn e, w2)
      | Some (Ok _, w2) =>
          Some (Ok true,
                map_self u_new_photo (map_self u_photostream_new (indexed (photo_id p) w2)))
      end
  end.
Proof.
  intros H. unfold download_photostream_photo, bind at 1, photo_exists. simpl.
  rewrite bool_decide_eq_false_2 by done. unfold bind at 1. simpl.
  unfold bind at 1. unfold with_events. simpl.
  destruct (fetch_new_photo _ _ _) as [[[fetched|e] w1]|]; [|done|done].
  unfold bind at 1.
  destruct (save_photo_metadata_standalone _ _ _) as [[[[]|e] w2]|]; done.
Qed.

(** [download_album_photo] on a photo the index holds and storage links
    with the album: the skip counter, nothing else. *)
Lemma download_album_photo_linked flickr p aid title w :
  photo_id p ∈ existing_photo_ids (self w) →
  has_link (photo_id p) aid (db w) = true →
  download_album_photo flickr p aid title w = Some (Ok false, map_self u_skipped w).
Proof.
  intros H Hl. unfold download_album_photo, bind, photo_exists, photo_in_album. simpl.
  rewrite bool_decide_eq_true_2 by done. simpl. by rewrite Hl.
Qed.

(** [download_album_photo] on a photo the index holds, without the link. *)
Lemma download_album_photo_unlinked flickr p aid title w :
  photo_id p ∈ existing_photo_ids (self w) →
  has_link (photo_id p) aid (db w) = false →
  download_album_photo flickr p aid title w =
  match save_photo_metadata_junction p aid None
          (with_events [EvPrint (MsgAddingExistingPhoto (title_or "Untitled" p))] w)
  with
  | None => None
  | Some (Exn e, w1) => Some (Exn e, w1)
  | Some (Ok _, w1) => Some (Ok true, map_self u_new_association w1)
  end.
Proof.
  intros H Hl. unfold download_album_photo, bind at 1, photo_exists. simpl.
  rewrite bool_decide_eq_true_2 by done. simpl.
  unfold bind at 1, photo_in_album. simpl. rewrite Hl. simpl.
  unfold bind at 1. unfold bind at 1. simpl. unfold bind at 1. unfold with_events.
  destruct (save_photo_metadata_junction _ _ _ _) as [[[[]|e] w1]|]; done.
Qed.

(** [download_album_photo] on a photo the index does not hold. *)
Lemma download_album_photo_new flickr p aid title w :
  photo_id p ∉ existing_photo_ids (self w) →
  download_album_photo flickr p aid title w =
  match fetch_new_photo flickr p
          (with_events [EvPrint (MsgDownloadingAlbumPhoto (title_or "Untitled" p))] w)
  with
  | None => None
  | Some (Exn e, w1) => Some (Exn e, w1)
  | Some (Ok fetched, w1) =>
      match save_photo_metadata_junction (fst fetched) aid (snd fetched)
              (map_self u_new_photo (indexed (photo_id p) w1))
      with
      | None => None
      | Some (Exn e, w2) => Some (Exn e, w2)
      | Some (Ok _, w2) => Some (Ok true, map_self u_new_association w2)
      end
  end.
Proof.
  intros H. unfold download_album_photo, bind at 1, photo_exists. simpl.
  rewrite bool_decide_eq_false_2 by done. simpl.
  unfold bind at 1. simpl. unfold bind at 1. unfold bind at 1. simpl.
  unfold bind at 1. unfold with_events. simpl.
  destruct (fetch_new_photo _ _ _) as [[[fetched|e] w1]|]; [|done|done].
  simpl. unfold bind at 1.
  destruct (save_photo_metadata_junction _ _ _ _) as [[[[]|e] w2]|]; done.
Qed.

(** The requests among some events. *)
Definition requests (evs : list event) : list request :=
  flat_map (fun e => match e with EvRequest r => [r] | _ => [] end) evs.

(** What fetching a photo's detail, thumbnail and comments may do:
    ask, print, and commit comments. *)
Definition fetch_event (e : event) : Prop :=
  match e with
  | EvRequest _ | EvPrint _ | EvSleep | EvCommit (WrComments _) _ => True
  | EvCommit _ _ | EvIndexAdd _ => False
  end.

(** The updater, the clock and every table but [comments] are as before. *)
Definition fetch_frame (w w' : world) : Prop :=
  self w' = self w ∧ clock w' = clock w ∧
  photos (db w') = photos (db w) ∧ albums (db w') = albums (db w) ∧
  photo_albums (db w') = photo_albums (db w) ∧
  ∃ evs, trace w' = trace w ++ evs ∧ Forall fetch_event evs.

Lemma fetch_frame_refl w : fetch_frame w w.
Proof. repeat split. exists []. by rewrite app_nil_r. Qed.

Lemma fetch_frame_trans w1 w2 w3 : fetch_frame w1 w2 → fetch_frame w2 w3 → fetch_frame w1 w3.
Proof.
  intros (Hs & Hc & Hp & Ha & Hl & evs & Ht & He) (Hs' & Hc' & Hp' & Ha' & Hl' & evs' & Ht' & He').
  repeat split; try congruence.
  exists (evs ++ evs'). split; [by rewrite Ht', Ht, app_assoc | by apply Forall_app].
Qed.

Lemma fetch_frame_quiet evs w : Forall quiet evs → fetch_frame w (with_events evs w).
Proof.
  intros H. repeat split. exists evs. split; [done|].
  eapply Forall_impl; [exact H|]. by intros [| | | |].
Qed.

Lemma fetch_frame_save_comments pid cs : respects fetch_frame (save_comments pid cs).
Proof.
  intros w o w' H.
  apply save_comments_inv in H as [(e & _ & ->) | [(_ & ->) | (d' & _ & -> & Hp & Ha & Hl)]];
    try apply fetch_frame_refl.
  repeat split; try done. eexists. split; [done|]. by repeat constructor.
Qed.

Lemma fetch_new_photo_frame flickr p : respects fetch_frame (fetch_new_photo flickr p).
Proof.
  apply respects_fetch_new_photo.
  - apply fetch_frame_refl.
  - apply fetch_frame_trans.
  - apply fetch_frame_quiet.
  - apply fetch_frame_save_comments.
Qed.

Lemma download_thumbnail_frame flickr pid url : respects fetch_frame (download_thumbnail flickr pid url).
Proof.
  apply respects_download_thumbnail.
  - apply fetch_frame_refl.
  - apply fetch_frame_trans.
  - apply fetch_frame_quiet.
Qed.

(** The photo [fetch_new_photo] hands back: the listing's, updated with the
    detail when the service gave it. *)
Definition fetched_photo (flickr : remote) (p : photo) : photo :=
  match photos_getInfo flickr (photo_id p) with
  | Okay info => photo_update p info
  | Raised _ | Fail _ => p
  end.

Lemma fetch_new_photo_Ok flickr p w fetched w' :
  fetch_new_photo flickr p w = Some (Ok fetched, w') →
  fst fetched = fetched_photo flickr p ∧
  (∀ what, photos_getInfo flickr (photo_id p) ≠ Raised what) ∧
  ∃ evs1 evs2,
    trace w' = trace w ++ EvRequest (ReqPhotoInfo (photo_id p)) :: evs1 ++
                          EvRequest (ReqComments (photo_id p)) :: evs2.
Proof.
  unfold fetch_new_photo. intros H.
  apply bind_Ok in H as (oi & w1 & Hinfo & H).
  apply bind_Ok in H as (thumb & w2 & Hthumb & H).
  apply bind_Ok in H as (cs & w3 & Hcs & H).
  apply bind_Ok in H as ([] & w4 & Hsave & H).
  injection H as <- <-. simpl.
  assert (fetch_frame w1 w2) as (_ & _ & _ & _ & _ & evs1 & Ht2 & _).
  { destruct (photo_get "url_t" _) as [url|]; [destruct (truthy url)|].
    - eapply download_thumbnail_frame, Hthumb.
    - injection Hthumb as _ <-. apply fetch_frame_refl.
    - injection Hthumb as _ <-. apply fetch_frame_refl. }
  assert (fetch_frame w3 w4) as (_ & _ & _ & _ & _ & evs2 & Ht4 & _)
    by (eapply fetch_frame_save_comments, Hsave).
  assert (trace w3 = trace w2 ++ [EvRequest (ReqComments (photo_id p))]) as Ht3.
  { unfold get_photo_comments, bind, call, emit in Hcs. simpl in Hcs.
    destruct (photos_comments_getList flickr (photo_id p)); by injection Hcs as _ <-. }
  unfold get_photo_info, bind, call, emit, fetched_photo in *. simpl in Hinfo.
  destruct (photos_getInfo flickr (photo_id p)) as [what|message|info];
    [done| |]; injection Hinfo as <- <-; (split; [done|]); (split; [done|]);
    exists evs1, evs2; rewrite Ht4, Ht3, Ht2; simpl; by rewrite <- !app_assoc.
Qed.

(** ** The classification table of the reconciliation engine *)

(** The context a photo is visited in. *)
Inductive sweep : Type :=
  | PhotostreamSweep
  | AlbumSweep (aid : string) (title : pyval).

(** One item of a sweep. *)
Definition visit (flickr : remote) (s : sweep) (p : photo) : M bool :=
  match s with
  | PhotostreamSweep => download_photostream_photo flickr p
  | AlbumSweep aid title => download_album_photo flickr p aid title
  end.

(** [new_photos], [new_associations], [skipped_photos], [photostream_new]. *)
Definition counters (u : updater) : nat * nat * nat * nat :=
  (new_photos_count u, new_associations_count u, skipped_photos_count u,
   photostream_new_count u).




(** The photo rows committed among some events. *)
Definition photo_commits (evs : list event) : list string :=
  flat_map (fun e => match e with EvCommit (WrPhoto pid) _ => [pid] | _ => [] end) evs.




Lemma fetch_events_commit_nothing evs :
  Forall fetch_event evs → photo_commits evs = [] ∧ link_commits evs = [].
Proof.
  induction 1 as [|e evs He _ [IH1 IH2]]; [done|].
  unfold photo_commits, link_commits in *. simpl. rewrite IH1, IH2.
  by destruct e as [| [] | | |].
Qed.

Lemma requests_app evs1 evs2 : requests (evs1 ++ evs2) = requests evs1 ++ requests evs2.
Proof. apply flat_map_app. Qed.



(** What a successful [fetch_new_photo] leaves, in one statement. *)
Lemma fetch_new_photo_events flickr p w fetched w' :
  fetch_new_photo flickr p w = Some (Ok fetched, w') →
  fst fetched = fetched_photo flickr p ∧
  self w' = self w ∧ clock w' = clock w ∧
  photos (db w') = photos (db w) ∧ photo_albums (db w') = photo_albums (db w) ∧
  ∃ evs, trace w' = trace w ++ evs ∧
    photo_commits evs = [] ∧ link_commits evs = [] ∧
    ReqPhotoInfo (photo_id p) ∈ requests evs ∧ ReqComments (photo_id p) ∈ requests evs.
Proof.
  intros H.
  destruct (fetch_new_photo_frame flickr p _ _ _ H) as (Hs & Hc & Hp & _ & Hl & evs & Ht & He).
  destruct (fetch_new_photo_Ok flickr p _ _ _ H) as (Hf & _ & evs1 & evs2 & Ht').
  repeat (split; [done|]). exists evs. split; [done|].
  destruct (fetch_events_commit_nothing evs He) as [-> ->]. do 2 (split; [done|]).
  rewrite Ht in Ht'. apply app_inv_head in Ht'. subst evs.
  change (?x :: ?l) with ([x] ++ l). rewrite !requests_app. simpl. split.
  - apply elem_of_cons. by left.
  - apply elem_of_cons. right. apply elem_of_app. right. apply elem_of_cons. by left.
Qed.





(** ** A known photo met in an album it is not linked with *)

(** The link-only branch of [download_album_photo] hands the listing's
    photo and no thumbnail path to [save_photo_metadata_junction], which
    saves the photo first: the row is replaced and its [thumbnail_path] is
    empty afterwards. No request is made. *)
Lemma link_only_replaces_row flickr p aid title w b w' :
  photo_id p ∈ existing_photo_ids (self w) →
  has_link (photo_id p) aid (db w) = false →
  download_album_photo flickr p aid title w = Some (Ok b, w') →
  ∃ row, photos (db w') !! photo_id p = Some row ∧ row_thumbnail_path row = "".
Proof.
  intros Hk Hl. rewrite download_album_photo_unlinked by done.
  destruct (save_photo_metadata_junction _ _ _ _) as [[[[]|e] w1]|] eqn:Hs; [|done|done].
  intros [= <- <-].
  apply save_photo_metadata_junction_inv in Hs as [(e & [=] & _) | (row & _ & Hrow & ->)].
  exists row. split; [|done]. simpl.
  rewrite photos_insert_or_ignore_link. simpl. by rewrite lookup_insert_eq.
Qed.

(** C1, at the failing input. Storage holds the row of [p1] with its
    thumbnail path and no link; album "Trip" lists [p1]. The visit makes no
    request and writes the link, but the row of [p1] is written again from
    the listing: its [thumbnail_path] is empty afterwards, and its
    description, dates, views and tags are gone with it. *)
Theorem link_only_rewrites_photo_row :
  ∃ w',
    download_album_photo Demo.flickr (Demo.mk "p1" [("title", PyStr "one")]) "a1"
      (PyStr "Trip") (start Demo.stored_p1 0) = Some (Ok true, w') ∧
    requests (trace w') = [] ∧
    link_commits (trace w') = [("p1", "a1")] ∧
    row_thumbnail_path <$> photos Demo.stored_p1 !! "p1" = Some "thumbnails/p1.jpg" ∧
    photos (db w') !! "p1" =
      Some {| row_album_id := None; row_title := Some "one"; row_description := Some "";
              row_filename := "p1.jpg"; row_thumbnail_path := "";
              row_date_taken := ""; row_date_uploaded := ""; row_views := 0;
              row_tags := Some ""; row_url_original := ""; row_url_thumbnail := "" |}.
Proof.
  set (run := download_album_photo Demo.flickr (Demo.mk "p1" [("title", PyStr "one")]) "a1"
                (PyStr "Trip") (start Demo.stored_p1 0)).
  assert (fst <$> run = Some (Ok true)) as H1 by (vm_compute; reflexivity).
  assert ((fun r => requests (trace (snd r))) <$> run = Some []) as H2
    by (vm_compute; reflexivity).
  assert ((fun r => link_commits (trace (snd r))) <$> run = Some [("p1", "a1")]) as H3
    by (vm_compute; reflexivity).
  assert ((fun r => photos (db (snd r)) !! "p1") <$> run =
          Some (Some {| row_album_id := None; row_title := Some "one";
                        row_description := Some ""; row_filename := "p1.jpg";
                        row_thumbnail_path := ""; row_date_taken := "";
                        row_date_uploaded := ""; row_views := 0; row_tags := Some "";
                        row_url_original := ""; row_url_thumbnail := "" |})) as H4
    by (vm_compute; reflexivity).
  assert (row_thumbnail_path <$> photos Demo.stored_p1 !! "p1" = Some "thumbnails/p1.jpg")
    as H0 by (vm_compute; reflexivity).
  clearbody run.
  destruct run as [[o w']|]; [|discriminate]. simpl in *.
  exists w'. repeat split; congruence.
Qed.

(** ** An error while a photo is fetched *)

(** The error lines printed among some events. *)
Definition error_lines (evs : list event) : list message :=
  flat_map (fun e => match e with
                     | EvPrint m => if is_error_line e then [m] else []
                     | _ => []
                     end) evs.

(** In the photostream sweep the [try] is around each photo: the error is
    printed and the loop goes on with the next one. *)
Lemma photostream_loop_continues flickr i n p ps w e w1 :
  download_photostream_photo flickr p w = Some (Exn e, w1) →
  update_photostream_loop flickr i n (p :: ps) w =
  update_photostream_loop flickr (S i) n ps (with_events [EvPrint (MsgPhotoError e)] w1).
Proof.
  intros H. simpl. unfold bind at 1, try_except, bind at 1. by rewrite H.
Qed.

(** In an album sweep nothing is around the photo: the error leaves the
    loop, and the photos after it are not visited. *)
Lemma album_loop_stops flickr p ps aid title n w e w1 :
  download_album_photo flickr p aid title w = Some (Exn e, w1) →
  download_album_photos flickr (p :: ps) aid title n w = Some (Exn e, w1).
Proof. intros H. simpl. unfold bind. by rewrite H. Qed.

(** C6, at the failing input. The detail of [p4] cannot be fetched; [p2]
    follows it in the photostream and in album "Trip". The photostream sweep
    prints the error and goes on to fetch and store [p2]; the album sweep
    ends at [p4]: the error is printed for the album, [p2] is neither
    requested nor stored. *)
Theorem album_sweep_ends_at_failed_photo :
  ∃ w_stream w_albums,
    update_photostream Demo.flaky 3 (start empty_database 0) = Some (Ok tt, w_stream) ∧
    error_lines (trace w_stream) = [MsgPhotoError (TransportError "Read timed out")] ∧
    requests (trace w_stream) =
      [ReqPeoplePhotos 1; ReqPhotoInfo "p4"; ReqPhotoInfo "p2"; ReqComments "p2"] ∧
    is_Some (photos (db w_stream) !! "p2") ∧
    update_albums Demo.flaky 3 (start empty_database 0) = Some (Ok tt, w_albums) ∧
    error_lines (trace w_albums) =
      [MsgAlbumError (PyStr "Trip") (TransportError "Read timed out")] ∧
    requests (trace w_albums) =
      [ReqPhotosetsList 1; ReqPhotosetPhotos "a1" 1; ReqPhotoInfo "p4"] ∧
    photos (db w_albums) !! "p2" = None.
Proof.
  set (stream := update_photostream Demo.flaky 3 (start empty_database 0)).
  set (albums := update_albums Demo.flaky 3 (start empty_database 0)).
  assert (fst <$> stream = Some (Ok tt)) as S1 by (vm_compute; reflexivity).
  assert ((fun r => error_lines (trace (snd r))) <$> stream =
          Some [MsgPhotoError (TransportError "Read timed out")]) as S2
    by (vm_compute; reflexivity).
  assert ((fun r => requests (trace (snd r))) <$> stream =
          Some [ReqPeoplePhotos 1; ReqPhotoInfo "p4"; ReqPhotoInfo "p2"; ReqComments "p2"])
    as S3 by (vm_compute; reflexivity).
  assert ((fun r => bool_decide (is_Some (photos (db (snd r)) !! "p2"))) <$> stream =
          Some true) as S4 by (vm_compute; reflexivity).
  assert (fst <$> albums = Some (Ok tt)) as A1 by (vm_compute; reflexivity).
  assert ((fun r => error_lines (trace (snd r))) <$> albums =
          Some [MsgAlbumError (PyStr "Trip") (TransportError "Read timed out")]) as A2
    by (vm_compute; reflexivity).
  assert ((fun r => requests (trace (snd r))) <$> albums =
          Some [ReqPhotosetsList 1; ReqPhotosetPhotos "a1" 1; ReqPhotoInfo "p4"]) as A3
    by (vm_compute; reflexivity).
  assert ((fun r => photos (db (snd r)) !! "p2") <$> albums = Some None) as A4
    by (vm_compute; reflexivity).
  clearbody stream albums.
  destruct stream as [[o1 w1]|]; [|discriminate].
  destruct albums as [[o2 w2]|]; [|discriminate]. simpl in *.
  exists w1, w2. repeat split; try congruence.
  injection S4 as S4. by apply bool_decide_eq_true in S4.
Qed.

(** ** The request signer *)

(** A value of the parameter dict of a request: this program passes
    strings and integers ([page], [per_page], [nojsoncallback]). *)
Inductive param : Type :=
  | ParamStr (s : string)
  | ParamInt (z : Z).

(** [str(v)], as the f-string renders a value. *)
Definition param_str (v : param) : string :=
  match v with
  | ParamStr s => s
  | ParamInt z => pretty z
  end.

(** [v1 < v2]: values of unlike types do not compare ([TypeError]). *)
Definition param_lt (v1 v2 : param) : option bool :=
  match v1, v2 with
  | ParamStr s1, ParamStr s2 => Some (String.ltb s1 s2)
  | ParamInt z1, ParamInt z2 => Some (z1 <? z2)
  | _, _ => None
  end.

(** [a < b] on the items of a dict, as Python compares tuples: the keys
    decide unless they are equal, and only then are the values compared. *)
Definition item_lt (a b : string * param) : option bool :=
  if String.eqb (fst a) (fst b) then param_lt (snd a) (snd b)
  else Some (String.ltb (fst a) (fst b)).

(** [sorted(items)], by insertion; [None] is the [TypeError] of a
    comparison. *)
Fixpoint sorted_insert (x : string * param) (l : list (string * param))
    : option (list (string * param)) :=
  match l with
  | [] => Some [x]
  | y :: l' =>
      match item_lt x y with
      | None => None
      | Some true => Some (x :: y :: l')
      | Some false => cons y <$> sorted_insert x l'
      end
  end.

Fixpoint py_sorted (items : list (string * param)) : option (list (string * param)) :=
  match items with
  | [] => Some []
  | x :: items' =>
      match py_sorted items' with
      | None => None
      | Some l => sorted_insert x l
      end
  end.

(** Following the specification: "sort parameters lexicographically by
    key". *)
Fixpoint insert_by_key (x : string * param) (l : list (string * param))
    : list (string * param) :=
  match l with
  | [] => [x]
  | y :: l' =>
      if String.ltb (fst x) (fst y) then x :: y :: l' else y :: insert_by_key x l'
  end.

Fixpoint sort_by_key (items : list (string * param)) : list (string * param) :=
  match items with
  | [] => []
  | x :: items' => insert_by_key x (sort_by_key items')
  end.

(** [f"{k}={v}"]. *)
Definition render_item (kv : string * param) : string :=
  fst kv +:+ "=" +:+ param_str (snd kv).

Section Signer.

(** The library functions the signer calls: [urllib.parse.quote(s, safe='')],
    [str.upper], [hmac.new(key, msg, hashlib.sha1).digest()] and
    [base64.b64encode]. Text is held as its UTF-8 bytes, so [encode] and
    [decode] change nothing. *)
Variable quote : string → string.
Variable upper : string → string.
Variable hmac_sha1 : string → string → string.
Variable b64encode : string → string.

(** [generate_signature], over the [api_secret] and [oauth_token_secret] of
    the downloader and the items of [params] in the order of the dict. *)
Definition generate_signature (api_secret : string) (oauth_token_secret : option string)
    (method url : string) (params : list (string * param)) : exn + string :=
  match py_sorted params with
  | None => inl TypeError
  | Some items =>
      let normalized_params := String.concat "&" (map render_item items) in
      let signature_base :=
        upper method +:+ "&" +:+ quote url +:+ "&" +:+ quote normalized_params in
      let signing_key :=
        quote api_secret +:+ "&" +:+
        quote (match oauth_token_secret with
               | Some s => if String.eqb s "" then "" else s
               | None => ""
               end) in
      inr (b64encode (hmac_sha1 signing_key signature_base))
  end.

(** Following the specification: "sort parameters lexicographically by
    key, build METHOD&url-encoded(url)&url-encoded(normalized-params),
    compute HMAC (SHA-1) over that string using
    urlencode(app_secret)&urlencode(token_secret_or_empty) as key,
    base64-encode the digest". *)
Definition spec_signature (app_secret : string) (token_secret : option string)
    (method url : string) (params : list (string * param)) : string :=
  let normalized := String.concat "&" (map render_item (sort_by_key params)) in
  let base := upper method +:+ "&" +:+ quote url +:+ "&" +:+ quote normalized in
  let key := quote app_secret +:+ "&" +:+ quote (default "" token_secret) in
  b64encode (hmac_sha1 key base).

End Signer.

Lemma insert_by_key_keys x l : (insert_by_key x l).*1 ≡ₚ x.1 :: l.*1.
Proof.
  induction l as [|y l IH]; simpl; [done|].
  destruct (String.ltb x.1 y.1); simpl; [done|].
  rewrite IH. apply Permutation_swap.
Qed.

Lemma sort_by_key_keys l : (sort_by_key l).*1 ≡ₚ l.*1.
Proof.
  induction l as [|x l IH]; simpl; [done|].
  by rewrite insert_by_key_keys, IH.
Qed.

Lemma sorted_insert_by_key x l :
  x.1 ∉ l.*1 → sorted_insert x l = Some (insert_by_key x l).
Proof.
  induction l as [|y l IH]; simpl; [done|].
  rewrite not_elem_of_cons. intros [Hne Hl]. unfold item_lt.
  destruct (String.eqb_spec x.1 y.1) as [|_]; [done|].
  destruct (String.ltb x.1 y.1); [done|]. by rewrite IH.
Qed.

(** On the items of a dict (distinct keys) [sorted] raises nothing and
    sorts by key. *)
Lemma py_sorted_by_key l : NoDup l.*1 → py_sorted l = Some (sort_by_key l).
Proof.
  induction l as [|x l IH]; simpl; [done|].
  rewrite NoDup_cons. intros [Hx Hl]. rewrite IH by done.
  apply sorted_insert_by_key. by rewrite sort_by_key_keys.
Qed.

(** The keys of the items go up. *)
Definition key_le (a b : string * param) : Prop := String.leb a.1 b.1 = true.

Lemma ltb_false_leb s1 s2 : String.ltb s1 s2 = false → String.leb s2 s1 = true.
Proof.
  unfold String.ltb, String.leb. rewrite (String.compare_antisym s2 s1).
  by destruct (String.compare s1 s2).
Qed.

Lemma ltb_true_leb s1 s2 : String.ltb s1 s2 = true → String.leb s1 s2 = true.
Proof. unfold String.ltb, String.leb. by destruct (String.compare s1 s2). Qed.

Lemma insert_by_key_Sorted x l : Sorted key_le l → Sorted key_le (insert_by_key x l).
Proof.
  induction 1 as [|y l Hl IH Hy]; simpl; [by repeat constructor|].
  destruct (String.ltb x.1 y.1) eqn:E.
  - constructor; [by constructor|]. constructor. by apply ltb_true_leb.
  - constructor; [done|]. destruct Hy as [|z l Hz]; simpl.
    + constructor. by apply ltb_false_leb.
    + destruct (String.ltb x.1 z.1); constructor; [by apply ltb_false_leb | done].
Qed.

Lemma sort_by_key_Sorted l : Sorted key_le (sort_by_key l).
Proof.
  induction l as [|x l IH]; simpl; [constructor|]. by apply insert_by_key_Sorted.
Qed.

Lemma insert_by_key_Permutation x l : insert_by_key x l ≡ₚ x :: l.
Proof.
  induction l as [|y l IH]; simpl; [done|].
  destruct (String.ltb x.1 y.1); [done|]. rewrite IH. apply Permutation_swap.
Qed.

Lemma sort_by_key_Permutation l : sort_by_key l ≡ₚ l.
Proof.
  induction l as [|x l IH]; simpl; [done|]. by rewrite insert_by_key_Permutation, IH.
Qed.

(** C9. Over the items of a parameter dict (distinct keys) the signer
    raises nothing and returns the signature the specification describes:
    the parameters sorted by key (a permutation of the items whose keys go
    up), rendered and joined, [METHOD&quote(url)&quote(normalized)] signed
    with HMAC-SHA1 under [quote(app_secret)&quote(token_secret or '')] and
    base64-encoded. The result is a function of these inputs alone, so two
    calls on the same inputs agree. *)
Theorem generate_signature_spec quote upper hmac_sha1 b64encode
    api_secret token_secret method url params :
  NoDup params.*1 →
  generate_signature quote upper hmac_sha1 b64encode api_secret token_secret
    method url params =
  inr (spec_signature quote upper hmac_sha1 b64encode api_secret token_secret
         method url params) ∧
  Sorted key_le (sort_by_key params) ∧ sort_by_key params ≡ₚ params.
Proof.
  intros Hd. split; [|split].
  - unfold generate_signature, spec_signature. rewrite py_sorted_by_key by done.
    do 4 f_equal. destruct token_secret as [s|]; simpl; [|done].
    by destruct (String.eqb_spec s "") as [->|].
  - apply sort_by_key_Sorted.
  - apply sort_by_key_Permutation.
Qed.

(** ** The library functions of the signer, to run it

    Executable counterparts of [hashlib.sha1], [hmac], [base64.b64encode],
    [urllib.parse.quote(s, safe='')] and [str.upper] (on ASCII text), over
    strings as bytes. *)

Module PyLib.

Definition bytes_of (s : string) : list Z :=
  map (fun c => Z.of_nat (nat_of_ascii c)) (list_ascii_of_string s).

Definition string_of (bs : list Z) : string :=
  string_of_list_ascii (map (fun b => ascii_of_nat (Z.to_nat b)) bs).

Definition w32 (x : Z) : Z := x mod 2 ^ 32.

Definition rotl (n x : Z) : Z := w32 (Z.lor (Z.shiftl x n) (Z.shiftr x (32 - n))).

Definition be32 (x : Z) : list Z :=
  [Z.shiftr x 24 mod 256; Z.shiftr x 16 mod 256; Z.shiftr x 8 mod 256; x mod 256].

Definition pad (msg : list Z) : list Z :=
  let n := Z.of_nat (length msg) in
  msg ++ [128] ++ repeat 0 (Z.to_nat ((55 - n) mod 64))
      ++ be32 (Z.shiftr (8 * n) 32) ++ be32 (w32 (8 * n)).

Fixpoint words (bs : list Z) : list Z :=
  match bs with
  | a :: b :: c :: d :: rest => (((a * 256 + b) * 256 + c) * 256 + d) :: words rest
  | _ => []
  end.

Fixpoint blocks (fuel : nat) (ws : list Z) : list (list Z) :=
  match fuel, ws with
  | S fuel', _ :: _ => take 16 ws :: blocks fuel' (drop 16 ws)
  | _, _ => []
  end.

Fixpoint schedule (n : nat) (rev_w : list Z) : list Z :=
  match n with
  | O => rev_w
  | S n' =>
      schedule n'
        (rotl 1 (Z.lxor (Z.lxor (nth 2 rev_w 0) (nth 7 rev_w 0))
                        (Z.lxor (nth 13 rev_w 0) (nth 15 rev_w 0))) :: rev_w)
  end.

Definition state : Type := Z * Z * Z * Z * Z.

Definition round (st : state) (tw : nat * Z) : state :=
  match st with
  | (a, b, c, d, e) =>
      let t := fst tw in
      let f :=
        if (t <? 20)%nat then Z.lor (Z.land b c) (Z.land (Z.lxor b 0xFFFFFFFF) d)
        else if (t <? 40)%nat then Z.lxor (Z.lxor b c) d
        else if (t <? 60)%nat then Z.lor (Z.lor (Z.land b c) (Z.land b d)) (Z.land c d)
        else Z.lxor (Z.lxor b c) d in
      let k :=
        if (t <? 20)%nat then 0x5A827999
        else if (t <? 40)%nat then 0x6ED9EBA1
        else if (t <? 60)%nat then 0x8F1BBCDC
        else 0xCA62C1D6 in
      (w32 (rotl 5 a + f + e + k + snd tw), a, rotl 30 b, c, d)
  end.

Definition compress (h : state) (block : list Z) : state :=
  match h, fold_left round (combine (seq 0 80) (rev (schedule 64 (rev block)))) h with
  | (h0, h1, h2, h3, h4), (a, b, c, d, e) =>
      (w32 (h0 + a), w32 (h1 + b), w32 (h2 + c), w32 (h3 + d), w32 (h4 + e))
  end.

Definition sha1 (msg : list Z) : list Z :=
  let ws := words (pad msg) in
  match fold_left compress (blocks (length ws) ws)
          (0x67452301, 0xEFCDAB89, 0x98BADCFE, 0x10325476, 0xC3D2E1F0) with
  | (h0, h1, h2, h3, h4) => be32 h0 ++ be32 h1 ++ be32 h2 ++ be32 h3 ++ be32 h4
  end.

Definition hmac_sha1_bytes (key msg : list Z) : list Z :=
  let key := if (64 <? length key)%nat then sha1 key else key in
  let key := key ++ repeat 0 (64 - length key)%nat in
  sha1 (map (Z.lxor 0x5c) key ++ sha1 (map (Z.lxor 0x36) key ++ msg)).

Definition hmac_sha1 (key msg : string) : string :=
  string_of (hmac_sha1_bytes (bytes_of key) (bytes_of msg)).

Definition b64_char (n : Z) : ascii :=
  nth (Z.to_nat n)
      (list_ascii_of_string
         "ABCDEFGHIJKLMNOPQRSTUVWXYZabcdefghijklmnopqrstuvwxyz0123456789+/") "A"%char.

Fixpoint b64 (bs : list Z) : list ascii :=
  match bs with
  | [] => []
  | [a] => [b64_char (a / 4); b64_char (a mod 4 * 16); "="%char; "="%char]
  | [a; b] =>
      [b64_char (a / 4); b64_char (a mod 4 * 16 + b / 16); b64_char (b mod 16 * 4); "="%char]
  | a :: b :: c :: rest =>
      b64_char (a / 4) :: b64_char (a mod 4 * 16 + b / 16)
        :: b64_char (b mod 16 * 4 + c / 64) :: b64_char (c mod 64) :: b64 rest
  end.

Definition b64encode (s : string) : string :=
  string_of_list_ascii (b64 (bytes_of s)).

Definition hex_digit (n : Z) : ascii :=
  ascii_of_nat (Z.to_nat (if n <? 10 then 48 + n else 55 + n)).

Definition unreserved (c : ascii) : bool :=
  let n := Z.of_nat (nat_of_ascii c) in
  ((65 <=? n) && (n <=? 90)) || ((97 <=? n) && (n <=? 122)) || ((48 <=? n) && (n <=? 57))
  || (n =? 95) || (n =? 46) || (n =? 45) || (n =? 126).

Definition quote (s : string) : string :=
  String.concat ""
    (map (fun c =>
            if unreserved c then String c ""
            else let n := Z.of_nat (nat_of_ascii c) in
                 String "%" (String (hex_digit (n / 16)) (String (hex_digit (n mod 16)) "")))
         (list_ascii_of_string s)).

Definition upper (s : string) : string :=
  string_of_list_ascii
    (map (fun c => let n := nat_of_ascii c in
                   if ((97 <=? n) && (n <=? 122))%nat then ascii_of_nat (n - 32) else c)
         (list_ascii_of_string s)).

Definition hex (bs : list Z) : string :=
  string_of_list_ascii
    (flat_map (fun b => [ascii_of_nat (Z.to_nat (if b / 16 <? 10 then 48 + b / 16 else 87 + b / 16));
                         ascii_of_nat (Z.to_nat (if b mod 16 <? 10 then 48 + b mod 16 else 87 + b mod 16))]) bs).

End PyLib.

Example sha1_abc :
  PyLib.hex (PyLib.sha1 (PyLib.bytes_of "abc")) = "a9993e364706816aba3e25717850c26c9cd0d89d".
Proof. vm_compute. reflexivity. Qed.

Example hmac_sha1_fox :
  PyLib.hex (PyLib.hmac_sha1_bytes (PyLib.bytes_of "key")
               (PyLib.bytes_of "The quick brown fox jumps over the lazy dog"))
  = "de7c9b85b8b78aa6bc8a7a36f70a90701c9db4d9".
Proof. vm_compute. reflexivity. Qed.

Example b64encode_padding :
  (PyLib.b64encode "foobar", PyLib.b64encode "fooba", PyLib.b64encode "foob")
  = ("Zm9vYmFy", "Zm9vYmE=", "Zm9vYg==").
Proof. vm_compute. reflexivity. Qed.

Example quote_url :
  PyLib.quote "https://www.flickr.com/services/rest/"
  = "https%3A%2F%2Fwww.flickr.com%2Fservices%2Frest%2F".
Proof. vm_compute. reflexivity. Qed.

(** The parameters of a [flickr.people.getPhotos] call, as [oauth_request]
    assembles them. *)
Definition getPhotos_params : list (string * param) :=
  [("method", ParamStr "flickr.people.getPhotos"); ("format", ParamStr "json");
   ("nojsoncallback", ParamInt 1); ("user_id", ParamStr "138560374@N06");
   ("page", ParamInt 1); ("per_page", ParamInt 500);
   ("oauth_consumer_key", ParamStr "k3y"); ("oauth_nonce", ParamStr "1700000000");
   ("oauth_signature_method", ParamStr "HMAC-SHA1");
   ("oauth_timestamp", ParamStr "1700000000"); ("oauth_version", ParamStr "1.0");
   ("oauth_token", ParamStr "t0k")].

(** The signature of that call under the secrets ['s3cr3t'] and
    ['t0k s3cr3t']. *)
Lemma generate_signature_spec_witness :
  NoDup getPhotos_params.*1 ∧
  generate_signature PyLib.quote PyLib.upper PyLib.hmac_sha1 PyLib.b64encode
    "s3cr3t" (Some "t0k s3cr3t") "get" "https://www.flickr.com/services/rest/"
    getPhotos_params = inr "AFVaMsR59R1ucGSa95SqMST+la0=".
Proof.
  assert (NoDup getPhotos_params.*1) as Hd
    by (apply (bool_decide_unpack (NoDup getPhotos_params.*1)); vm_compute; exact I).
  split; [exact Hd|].
  destruct (generate_signature_spec PyLib.quote PyLib.upper PyLib.hmac_sha1 PyLib.b64encode
              "s3cr3t" (Some "t0k s3cr3t") "get" "https://www.flickr.com/services/rest/"
              getPhotos_params Hd) as [-> _].
  vm_compute. reflexivity.
Defined.

(** ** The index and the rows of [photos] *)

(** The detail the service returns for a photo carries that photo's id. *)
Definition detail_matches (flickr : remote) : Prop :=
  ∀ pid info, photos_getInfo flickr pid = Okay info → photo_id info = pid.

(** The index holds the id of every row of [photos]. *)
Definition index_covers_storage (w : world) : Prop :=
  dom (photos (db w)) ⊆ existing_photo_ids (self w).

(** Every id of the index has its row in [photos]. *)
Definition index_is_stored (w : world) : Prop :=
  existing_photo_ids (self w) ⊆ dom (photos (db w)).

Lemma fetched_photo_id flickr p :
  detail_matches flickr → photo_id (fetched_photo flickr p) = photo_id p.
Proof.
  intros Hm. unfold fetched_photo.
  destruct (photos_getInfo flickr (photo_id p)) as [| |info] eqn:E; [done|done|].
  simpl. by apply Hm.
Qed.

(** The visit of a photostream photo: what it keeps, and what it leaves
    when it returns. *)
Lemma download_photostream_photo_post flickr p w o w' :
  detail_matches flickr →
  download_photostream_photo flickr p w = Some (o, w') →
  (index_covers_storage w → index_covers_storage w') ∧
  (∀ b, o = Ok b → index_is_stored w →
     index_is_stored w' ∧ photo_id p ∈ dom (photos (db w'))).
Proof.
  unfold index_covers_storage, index_is_stored. intros Hm H.
  destruct (decide (photo_id p ∈ existing_photo_ids (self w))) as [Hk|Hk].
  { rewrite download_photostream_photo_known in H by done. injection H as <- <-.
    split; [done|]. intros b _ Hst. split; [done|]. by apply Hst. }
  rewrite download_photostream_photo_new in H by done.
  destruct (fetch_new_photo _ _ _) as [[[fetched|e] w1]|] eqn:Hf; [| |done].
  - destruct (fetch_new_photo_events _ _ _ _ _ Hf) as (Hp' & Hself & _ & Hph & _).
    simpl in Hself, Hph.
    destruct (save_photo_metadata_standalone _ _ _) as [[[[]|e] w2]|] eqn:Hs; [| |done].
    + apply save_photo_metadata_standalone_inv in Hs as [(e & [=] & _) | (row & _ & _ & ->)].
      injection H as <- <-. simpl.
      rewrite Hself, Hph, Hp', dom_insert_L, (fetched_photo_id _ _ Hm).
      split; [set_solver|]. intros b _ Hst. split; set_solver.
    + apply save_photo_metadata_standalone_inv in Hs as [(e' & _ & ->) | (row & [=] & _)].
      injection H as <- <-. rewrite Hself, Hph. split; [done|]. by intros b [=].
  - injection H as <- <-.
    destruct (fetch_new_photo_frame _ _ _ _ _ Hf) as (Hself & _ & Hph & _).
    simpl in Hself, Hph. rewrite Hself, Hph. split; [done|]. by intros b [=].
Qed.

(** The visit of an album photo, likewise: when it returns, the photo is
    stored and linked with the album. *)
Lemma download_album_photo_post flickr p aid title w o w' :
  detail_matches flickr →
  download_album_photo flickr p aid title w = Some (o, w') →
  (index_covers_storage w → index_covers_storage w') ∧
  (∀ b, o = Ok b → index_is_stored w →
     index_is_stored w' ∧ photo_id p ∈ dom (photos (db w')) ∧
     has_link (photo_id p) aid (db w') = true).
Proof.
  unfold index_covers_storage, index_is_stored. intros Hm H.
  destruct (decide (photo_id p ∈ existing_photo_ids (self w))) as [Hk|Hk].
  { destruct (has_link (photo_id p) aid (db w)) eqn:Hl.
    - rewrite download_album_photo_linked in H by done. injection H as <- <-. simpl.
      split; [done|]. intros b _ Hst. split; [done|]. split; [by apply Hst | done].
    - rewrite download_album_photo_unlinked in H by done.
      destruct (save_photo_metadata_junction _ _ _ _) as [[[[]|e] w1]|] eqn:Hs; [| |done].
      + apply save_photo_metadata_junction_inv in Hs
          as [(e & [=] & _) | (row & _ & _ & ->)].
        injection H as <- <-. simpl.
        rewrite photos_insert_or_ignore_link. simpl. rewrite dom_insert_L.
        split; [set_solver|]. intros b _ Hst. split; [set_solver|]. split; [set_solver|].
        apply (insert_or_ignore_link_has
                 {| link_photo_id := photo_id p; link_album_id := aid;
                    link_is_primary := 1; link_date_added := clock w |}).
      + apply save_photo_metadata_junction_inv in Hs
          as [(e' & _ & -> & _) | (row & [=] & _)].
        injection H as <- <-. simpl. split; [done|]. by intros b [=]. }
  rewrite download_album_photo_new in H by done.
  destruct (fetch_new_photo _ _ _) as [[[fetched|e] w1]|] eqn:Hf; [| |done].
  - destruct (fetch_new_photo_events _ _ _ _ _ Hf) as (Hp' & Hself & _ & Hph & _).
    simpl in Hself, Hph.
    destruct (save_photo_metadata_junction _ _ _ _) as [[[[]|e] w2]|] eqn:Hs; [| |done].
    + apply save_photo_metadata_junction_inv in Hs
        as [(e & [=] & _) | (row & _ & _ & ->)].
      injection H as <- <-. simpl.
      rewrite photos_insert_or_ignore_link. simpl.
      rewrite Hself, Hph, Hp', dom_insert_L, (fetched_photo_id _ _ Hm).
      split; [set_solver|]. intros b _ Hst. split; [set_solver|]. split; [set_solver|].
      apply (insert_or_ignore_link_has
               {| link_photo_id := photo_id p; link_album_id := aid;
                  link_is_primary := 1; link_date_added := clock w1 |}).
    + apply save_photo_metadata_junction_inv in Hs
        as [(e' & _ & -> & _) | (row & [=] & _)].
      injection H as <- <-. simpl. rewrite Hself, Hph.
      split; [set_solver|]. by intros b [=].
  - injection H as <- <-.
    destruct (fetch_new_photo_frame _ _ _ _ _ Hf) as (Hself & _ & Hph & _).
    simpl in Hself, Hph. rewrite Hself, Hph. split; [done|]. by intros b [=].
Qed.

(** The ids added to the index among some events. *)
Definition index_adds (evs : list event) : list string :=
  flat_map (fun e => match e with EvIndexAdd pid => [pid] | _ => [] end) evs.

(** Storage as the last commit among some events left it. *)
Definition storage_after (d : database) (evs : list event) : database :=
  fold_left (fun d e => match e with EvCommit _ d' => d' | _ => d end) evs d.

(** Following the specification: "the Existing-State Index must, at all
    times during a sync run, be a superset of what persisted storage
    contains for photo ids". After any number [n] of the events [evs] of a
    run from [w], a photo that storage holds is in the index. *)
Definition index_covers_storage_throughout (w : world) (evs : list event) : Prop :=
  ∀ n pid,
    is_Some (photos (storage_after (db w) (take n evs)) !! pid) →
    pid ∈ existing_photo_ids (self w) ∨ pid ∈ index_adds (take n evs).

(** Following the specification: "write-then-index, never
    index-then-write". An id is added to the index after the commit of its
    photo row. *)
Definition write_then_index (evs : list event) : Prop :=
  ∀ i pid, evs !! i = Some (EvIndexAdd pid) →
    ∃ j d, (j < i)%nat ∧ evs !! j = Some (EvCommit (WrPhoto pid) d).

Lemma lookup_photo_commits evs j n pid d :
  evs !! j = Some (EvCommit (WrPhoto pid) d) → (j < n)%nat →
  pid ∈ photo_commits (take n evs).
Proof.
  intros H Hj. unfold photo_commits. apply list_elem_of_In, in_flat_map.
  exists (EvCommit (WrPhoto pid) d). split; [|by left].
  apply list_elem_of_In, list_elem_of_lookup. exists j. by rewrite lookup_take_lt.
Qed.

(** Against C4 as stated. In the photostream path the row of [p3] is
    committed while the index does not hold [p3] yet: the index is no
    superset of storage at that point. In the album path the id of [p2] is
    added to the index before its row is committed. *)
Lemma index_order_counterexample :
  (∃ w', download_photostream_photo Demo.flickr (Demo.mk "p3" [("title", PyStr "three")])
           (start empty_database 0) = Some (Ok true, w') ∧
         ¬ index_covers_storage_throughout (start empty_database 0) (trace w')) ∧
  (∃ w', download_album_photo Demo.flickr (Demo.mk "p2" [("title", PyStr "two")]) "a1"
           (PyStr "Trip") (start empty_database 0) = Some (Ok true, w') ∧
         ¬ write_then_index (trace w')).
Proof.
  split.
  - set (run := download_photostream_photo Demo.flickr
                  (Demo.mk "p3" [("title", PyStr "three")]) (start empty_database 0)).
    assert (fst <$> run = Some (Ok true)) as H1 by (vm_compute; reflexivity).
    assert ((fun r => bool_decide (is_Some
               (photos (storage_after empty_database (take 4 (trace (snd r)))) !! "p3")))
            <$> run = Some true) as H2 by (vm_compute; reflexivity).
    assert ((fun r => index_adds (take 4 (trace (snd r)))) <$> run = Some []) as H3
      by (vm_compute; reflexivity).
    clearbody run. destruct run as [[o w']|]; [|discriminate]. simpl in *.
    exists w'. split; [congruence|]. intros H.
    destruct (H 4%nat "p3") as [Hin|Hin].
    + injection H2 as H2. by apply bool_decide_eq_true in H2.
    + change ("p3" ∈ dom (photos empty_database)) in Hin.
      apply elem_of_dom in Hin as [row Hrow]. simpl in Hrow.
      by rewrite lookup_empty in Hrow.
    + injection H3 as H3. rewrite H3 in Hin. by apply elem_of_nil in Hin.
  - set (run := download_album_photo Demo.flickr (Demo.mk "p2" [("title", PyStr "two")])
                  "a1" (PyStr "Trip") (start empty_database 0)).
    assert (fst <$> run = Some (Ok true)) as H1 by (vm_compute; reflexivity).
    assert ((fun r => trace (snd r) !! 3%nat) <$> run = Some (Some (EvIndexAdd "p2"))) as H2
      by (vm_compute; reflexivity).
    assert ((fun r => photo_commits (take 3 (trace (snd r)))) <$> run = Some []) as H3
      by (vm_compute; reflexivity).
    clearbody run. destruct run as [[o w']|]; [|discriminate]. simpl in *.
    exists w'. split; [congruence|]. intros H.
    destruct (H 3%nat "p2") as (j & d & Hj & Hd); [congruence|].
    apply (lookup_photo_commits _ _ 3) in Hd; [|done].
    injection H3 as H3. rewrite H3 in Hd. by apply elem_of_nil in Hd.
Qed.

Lemma write_then_index_photostream flickr p w o w' :
  detail_matches flickr →
  download_photostream_photo flickr p w = Some (o, w') →
  ∃ evs, trace w' = trace w ++ evs ∧ write_then_index evs.
Proof.
  intros Hm H.
  destruct (decide (photo_id p ∈ existing_photo_ids (self w))) as [Hk|Hk].
  { rewrite download_photostream_photo_known in H by done. injection H as <- <-.
    exists []. split; [by rewrite app_nil_r|]. by intros i pid. }
  rewrite download_photostream_photo_new in H by done.
  assert (∀ evs : list event, Forall fetch_event evs →
            write_then_index (EvPrint (MsgDownloadingPhotostreamPhoto (title_or "Untitled" p))
                              :: evs)) as Hquiet.
  { intros evs He [|i] pid Hi; [done|]. simpl in Hi.
    rewrite Forall_lookup in He. by apply He in Hi. }
  destruct (fetch_new_photo _ _ _) as [[[fetched|e] w1]|] eqn:Hf; [| |done].
  - destruct (fetch_new_photo_frame _ _ _ _ _ Hf) as (_ & _ & _ & _ & _ & evs & Ht & He).
    destruct (fetch_new_photo_Ok _ _ _ _ _ Hf) as (Hp' & _).
    simpl in Ht.
    destruct (save_photo_metadata_standalone _ _ _) as [[[[]|e] w2]|] eqn:Hs; [| |done].
    + apply save_photo_metadata_standalone_inv in Hs as [(e & [=] & _) | (row & _ & _ & ->)].
      injection H as <- <-. simpl. rewrite Ht, Hp', (fetched_photo_id _ _ Hm).
      eexists. split; [by rewrite <- !app_assoc|].
      intros i pid Hi. simpl in Hi. destruct i as [|i]; [done|]. simpl in Hi.
      apply lookup_app_Some in Hi as [Hi | [Hlen Hi]].
      * rewrite Forall_lookup in He. by apply He in Hi.
      * destruct (i - length evs)%nat as [|[|k]] eqn:Ek; simpl in Hi; [done| |done].
        injection Hi as <-. eexists (S (length evs)), _. split; [lia|]. simpl.
        rewrite lookup_app_r by lia. rewrite Nat.sub_diag. reflexivity.
    + apply save_photo_metadata_standalone_inv in Hs as [(e' & _ & ->) | (row & [=] & _)].
      injection H as <- <-. rewrite Ht. eexists. split; [by rewrite <- app_assoc|].
      by apply Hquiet.
  - injection H as <- <-.
    destruct (fetch_new_photo_frame _ _ _ _ _ Hf) as (_ & _ & _ & _ & _ & evs & Ht & He).
    simpl in Ht. rewrite Ht. eexists. split; [by rewrite <- app_assoc|]. by apply Hquiet.
Qed.

(** C4, amended. When the detail the service returns for a photo carries
    that photo's id: if the index holds the id of every photo row in storage
    before the visit of a photo, it does after it, in the photostream sweep
    and in an album sweep, whatever the outcome of the visit; and in the
    photostream path the row of a photo is committed before its id is added
    to the index. *)
Theorem index_covers_storage_between_visits flickr s p w o w' :
  detail_matches flickr →
  visit flickr s p w = Some (o, w') →
  index_covers_storage w →
  index_covers_storage w' ∧
  (s = PhotostreamSweep → ∃ evs, trace w' = trace w ++ evs ∧ write_then_index evs).
Proof.
  intros Hm H Hc. split.
  - destruct s as [|aid title]; simpl in H.
    + by apply (download_photostream_photo_post _ _ _ _ _ Hm H).
    + by apply (download_album_photo_post _ _ _ _ _ _ _ Hm H).
  - intros ->. by apply (write_then_index_photostream flickr p w o w').
Qed.

Lemma start_index_covers_storage d t : index_covers_storage (start d t).
Proof. unfold index_covers_storage, start, get_existing_photo_ids. simpl. done. Qed.

Lemma demo_detail_matches : detail_matches Demo.flickr.
Proof. intros pid info H. simpl in H. by injection H as <-. Qed.

(** The photostream photo [p3] over empty storage. *)
Lemma index_covers_storage_between_visits_witness :
  detail_matches Demo.flickr ∧
  index_covers_storage (start empty_database 0) ∧
  ∃ o w',
    visit Demo.flickr PhotostreamSweep (Demo.mk "p3" [("title", PyStr "three")])
      (start empty_database 0) = Some (o, w') ∧
    index_covers_storage w'.
Proof.
  split; [exact demo_detail_matches|]. split; [apply start_index_covers_storage|].
  destruct (visit Demo.flickr PhotostreamSweep (Demo.mk "p3" [("title", PyStr "three")])
              (start empty_database 0)) as [[o w']|] eqn:E.
  - exists o, w'. split; [reflexivity|].
    exact (proj1 (index_covers_storage_between_visits Demo.flickr PhotostreamSweep
                    (Demo.mk "p3" [("title", PyStr "three")]) (start empty_database 0) o w'
                    demo_detail_matches E (start_index_covers_storage empty_database 0))).
  - exfalso. vm_compute in E. discriminate.
Defined.

(** ** A second run over an unchanged collection *)

(** Rows of [photos], links, ids of the index and events are only added. *)
Definition grows (w w' : world) : Prop :=
  dom (photos (db w)) ⊆ dom (photos (db w')) ∧
  (∀ k, k ∈ link_keys (db w) → k ∈ link_keys (db w')) ∧
  existing_photo_ids (self w) ⊆ existing_photo_ids (self w') ∧
  ∃ evs, trace w' = trace w ++ evs.

Lemma grows_refl w : grows w w.
Proof. repeat split; try done. exists []. by rewrite app_nil_r. Qed.

Lemma grows_trans w1 w2 w3 : grows w1 w2 → grows w2 w3 → grows w1 w3.
Proof.
  intros (Hp & Hl & Hi & evs & Ht) (Hp' & Hl' & Hi' & evs' & Ht').
  split; [set_solver|]. split; [naive_solver|]. split; [set_solver|].
  exists (evs ++ evs'). by rewrite Ht', Ht, app_assoc.
Qed.

Lemma grows_same w w' evs :
  db w' = db w → self w' = self w → trace w' = trace w ++ evs → grows w w'.
Proof.
  intros Hd Hs Ht. unfold grows. rewrite Hd, Hs. repeat split; try done. by exists evs.
Qed.

Lemma grows_stable : stable grows.
Proof.
  constructor.
  - apply grows_refl.
  - apply grows_trans.
  - intros evs w _. by apply (grows_same _ _ evs).
  - intros w o w' [= <- <-]. apply (grows_same _ _ []); [done|done|]. by rewrite app_nil_r.
  - intros pid w o w' [= <- <-]. unfold grows. simpl.
    split; [done|]. split; [done|]. split; [set_solver|]. by eexists.
  - intros w o w' [= <- <-]. unfold grows. simpl.
    repeat split; try done. exists []. by rewrite app_nil_r.
  - intros w o w' [= <- <-]. unfold grows. simpl.
    repeat split; try done. exists []. by rewrite app_nil_r.
  - intros w o w' [= <- <-]. unfold grows. simpl.
    repeat split; try done. exists []. by rewrite app_nil_r.
  - intros w o w' [= <- <-]. unfold grows. simpl.
    repeat split; try done. exists []. by rewrite app_nil_r.
  - intros aid title description n w o w' H.
    apply save_album_metadata_inv in H as [(e & _ & ->) | (row & _ & ->)].
    + apply (grows_same _ _ []); [done|done|]. by rewrite app_nil_r.
    + unfold grows. simpl. repeat split; try done. by eexists.
  - intros pid cs w o w' H.
    apply save_comments_inv in H as [(e & _ & ->) | [(_ & ->) | (d' & _ & -> & Hp & _ & Hl)]];
      try apply grows_refl.
    unfold grows, link_keys. simpl. rewrite Hp, Hl. repeat split; try done. by eexists.
  - intros p thumb w o w' H.
    apply save_photo_metadata_standalone_inv in H as [(e & _ & ->) | (row & _ & _ & ->)];
      [apply grows_refl|].
    unfold grows. simpl. rewrite dom_insert_L.
    split; [set_solver|]. repeat split; try done. by eexists.
  - intros p aid thumb w o w' H.
    apply save_photo_metadata_junction_inv in H as [(e & _ & -> & _) | (row & _ & _ & ->)];
      [apply grows_refl|].
    unfold grows. simpl. rewrite photos_insert_or_ignore_link. simpl. rewrite dom_insert_L.
    split; [set_solver|]. split; [|split; [done|]].
    + intros k Hk. by apply insert_or_ignore_link_mono.
    + eexists. by rewrite <- app_assoc.
Qed.

(** The lines that report a photo or an album the sweep gave up on. *)
Definition is_item_error (e : event) : bool :=
  match e with
  | EvPrint (MsgPhotoError _) | EvPrint (MsgAlbumError _ _) => true
  | _ => false
  end.

(** Nothing of the kind was printed so far. *)
Definition clean (w : world) : Prop :=
  Forall (fun e => is_item_error e = false) (trace w).

Lemma grows_clean w w' : grows w w' → clean w' → clean w.
Proof.
  intros (_ & _ & _ & evs & Ht). unfold clean. rewrite Ht, Forall_app. by intros [H _].
Qed.

Lemma grows_stored w w' pid :
  grows w w' → pid ∈ dom (photos (db w)) → pid ∈ dom (photos (db w')).
Proof. intros (Hp & _). set_solver. Qed.

Lemma grows_linked w w' pid aid :
  grows w w' → has_link pid aid (db w) = true → has_link pid aid (db w') = true.
Proof. intros (_ & Hl & _). rewrite !has_link_spec. apply Hl. Qed.

Lemma not_clean_after evs w e :
  is_item_error e = true → ¬ clean (with_events (evs ++ [e]) w).
Proof.
  intros He Hc. unfold clean in Hc. simpl in Hc.
  rewrite !Forall_app, Forall_singleton in Hc. destruct Hc as (_ & _ & Hc). congruence.
Qed.

Lemma index_is_stored_same w w' :
  photos (db w') = photos (db w) → self w' = self w →
  index_is_stored w → index_is_stored w'.
Proof. unfold index_is_stored. by intros -> ->. Qed.

Lemma print_Some m w o w' :
  print m w = Some (o, w') → o = Ok tt ∧ w' = with_events [EvPrint m] w.
Proof. by intros [= <- <-]. Qed.

Lemma photostream_pages_from_Ok flickr fuel page all_photos evs o evs' :
  photostream_pages_from flickr fuel page all_photos evs = Some (o, evs') →
  ∃ photos, o = Ok photos.
Proof.
  revert page all_photos evs. induction fuel as [|fuel IH]; intros page all evs; simpl; [done|].
  destruct (people_getPhotos flickr page) as [what|message|result];
    [intros [= <- _]; eauto | intros [= <- _]; eauto |].
  destruct (page_items result) as [|p ps]; [intros [= <- _]; eauto|].
  destruct (py_int (page_total result)); [intros [= <- _]; eauto|].
  destruct (py_int (page_pages result)); [intros [= <- _]; eauto|].
  destruct (_ <=? page); [intros [= <- _]; eauto|]. apply IH.
Qed.

(** The photostream sweep of a run that gave up on nothing: every photo it
    went through is stored. *)
Lemma update_photostream_loop_clean flickr ps :
  detail_matches flickr →
  ∀ i n w o w',
    update_photostream_loop flickr i n ps w = Some (o, w') →
    clean w' → index_is_stored w →
    index_is_stored w' ∧ ∀ p, p ∈ ps → photo_id p ∈ dom (photos (db w')).
Proof.
  intros Hm. induction ps as [|p ps IH]; intros i n w o w' H Hc Hst; simpl in H.
  { injection H as <- <-. split; [done|]. intros p Hp. by apply elem_of_nil in Hp. }
  apply bind_Some in H as [(a & w1 & H1 & H2) | (e & H1 & ->)].
  - assert (grows w1 w') as Hg
      by apply (stable_update_photostream_loop grows flickr _ _ _ grows_stable _ _ _ H2).
    assert (clean w1) as Hc1 by (by eapply grows_clean).
    apply try_except_Some in H1 as [(a' & H1 & _) | (e & w0 & H1 & H1')].
    + apply bind_Ok in H1 as (b & w0 & Hd & Hp).
      destruct (download_photostream_photo_post _ _ _ _ _ Hm Hd) as [_ Hpost].
      destruct (Hpost b eq_refl Hst) as [Hst0 Hin0].
      assert (db w1 = db w0 ∧ self w1 = self w0) as [Hdb Hself]
        by (cbv beta in Hp;
            match type of Hp with (if ?c then _ else _) _ = _ => destruct c end;
            cbv beta iota delta [ret print emit] in Hp; by injection Hp as _ <-).
      assert (index_is_stored w1) as Hst1
        by (apply (index_is_stored_same w0); [by rewrite Hdb | done | done]).
      destruct (IH _ _ _ _ _ H2 Hc Hst1) as [Hst' Hall]. split; [done|].
      intros q Hq. apply elem_of_cons in Hq as [->|Hq]; [|by apply Hall].
      apply (grows_stored w1 w'); [done|]. by rewrite Hdb.
    + apply print_Some in H1' as [_ ->]. exfalso.
      by apply (not_clean_after [] w0 (EvPrint (MsgPhotoError e))).
  - apply try_except_Some in H1 as [(a' & _ & [=]) | (e' & w0 & _ & H1')].
    by apply print_Some in H1' as [[=] _].
Qed.

Lemma update_photostream_clean flickr fuel w w' :
  detail_matches flickr →
  update_photostream flickr fuel w = Some (Ok tt, w') →
  clean w' → index_is_stored w →
  index_is_stored w' ∧
  ∃ listed evs,
    photostream_pages_from flickr fuel 1 [] [] = Some (Ok (Photo <$> listed), evs) ∧
    ∀ p, p ∈ listed → photo_id p ∈ dom (photos (db w')).
Proof.
  intros Hm H Hc Hst. unfold update_photostream in H.
  apply bind_Ok in H as ([] & w1 & H1 & H). apply print_Some in H1 as [_ ->].
  apply bind_Ok in H as (new_photos & w2 & H2 & H).
  rewrite get_recent_photostream_photos_run in H2.
  destruct (photostream_pages_from flickr fuel 1 [] []) as [[[all_photos|e'] evs]|] eqn:E;
    [|done|done].
  simpl in H2.
  destruct (new_photos_of (self w) all_photos) as [e|new_photos'] eqn:En; [done|].
  apply new_photos_of_inr in En as (listed & -> & ->).
  injection H2 as <- <-.
  set (w2 := with_events _ _) in H.
  assert (index_is_stored w2) as Hst2 by done.
  assert (index_is_stored w' ∧
          ∀ p, p ∈ filter (fun p => photo_id p ∉ existing_photo_ids (self w)) listed →
               photo_id p ∈ dom (photos (db w'))) as [Hst' Hnew].
  { destruct (filter _ listed) as [|q qs] eqn:Ef.
    - apply print_Some in H as [_ ->]. split; [done|].
      intros p Hp. by apply elem_of_nil in Hp.
    - apply bind_Some in H as [(a' & w3 & H3 & H) | (e & H3 & _)];
        [|by apply print_Some in H3 as [[=] _]].
      apply print_Some in H3 as [_ ->].
      by apply (update_photostream_loop_clean flickr (q :: qs) Hm _ _ _ _ _ H). }
  split; [done|]. exists listed, evs. split; [done|].
  intros p Hp.
  destruct (decide (photo_id p ∈ existing_photo_ids (self w))) as [Hk|Hk].
  - assert (grows w w') as Hg.
    { apply (grows_trans w w2).
      { eapply (grows_same w w2); [done|done|].
        subst w2. simpl. rewrite <- app_assoc. reflexivity. }
      destruct (filter _ listed) as [|q qs].
      - apply print_Some in H as [_ ->]. by apply (grows_same _ _ [EvPrint MsgNoNewPhotos]).
      - apply bind_Some in H as [(a' & w3 & H3 & H) | (e & H3 & _)];
          [|by apply print_Some in H3 as [[=] _]].
        apply print_Some in H3 as [_ ->].
        eapply grows_trans;
          [|apply (stable_update_photostream_loop grows flickr _ _ _ grows_stable _ _ _ H)].
        by eapply grows_same. }
    apply (grows_stored w w'); [done|]. by apply Hst.
  - apply Hnew. by apply list_elem_of_filter.
Qed.

(** The title [update_albums] reads off an album, or what it raises. *)
Definition album_title_of (a : album) : exn + pyval :=
  match album_title a with
  | None => inl (KeyError "title")
  | Some (PyDict d) =>
      match entries_get "_content" d with
      | Some v => inr v
      | None => inl (KeyError "_content")
      end
  | Some v => inr (PyStr (py_str v))
  end.

Lemma album_title_value_run a : album_title_value a = of_sum (album_title_of a).
Proof.
  unfold album_title_value, album_title_of.
  destruct (album_title a) as [[| | | | |d]|]; try done.
  by destruct (entries_get "_content" d).
Qed.

Lemma save_album_metadata_Ok aid title description n w w' :
  save_album_metadata aid title description n w = Some (Ok tt, w') →
  (∃ text, bind_text title = inr text) ∧
  photos (db w') = photos (db w) ∧ photo_albums (db w') = photo_albums (db w) ∧
  self w' = self w.
Proof.
  unfold save_album_metadata, bind. simpl.
  destruct (bind_text title) as [e|title']; simpl; [done|].
  destruct (bind_text description) as [e|description']; simpl; [done|].
  intros [= <-]. eauto.
Qed.

Lemma has_link_same d d' pid aid :
  photo_albums d' = photo_albums d → has_link pid aid d' = has_link pid aid d.
Proof. unfold has_link. by intros ->. Qed.

(** An album the run has been through: its title was read and could be
    stored, its photos were listed, and each of them is stored and linked
    with the album in storage [d]. *)
Definition settled_album (flickr : remote) (fuel : nat) (d : database) (a : album) : Prop :=
  ∃ title text listed evs,
    album_title_of a = inr title ∧ bind_text title = inr text ∧
    get_album_photos_from flickr fuel (album_id a) 1 [] [] = Some (Ok listed, evs) ∧
    ∀ p, p ∈ listed →
      photo_id p ∈ dom (photos d) ∧ has_link (photo_id p) (album_id a) d = true.

Lemma settled_album_grows flickr fuel w w' a :
  grows w w' → settled_album flickr fuel (db w) a → settled_album flickr fuel (db w') a.
Proof.
  intros Hg (title & text & listed & evs & Ht & Hb & Hl & Hall).
  exists title, text, listed, evs. repeat (split; [done|]).
  intros p Hp. destruct (Hall p Hp) as [H1 H2].
  split; [by apply (grows_stored w w') | by apply (grows_linked w w')].
Qed.

Lemma download_album_photos_Ok flickr ps aid title :
  detail_matches flickr →
  ∀ n w m w',
    download_album_photos flickr ps aid title n w = Some (Ok m, w') →
    index_is_stored w →
    index_is_stored w' ∧
    ∀ p, p ∈ ps →
      photo_id p ∈ dom (photos (db w')) ∧ has_link (photo_id p) aid (db w') = true.
Proof.
  intros Hm. induction ps as [|p ps IH]; intros n w m w' H Hst; simpl in H.
  { injection H as <- <-. split; [done|]. intros p Hp. by apply elem_of_nil in Hp. }
  apply bind_Ok in H as (b & w1 & Hd & H).
  destruct (download_album_photo_post _ _ _ _ _ _ _ Hm Hd) as [_ Hpost].
  destruct (Hpost b eq_refl Hst) as (Hst1 & Hin & Hl).
  assert (grows w1 w') as Hg
    by apply (stable_download_album_photos grows flickr _ _ _ _ grows_stable _ _ _ H).
  destruct (IH _ _ _ _ H Hst1) as [Hst' Hall]. split; [done|].
  intros q Hq. apply elem_of_cons in Hq as [->|Hq]; [|by apply Hall].
  split; [by apply (grows_stored w1 w') | by apply (grows_linked w1 w')].
Qed.

Lemma update_album_incremental_Ok flickr fuel a title w w' :
  detail_matches flickr →
  album_title_of a = inr title →
  update_album_incremental flickr fuel (album_id a) title w = Some (Ok tt, w') →
  index_is_stored w →
  index_is_stored w' ∧ settled_album flickr fuel (db w') a.
Proof.
  intros Hm Ht H Hst. unfold update_album_incremental in H.
  apply bind_Ok in H as ([] & w1 & H1 & H). apply print_Some in H1 as [_ ->].
  apply bind_Ok in H as (listed & w2 & H2 & H).
  unfold get_album_photos, replay in H2.
  destruct (get_album_photos_from flickr fuel (album_id a) 1 [] [])
    as [[o evs]|] eqn:El; [|done].
  injection H2 as -> <-.
  apply bind_Ok in H as ([] & w3 & H3 & H). apply print_Some in H3 as [_ ->].
  apply bind_Ok in H as ([] & w4 & H4 & H).
  apply save_album_metadata_Ok in H4 as ((text & Hb) & Hp4 & Hl4 & Hs4).
  apply bind_Ok in H as (m & w5 & H5 & H).
  assert (index_is_stored w4) as Hst4 by (by apply (index_is_stored_same w)).
  destruct (download_album_photos_Ok _ _ _ _ Hm _ _ _ _ H5 Hst4) as [Hst5 Hall].
  assert (db w' = db w5 ∧ self w' = self w5) as [Hdb Hself]
    by (destruct (0 <? m)%nat; apply print_Some in H as [_ ->]; done).
  split; [apply (index_is_stored_same w5); [by rewrite Hdb | done | done]|].
  exists title, text, listed, evs. repeat (split; [done|]). by rewrite Hdb.
Qed.

(** The album sweeps of a run that gave up on nothing: every album is
    settled at the end. *)
Lemma update_albums_loop_clean flickr fuel als :
  detail_matches flickr →
  ∀ i n w w',
    update_albums_loop flickr fuel i n als w = Some (Ok tt, w') →
    clean w' → index_is_stored w →
    index_is_stored w' ∧ ∀ a, a ∈ als → settled_album flickr fuel (db w') a.
Proof.
  intros Hm. induction als as [|a als IH]; intros i n w w' H Hc Hst; simpl in H.
  { injection H as <-. split; [done|]. intros a Ha. by apply elem_of_nil in Ha. }
  apply bind_Ok in H as (title & w1 & H1 & H).
  rewrite album_title_value_run in H1.
  apply of_sum_Some in H1 as [-> [(e & _ & [=]) | (t' & Ht & [= <-])]].
  apply bind_Ok in H as ([] & w2 & H2 & H). apply print_Some in H2 as [_ ->].
  apply bind_Ok in H as ([] & w3 & H3 & H).
  assert (grows w3 w') as Hg
    by apply (stable_update_albums_loop grows flickr _ _ _ _ grows_stable _ _ _ H).
  assert (clean w3) as Hc3 by (by eapply grows_clean).
  apply try_except_Some in H3 as [(a' & H3 & _) | (e & w0 & H3 & H3')].
  - destruct a'.
    destruct (update_album_incremental_Ok _ _ _ _ _ _ Hm Ht H3) as [Hst3 Hset]; [done|].
    destruct (IH _ _ _ _ H Hc Hst3) as [Hst' Hall]. split; [done|].
    intros b Hb. apply elem_of_cons in Hb as [->|Hb]; [|by apply Hall].
    by apply (settled_album_grows flickr fuel w3 w').
  - apply print_Some in H3' as [_ ->]. exfalso.
    by apply (not_clean_after [] w0 (EvPrint (MsgAlbumError title e))).
Qed.

(** The albums [get_user_albums] lists are settled in storage [d] (when
    the listing raises, there is no album to go through). *)
Definition listed_albums_settled (flickr : remote) (fuel : nat) (d : database) : Prop :=
  match get_user_albums_from flickr fuel 1 [] [EvPrint MsgFetchingAlbums] with
  | Some (Ok als, _) => ∀ a, a ∈ als → settled_album flickr fuel d a
  | Some (Exn _, _) => True
  | None => False
  end.

Lemma update_albums_clean flickr fuel w w' :
  detail_matches flickr →
  update_albums flickr fuel w = Some (Ok tt, w') →
  clean w' → index_is_stored w →
  index_is_stored w' ∧ listed_albums_settled flickr fuel (db w').
Proof.
  intros Hm H Hc Hst. unfold update_albums in H. unfold listed_albums_settled.
  apply bind_Ok in H as ([] & w1 & H1 & H). apply print_Some in H1 as [_ ->].
  apply bind_Ok in H as (listed & w2 & H2 & H).
  apply try_except_Some in H2 as [(a' & H2 & [= ->]) | (e & w0 & H2 & H2')].
  - apply bind_Ok in H2 as (als & w3 & H3 & H2).
    unfold get_user_albums, replay in H3.
    destruct (get_user_albums_from flickr fuel 1 [] [EvPrint MsgFetchingAlbums])
      as [[o evs]|]; [|done].
    injection H3 as -> <-.
    apply bind_Ok in H2 as ([] & w4 & H4 & H2). apply print_Some in H4 as [_ ->].
    injection H2 as <- <-.
    by apply (update_albums_loop_clean flickr fuel als Hm _ _ _ _ H).
  - apply bind_Ok in H2' as ([] & w3 & H3 & H2'). apply print_Some in H3 as [_ ->].
    injection H2' as <- <-. injection H as <-.
    apply bind_Some in H2 as [(als & w3 & H3 & H2) | (e' & H3 & _)].
    + apply bind_Some in H2 as [(u & w4 & H4 & H2) | (e' & H4 & _)]; [done|].
      by apply print_Some in H4 as [[=] _].
    + unfold get_user_albums, replay in H3.
      destruct (get_user_albums_from flickr fuel 1 [] [EvPrint MsgFetchingAlbums])
        as [[o evs]|]; [|done].
      injection H3 as -> <-. split; [|done].
      by apply (index_is_stored_same w).
Qed.

(** Nothing new: the index, the two counters of new items, the photo rows
    and the links are as before. *)
Definition idle (w w' : world) : Prop :=
  existing_photo_ids (self w') = existing_photo_ids (self w) ∧
  new_photos_count (self w') = new_photos_count (self w) ∧
  new_associations_count (self w') = new_associations_count (self w) ∧
  photos (db w') = photos (db w) ∧
  photo_albums (db w') = photo_albums (db w).

Lemma idle_refl w : idle w w.
Proof. by repeat split. Qed.

Lemma idle_trans w1 w2 w3 : idle w1 w2 → idle w2 w3 → idle w1 w3.
Proof.
  intros (H1 & H2 & H3 & H4 & H5) (H1' & H2' & H3' & H4' & H5').
  repeat split; congruence.
Qed.

Lemma bind_run {A B} (m : M A) (f : A → M B) w a w1 :
  m w = Some (Ok a, w1) → bind m f w = f a w1.
Proof. unfold bind. by intros ->. Qed.

Lemma try_except_run {A} (m : M A) (h : exn → M A) w a w1 :
  m w = Some (Ok a, w1) → try_except m h w = Some (Ok a, w1).
Proof. unfold try_except. by intros ->. Qed.

Lemma save_album_metadata_run aid title text n w :
  bind_text title = inr text →
  save_album_metadata aid title (PyStr "") n w =
  Some (Ok tt,
        after_commit (WrAlbum aid)
          (insert_or_replace_album aid
             {| alb_title := text; alb_description := Some "";
                alb_photo_count := Z.of_nat n;
                alb_created_date := clock w; alb_updated_date := S (clock w) |} (db w))
          (tick (tick w))).
Proof. intros H. unfold save_album_metadata, bind. simpl. by rewrite H. Qed.

Lemma download_album_photos_idle flickr aid title ps :
  ∀ n w,
    (∀ p, p ∈ ps → photo_id p ∈ existing_photo_ids (self w) ∧
                   has_link (photo_id p) aid (db w) = true) →
    ∃ w', download_album_photos flickr ps aid title n w = Some (Ok n, w') ∧ idle w w'.
Proof.
  induction ps as [|p ps IH]; intros n w Hall; simpl.
  { exists w. split; [done | apply idle_refl]. }
  destruct (Hall p) as [Hk Hl]; [by left|].
  erewrite bind_run; [|by apply download_album_photo_linked].
  destruct (IH n (map_self u_skipped w)) as (w' & Heq & Hid).
  { intros q Hq. apply Hall. by right. }
  exists w'. split; [done|]. eapply idle_trans; [|exact Hid]. by repeat split.
Qed.

Lemma update_album_incremental_idle flickr fuel a title w :
  settled_album flickr fuel (db w) a →
  index_covers_storage w →
  album_title_of a = inr title →
  ∃ w', update_album_incremental flickr fuel (album_id a) title w = Some (Ok tt, w') ∧
        idle w w'.
Proof.
  intros (title0 & text & listed & evs & Ht0 & Hb & Hl & Hall) Hcov Ht.
  assert (title0 = title) as -> by congruence.
  unfold update_album_incremental.
  erewrite bind_run; [|reflexivity].
  erewrite bind_run; [|unfold get_album_photos, replay; rewrite Hl; reflexivity].
  erewrite bind_run; [|reflexivity].
  erewrite bind_run; [|by apply save_album_metadata_run].
  match goal with
  | |- ∃ w', bind (download_album_photos _ _ _ _ _) _ ?w0 = _ ∧ _ =>
      destruct (download_album_photos_idle flickr (album_id a) title listed 0%nat w0)
        as (w5 & Heq & Hid)
  end.
  { intros p Hp. destruct (Hall p Hp) as [Hin Hlink]. simpl. split; [by apply Hcov | done]. }
  erewrite bind_run; [|exact Heq]. simpl.
  eexists. split; [reflexivity|].
  eapply idle_trans; [|eapply idle_trans; [exact Hid|]]; by repeat split.
Qed.

Lemma settled_album_idle flickr fuel w w' a :
  idle w w' → settled_album flickr fuel (db w) a → settled_album flickr fuel (db w') a.
Proof.
  intros (_ & _ & _ & Hp & Hl) (title & text & listed & evs & Ht & Hb & Hg & Hall).
  exists title, text, listed, evs. repeat (split; [done|]).
  intros p Hin. rewrite Hp, (has_link_same (db w) (db w')) by done. by apply Hall.
Qed.

Lemma index_covers_storage_idle w w' :
  idle w w' → index_covers_storage w → index_covers_storage w'.
Proof. unfold index_covers_storage. intros (-> & _ & _ & -> & _). done. Qed.

Lemma update_albums_loop_idle flickr fuel als :
  ∀ i n w,
    (∀ a, a ∈ als → settled_album flickr fuel (db w) a) →
    index_covers_storage w →
    ∃ w', update_albums_loop flickr fuel i n als w = Some (Ok tt, w') ∧ idle w w'.
Proof.
  induction als as [|a als IH]; intros i n w Hall Hcov; simpl.
  { exists w. split; [done | apply idle_refl]. }
  assert (settled_album flickr fuel (db w) a) as Hset by (apply Hall; by left).
  pose proof Hset as (title & _ & _ & _ & Ht & _).
  rewrite album_title_value_run.
  erewrite bind_run; [|rewrite Ht; reflexivity].
  erewrite bind_run; [|reflexivity].
  match goal with
  | |- ∃ w', bind (try_except (update_album_incremental _ _ _ _) _) _ ?w0 = _ ∧ _ =>
      destruct (update_album_incremental_idle flickr fuel a title w0)
        as (w3 & Heq & Hid); [done | done | done |]
  end.
  erewrite bind_run; [|by apply try_except_run].
  destruct (IH (S i) n w3) as (w' & Heq' & Hid').
  { intros b Hb. apply (settled_album_idle flickr fuel w w3); [|apply Hall; by right].
    eapply idle_trans; [|exact Hid]. by repeat split. }
  { apply (index_covers_storage_idle w w3); [|done].
    eapply idle_trans; [|exact Hid]. by repeat split. }
  exists w'. split; [done|].
  eapply idle_trans; [|exact Hid']. eapply idle_trans; [|exact Hid]. by repeat split.
Qed.

Lemma filter_all_known (X : gset string) (l : list photo) :
  (∀ p, p ∈ l → photo_id p ∈ X) → filter (fun p => photo_id p ∉ X) l = [].
Proof.
  induction l as [|p l IH]; intros H; [done|].
  rewrite filter_cons_False; [|intros Hn; apply Hn, H; by left].
  apply IH. intros q Hq. apply H. by right.
Qed.

Lemma update_photostream_idle flickr fuel w listed evs :
  photostream_pages_from flickr fuel 1 [] [] = Some (Ok (Photo <$> listed), evs) →
  (∀ p, p ∈ listed → photo_id p ∈ existing_photo_ids (self w)) →
  ∃ w', update_photostream flickr fuel w = Some (Ok tt, w') ∧ idle w w'.
Proof.
  intros Hl Hall. unfold update_photostream.
  erewrite bind_run; [|reflexivity].
  erewrite bind_run;
    [|rewrite get_recent_photostream_photos_run, Hl, new_photos_of_photos; reflexivity].
  simpl. rewrite filter_all_known by done.
  eexists. split; [reflexivity|]. by repeat split.
Qed.

Lemma update_albums_idle flickr fuel w :
  listed_albums_settled flickr fuel (db w) →
  index_covers_storage w →
  ∃ w', update_albums flickr fuel w = Some (Ok tt, w') ∧ idle w w'.
Proof.
  unfold listed_albums_settled, update_albums. intros Hset Hcov.
  erewrite bind_run; [|reflexivity].
  unfold get_user_albums, replay, try_except, bind at 2.
  destruct (get_user_albums_from flickr fuel 1 [] [EvPrint MsgFetchingAlbums])
    as [[[als|e] evs]|]; [| |done].
  - simpl.
    match goal with
    | |- ∃ w', bind _ _ ?w0 = _ ∧ _ =>
        destruct (update_albums_loop_idle flickr fuel als 1%nat (length als)
                    (with_events [EvPrint (MsgFoundAlbums (length als))]
                       (with_events evs (with_events [EvPrint MsgAlbumsBanner] w))))
          as (w' & Heq & Hid); [done | done |]
    end.
    exists w'. split; [|eapply idle_trans; [|exact Hid]; by repeat split].
    unfold bind. simpl. exact Heq.
  - simpl. eexists. split; [reflexivity|]. by repeat split.
Qed.

Lemma listed_albums_settled_same flickr fuel d d' :
  photos d' = photos d → photo_albums d' = photo_albums d →
  listed_albums_settled flickr fuel d → listed_albums_settled flickr fuel d'.
Proof.
  unfold listed_albums_settled. intros Hp Hl.
  destruct (get_user_albums_from _ _ _ _ _) as [[[als|e] evs]|]; [|done|done].
  intros H a Ha. destruct (H a Ha) as (title & text & listed & evs' & Ht & Hb & Hg & Hall).
  exists title, text, listed, evs'. repeat (split; [done|]).
  intros p Hin. rewrite Hp, (has_link_same d d') by done. by apply Hall.
Qed.

Lemma start_index_is_stored d t : index_is_stored (start d t).
Proof. unfold index_is_stored, start, get_existing_photo_ids. simpl. done. Qed.

(** What a run that gave up on nothing leaves in storage. *)
Lemma comprehensive_update_clean flickr fuel d t w1 :
  detail_matches flickr →
  comprehensive_update flickr fuel (start d t) = Some (Ok tt, w1) →
  clean w1 →
  (∃ listed evs,
     photostream_pages_from flickr fuel 1 [] [] = Some (Ok (Photo <$> listed), evs) ∧
     ∀ p, p ∈ listed → photo_id p ∈ dom (photos (db w1))) ∧
  listed_albums_settled flickr fuel (db w1).
Proof.
  intros Hm H Hc. unfold comprehensive_update in H.
  apply bind_Ok in H as ([] & wa & Ha & H). apply print_Some in Ha as [_ ->].
  apply bind_Ok in H as (t0 & wb & Hb & H). injection Hb as <- <-.
  apply bind_Ok in H as ([] & wc & Hps & H).
  apply bind_Ok in H as ([] & wd & Hal & H).
  apply bind_Ok in H as (t1 & we & He & H). injection He as <- <-.
  apply bind_Ok in H as (u & wf & Hf & H). injection Hf as <- <-.
  apply bind_Ok in H as ([] & wg & Hg & H). apply print_Some in Hg as [_ ->].
  assert (db w1 = db wd ∧ ∃ evs, trace w1 = trace wd ++ evs) as [Hdb [evs1 Ht1]].
  { match type of H with (if ?c then _ else _) _ = _ => destruct c end;
      apply print_Some in H as [_ ->]; simpl; (split; [done|]);
      eexists; by rewrite <- app_assoc. }
  assert (clean wd) as Hcd.
  { unfold clean in *. rewrite Ht1, Forall_app in Hc. by destruct Hc. }
  assert (grows wc wd) as Hgd
    by apply (stable_update_albums grows flickr fuel grows_stable _ _ _ Hal).
  assert (clean wc) as Hcc by (by eapply grows_clean).
  destruct (update_photostream_clean flickr fuel _ _ Hm Hps Hcc)
    as (Hstc & listed & evs & Hl & Hall).
  { apply (index_is_stored_same (start d t)); [done | done | apply start_index_is_stored]. }
  destruct (update_albums_clean flickr fuel _ _ Hm Hal Hcd Hstc) as [Hstd Hset].
  split.
  - exists listed, evs. split; [done|]. intros p Hp. rewrite Hdb.
    apply (grows_stored wc wd); [done|]. by apply Hall.
  - by apply (listed_albums_settled_same flickr fuel (db wd)); [rewrite Hdb..|].
Qed.

(** X1 (the idempotence of C3, with its conditions). When the detail the
    service returns for a photo carries that photo's id, and a first full
    sync returned without having printed an error for a photo or for an
    album, a second full sync against the same collection (the same answers
    of the service) returns as well, with [new_photos_count] and
    [new_associations_count] at zero. *)
Theorem second_sync_finds_nothing flickr fuel d t w1 t' :
  detail_matches flickr →
  comprehensive_update flickr fuel (start d t) = Some (Ok tt, w1) →
  clean w1 →
  ∃ w2,
    comprehensive_update flickr fuel (start (db w1) t') = Some (Ok tt, w2) ∧
    new_photos_count (self w2) = 0%nat ∧
    new_associations_count (self w2) = 0%nat.
Proof.
  intros Hm H Hc.
  destruct (comprehensive_update_clean flickr fuel d t w1 Hm H Hc)
    as ((listed & evs & Hl & Hall) & Hset).
  unfold comprehensive_update.
  erewrite bind_run; [|reflexivity].
  erewrite bind_run; [|reflexivity].
  match goal with
  | |- ∃ w2, bind (update_photostream _ _) _ ?w0 = _ ∧ _ =>
      destruct (update_photostream_idle flickr fuel w0 listed evs Hl) as (wc & Hps & Hidc);
        [exact Hall|]
  end.
  erewrite bind_run; [|exact Hps].
  destruct (update_albums_idle flickr fuel wc) as (wd & Hal & Hidd).
  { destruct Hidc as (_ & _ & _ & Hp & Hk).
    by apply (listed_albums_settled_same flickr fuel (db w1)). }
  { apply (index_covers_storage_idle (start (db w1) t')); [|apply start_index_covers_storage].
    eapply idle_trans; [|exact Hidc]. by repeat split. }
  erewrite bind_run; [|exact Hal].
  erewrite bind_run; [|reflexivity].
  erewrite bind_run; [|reflexivity].
  erewrite bind_run; [|reflexivity].
  destruct Hidc as (_ & Hn & Ha & _). destruct Hidd as (_ & Hn' & Ha' & _).
  simpl in Hn, Ha.
  assert (new_photos_count (self wd) = 0%nat) as Hn0 by congruence.
  assert (new_associations_count (self wd) = 0%nat) as Ha0 by congruence.
  simpl. rewrite Hn0, Ha0. simpl.
  eexists. split; [reflexivity|]. by simpl.
Qed.

Lemma clean_forallb w :
  forallb (fun e => negb (is_item_error e)) (trace w) = true → clean w.
Proof.
  unfold clean. rewrite forallb_forall, Forall_forall. intros H e He.
  apply list_elem_of_In, H in He. by destruct (is_item_error e).
Qed.

(** Two runs over the demo collection: the second finds nothing new. *)
Lemma second_sync_finds_nothing_witness :
  detail_matches Demo.flickr ∧
  ∃ w1,
    comprehensive_update Demo.flickr 3 (start empty_database 0) = Some (Ok tt, w1) ∧
    clean w1 ∧
    ∃ w2,
      comprehensive_update Demo.flickr 3 (start (db w1) 100) = Some (Ok tt, w2) ∧
      new_photos_count (self w2) = 0%nat ∧
      new_associations_count (self w2) = 0%nat.
Proof.
  split; [exact demo_detail_matches|].
  assert (fst <$> comprehensive_update Demo.flickr 3 (start empty_database 0)
          = Some (Ok tt)) as H1 by (vm_compute; reflexivity).
  assert ((fun r => forallb (fun e => negb (is_item_error e)) (trace (snd r)))
            <$> comprehensive_update Demo.flickr 3 (start empty_database 0)
          = Some true) as H2 by (vm_compute; reflexivity).
  destruct (comprehensive_update Demo.flickr 3 (start empty_database 0))
    as [[o w1]|] eqn:E; [|discriminate].
  cbn [fmap option_fmap option_map fst snd] in H1, H2.
  injection H1 as ->. injection H2 as H2.
  exists w1. split; [reflexivity|].
  pose proof (clean_forallb w1 H2) as Hc. split; [exact Hc|].
  exact (second_sync_finds_nothing Demo.flickr 3 empty_database 0 w1 100
           demo_detail_matches E Hc).
Defined.

(** The world a run leaves, [w] when it does not return. *)
Definition world_of {A} (r : option (outcome A * world)) (w : world) : world :=
  match r with
  | Some (_, w') => w'
  | None => w
  end.

(** Why the first run has to be free of errors. Album "Trip" lists [p5],
    whose [views] is no integer: the first run counts [p5] as a new photo,
    then fails to save it and gives the album up; the second run, against
    the same collection, does the same and ends with [new_photos_count]
    at 1. *)
Lemma second_sync_after_error :
  ∃ w1 w2,
    comprehensive_update Demo.odd 3 (start empty_database 0) = Some (Ok tt, w1) ∧
    error_lines (trace w1) = [MsgAlbumError (PyStr "Trip") ValueError] ∧
    comprehensive_update Demo.odd 3 (start (db w1) (clock w1)) = Some (Ok tt, w2) ∧
    new_photos_count (self w2) = 1%nat.
Proof.
  pose (w0 := start empty_database 0).
  pose (w1 := world_of (comprehensive_update Demo.odd 3 w0) w0).
  pose (w2 := world_of (comprehensive_update Demo.odd 3 (start (db w1) (clock w1))) w0).
  exists w1, w2.
  split; [vm_compute; reflexivity|].
  split; [vm_compute; reflexivity|].
  split; [vm_compute; reflexivity|].
  vm_compute; reflexivity.
Qed.

(** The second run, step by step: it returns, and leaves the index, the
    counters of new items, the photo rows and the links as it found them. *)
Lemma second_sync_idle flickr fuel d t w1 t' :
  detail_matches flickr →
  comprehensive_update flickr fuel (start d t) = Some (Ok tt, w1) →
  clean w1 →
  ∃ w2,
    comprehensive_update flickr fuel (start (db w1) t') = Some (Ok tt, w2) ∧
    idle (start (db w1) t') w2.
Proof.
  intros Hm H Hc.
  destruct (comprehensive_update_clean flickr fuel d t w1 Hm H Hc)
    as ((listed & evs & Hl & Hall) & Hset).
  unfold comprehensive_update.
  erewrite bind_run; [|reflexivity].
  erewrite bind_run; [|reflexivity].
  match goal with
  | |- ∃ w2, bind (update_photostream _ _) _ ?w0 = _ ∧ _ =>
      destruct (update_photostream_idle flickr fuel w0 listed evs Hl) as (wc & Hps & Hidc);
        [exact Hall|]
  end.
  erewrite bind_run; [|exact Hps].
  destruct (update_albums_idle flickr fuel wc) as (wd & Hal & Hidd).
  { destruct Hidc as (_ & _ & _ & Hp & Hk).
    by apply (listed_albums_settled_same flickr fuel (db w1)). }
  { apply (index_covers_storage_idle (start (db w1) t')); [|apply start_index_covers_storage].
    eapply idle_trans; [|exact Hidc]. by repeat split. }
  erewrite bind_run; [|exact Hal].
  erewrite bind_run; [|reflexivity].
  erewrite bind_run; [|reflexivity].
  erewrite bind_run; [|reflexivity].
  assert (idle (start (db w1) t') wd) as Hid.
  { eapply idle_trans; [|exact Hidd]. eapply idle_trans; [|exact Hidc]. by repeat split. }
  match goal with
  | |- ∃ w2, (if ?c then _ else _) _ = _ ∧ _ => destruct c
  end; (eexists; split; [reflexivity|]);
    (eapply idle_trans; [exact Hid|]); by repeat split.
Qed.

(** X2. Under the hypotheses of X1 the second full sync rewrites no photo
    row and adds no link: the table of photos (thumbnail paths included) and
    the table of links are, row for row, what the first run left, and the
    index is the set of the stored ids. *)
Theorem second_sync_rewrites_no_row flickr fuel d t w1 t' :
  detail_matches flickr →
  comprehensive_update flickr fuel (start d t) = Some (Ok tt, w1) →
  clean w1 →
  ∃ w2,
    comprehensive_update flickr fuel (start (db w1) t') = Some (Ok tt, w2) ∧
    photos (db w2) = photos (db w1) ∧
    photo_albums (db w2) = photo_albums (db w1) ∧
    existing_photo_ids (self w2) = dom (photos (db w2)).
Proof.
  intros Hm H Hc.
  destruct (second_sync_idle flickr fuel d t w1 t' Hm H Hc)
    as (w2 & Hrun & Hi & _ & _ & Hp & Hl).
  exists w2. split; [exact Hrun|]. split; [exact Hp|]. split; [exact Hl|].
  rewrite Hi, Hp. reflexivity.
Qed.

(** Two runs over the demo collection: the rows of the first are those of
    the second. *)
Lemma second_sync_rewrites_no_row_witness :
  detail_matches Demo.flickr ∧
  ∃ w1,
    comprehensive_update Demo.flickr 3 (start empty_database 0) = Some (Ok tt, w1) ∧
    clean w1 ∧
    ∃ w2,
      comprehensive_update Demo.flickr 3 (start (db w1) 100) = Some (Ok tt, w2) ∧
      photos (db w2) = photos (db w1) ∧
      photo_albums (db w2) = photo_albums (db w1) ∧
      existing_photo_ids (self w2) = dom (photos (db w2)).
Proof.
  split; [exact demo_detail_matches|].
  assert (fst <$> comprehensive_update Demo.flickr 3 (start empty_database 0)
          = Some (Ok tt)) as H1 by (vm_compute; reflexivity).
  assert ((fun r => forallb (fun e => negb (is_item_error e)) (trace (snd r)))
            <$> comprehensive_update Demo.flickr 3 (start empty_database 0)
          = Some true) as H2 by (vm_compute; reflexivity).
  destruct (comprehensive_update Demo.flickr 3 (start empty_database 0))
    as [[o w1]|] eqn:E; [|discriminate].
  cbn [fmap option_fmap option_map fst snd] in H1, H2.
  injection H1 as ->. injection H2 as H2.
  exists w1. split; [reflexivity|].
  pose proof (clean_forallb w1 H2) as Hc. split; [exact Hc|].
  exact (second_sync_rewrites_no_row Demo.flickr 3 empty_database 0 w1 100
           demo_detail_matches E Hc).
Defined.

(** ** What a run never takes away *)

(** The ids of the rows of [comments], in row order ([None] is [NULL]). *)
Definition comment_ids (d : database) : list (option string) :=
  com_id <$> comments d.

(** Rows of [albums] and of [comments] are only added or replaced. *)
Definition keeps_rows (w w' : world) : Prop :=
  dom (albums (db w)) ⊆ dom (albums (db w')) ∧
  ∀ i, i ∈ comment_ids (db w) → i ∈ comment_ids (db w').

Lemma keeps_rows_refl w : keeps_rows w w.
Proof. by split. Qed.

Lemma keeps_rows_trans w1 w2 w3 : keeps_rows w1 w2 → keeps_rows w2 w3 → keeps_rows w1 w3.
Proof. intros [Ha Hc] [Ha' Hc']. split; [set_solver | naive_solver]. Qed.

Lemma keeps_rows_same w w' :
  albums (db w') = albums (db w) → comments (db w') = comments (db w) → keeps_rows w w'.
Proof. unfold keeps_rows, comment_ids. by intros -> ->. Qed.

Lemma insert_or_replace_comment_ids c d i :
  i ∈ comment_ids d → i ∈ comment_ids (insert_or_replace_comment c d).
Proof.
  unfold comment_ids, insert_or_replace_comment. simpl.
  rewrite fmap_app, elem_of_app, !list_elem_of_fmap.
  intros (c' & -> & Hc').
  destruct (com_id c) as [j|] eqn:Ej; [destruct (com_id c') as [j'|] eqn:Ej'|].
  - destruct (String.eqb_spec j j') as [->|Hne].
    + right. exists c. split; [by rewrite Ej|]. by apply list_elem_of_singleton.
    + left. exists c'. split; [by rewrite Ej'|]. apply list_elem_of_filter. split; [|done].
      rewrite Ej'. by apply String.eqb_neq.
  - left. exists c'. split; [by rewrite Ej'|]. apply list_elem_of_filter. split; [|done].
    by rewrite Ej'.
  - left. exists c'. split; [done|]. by apply list_elem_of_filter.
Qed.

Lemma save_comments_rows_ids pid cs : ∀ d d' i,
  save_comments_rows pid cs d = inr d' → i ∈ comment_ids d → i ∈ comment_ids d'.
Proof.
  induction cs as [|c cs IH]; intros d d' i; simpl.
  - by intros [= <-].
  - destruct (comment_values pid c) as [e|row]; [done|].
    intros H Hi. eapply IH; [exact H|]. by apply insert_or_replace_comment_ids.
Qed.

(** [save_comments], with the rows it commits. *)
Lemma save_comments_rows_inv pid cs w o w' :
  save_comments pid cs w = Some (o, w') →
  (∃ e, o = Exn e ∧ w' = w) ∨ (o = Ok tt ∧ w' = w) ∨
  (∃ d', o = Ok tt ∧ save_comments_rows pid cs (db w) = inr d' ∧
     w' = after_commit (WrComments pid) d' w).
Proof.
  unfold save_comments. destruct cs as [|c cs]; [intros [= <- <-]; eauto|].
  unfold bind, read_db. cbv beta iota.
  destruct (save_comments_rows pid (c :: cs) (db w)) as [e|d'] eqn:E;
    cbv beta iota delta [of_sum raise ret commit]; intros [= <- <-]; [eauto|].
  right. right. by exists d'.
Qed.

Lemma keeps_rows_stable : stable keeps_rows.
Proof.
  constructor.
  - apply keeps_rows_refl.
  - apply keeps_rows_trans.
  - intros evs w _. by apply keeps_rows_same.
  - intros w o w' [= <- <-]. by apply keeps_rows_same.
  - intros pid w o w' [= <- <-]. by apply keeps_rows_same.
  - intros w o w' [= <- <-]. by apply keeps_rows_same.
  - intros w o w' [= <- <-]. by apply keeps_rows_same.
  - intros w o w' [= <- <-]. by apply keeps_rows_same.
  - intros w o w' [= <- <-]. by apply keeps_rows_same.
  - intros aid title description n w o w' H.
    apply save_album_metadata_inv in H as [(e & _ & ->) | (row & _ & ->)];
      [by apply keeps_rows_same|].
    split; [|done]. simpl. rewrite dom_insert_L. set_solver.
  - intros pid cs w o w' H.
    apply save_comments_rows_inv in H as [(e & _ & ->) | [(_ & ->) | (d' & _ & Hd & ->)]];
      try apply keeps_rows_refl.
    split; simpl.
    + by destruct (save_comments_rows_frame _ _ _ _ Hd) as (_ & -> & _).
    + intros i. by apply (save_comments_rows_ids pid cs).
  - intros p thumb w o w' H.
    apply save_photo_metadata_standalone_inv in H as [(e & _ & ->) | (row & _ & _ & ->)];
      by apply keeps_rows_same.
  - intros p aid thumb w o w' H.
    apply save_photo_metadata_junction_inv in H as [(e & _ & -> & _) | (row & _ & _ & ->)];
      [by apply keeps_rows_same|].
    apply keeps_rows_same; simpl; unfold insert_or_ignore_link; by destruct (has_link _ _ _).
Qed.

(** X3. A sync run deletes nothing: whatever its outcome, every photo
    row, album row, link and comment id that storage held before the run
    is there after it, and the index has lost no id. Photos and links
    removed at the service stay in storage. *)
Theorem sync_only_adds flickr fuel w o w' :
  comprehensive_update flickr fuel w = Some (o, w') →
  dom (photos (db w)) ⊆ dom (photos (db w')) ∧
  dom (albums (db w)) ⊆ dom (albums (db w')) ∧
  (∀ k, k ∈ link_keys (db w) → k ∈ link_keys (db w')) ∧
  (∀ i, i ∈ comment_ids (db w) → i ∈ comment_ids (db w')) ∧
  existing_photo_ids (self w) ⊆ existing_photo_ids (self w').
Proof.
  intros H.
  destruct (stable_comprehensive_update grows flickr fuel grows_stable _ _ _ H)
    as (Hp & Hl & Hi & _).
  destruct (stable_comprehensive_update keeps_rows flickr fuel keeps_rows_stable _ _ _ H)
    as (Ha & Hc).
  done.
Qed.

(** A run over storage that holds [p1] against a service that lists other
    photos and an album. *)
Lemma sync_only_adds_witness :
  ∃ o w', comprehensive_update Demo.flickr 3 (start Demo.stored_p1 0) = Some (o, w') ∧
    dom (photos Demo.stored_p1) ⊆ dom (photos (db w')) ∧
    existing_photo_ids (self (start Demo.stored_p1 0)) ⊆ existing_photo_ids (self w').
Proof.
  assert (fst <$> comprehensive_update Demo.flickr 3 (start Demo.stored_p1 0) = Some (Ok tt))
    as Hrun by (vm_compute; reflexivity).
  destruct (comprehensive_update Demo.flickr 3 (start Demo.stored_p1 0))
    as [[o w']|] eqn:E; [|discriminate].
  exists o, w'. split; [reflexivity|].
  destruct (sync_only_adds Demo.flickr 3 (start Demo.stored_p1 0) o w' E)
    as (Hp & _ & _ & _ & Hi).
  split; [exact Hp | exact Hi].
Defined.
(** ** The counters and the size of the index *)

(** Between two worlds the index grew by as many ids as [new_photos_count]
    went up, and [photostream_new_count] went up by no more. *)
Definition accounts (w w' : world) : Prop :=
  (size (existing_photo_ids (self w')) + new_photos_count (self w) =
   size (existing_photo_ids (self w)) + new_photos_count (self w'))%nat ∧
  (photostream_new_count (self w') + new_photos_count (self w) ≤
   photostream_new_count (self w) + new_photos_count (self w'))%nat.

Lemma accounts_same w w' : self w' = self w → accounts w w'.
Proof. unfold accounts. intros ->. lia. Qed.

Lemma accounts_trans w1 w2 w3 : accounts w1 w2 → accounts w2 w3 → accounts w1 w3.
Proof. unfold accounts. lia. Qed.

Lemma size_index_add (pid : string) (X : gset string) :
  pid ∉ X → size ({[pid]} ∪ X) = S (size X).
Proof. intros H. rewrite size_union by set_solver. by rewrite size_singleton. Qed.

Lemma save_photo_metadata_standalone_self p thumb w o w' :
  save_photo_metadata_standalone p thumb w = Some (o, w') → self w' = self w.
Proof.
  intros H.
  by apply save_photo_metadata_standalone_inv in H as [(e & _ & ->) | (row & _ & _ & ->)].
Qed.

Lemma save_photo_metadata_junction_self p aid thumb w o w' :
  save_photo_metadata_junction p aid thumb w = Some (o, w') → self w' = self w.
Proof.
  intros H.
  by apply save_photo_metadata_junction_inv in H as [(e & _ & -> & _) | (row & _ & _ & ->)].
Qed.

Lemma accounts_download_photostream_photo flickr p :
  respects accounts (download_photostream_photo flickr p).
Proof.
  intros w o w' H.
  destruct (decide (photo_id p ∈ existing_photo_ids (self w))) as [Hk|Hk].
  { rewrite download_photostream_photo_known in H by done. injection H as <- <-.
    by apply accounts_same. }
  rewrite download_photostream_photo_new in H by done.
  destruct (fetch_new_photo _ _ _) as [[[fetched|e] w1]|] eqn:Hf; [| |done].
  - destruct (fetch_new_photo_frame _ _ _ _ _ Hf) as (Hself & _).
    destruct (save_photo_metadata_standalone _ _ _) as [[[[]|e] w2]|] eqn:Hs; [| |done].
    + apply save_photo_metadata_standalone_self in Hs. injection H as <- <-.
      unfold accounts. simpl. rewrite Hs, Hself. simpl.
      rewrite size_index_add by done. lia.
    + apply save_photo_metadata_standalone_self in Hs. injection H as <- <-.
      apply accounts_same. by rewrite Hs, Hself.
  - injection H as <- <-. destruct (fetch_new_photo_frame _ _ _ _ _ Hf) as (Hself & _).
    by apply accounts_same.
Qed.

Lemma accounts_download_album_photo flickr p aid title :
  respects accounts (download_album_photo flickr p aid title).
Proof.
  intros w o w' H.
  destruct (decide (photo_id p ∈ existing_photo_ids (self w))) as [Hk|Hk].
  { destruct (has_link (photo_id p) aid (db w)) eqn:Hl.
    - rewrite download_album_photo_linked in H by done. injection H as <- <-.
      unfold accounts. simpl. lia.
    - rewrite download_album_photo_unlinked in H by done.
      destruct (save_photo_metadata_junction _ _ _ _) as [[[[]|e] w1]|] eqn:Hs; [| |done];
        apply save_photo_metadata_junction_self in Hs; injection H as <- <-;
        unfold accounts; simpl; rewrite Hs; simpl; lia. }
  rewrite download_album_photo_new in H by done.
  destruct (fetch_new_photo _ _ _) as [[[fetched|e] w1]|] eqn:Hf; [| |done].
  - destruct (fetch_new_photo_frame _ _ _ _ _ Hf) as (Hself & _).
    destruct (save_photo_metadata_junction _ _ _ _) as [[[[]|e] w2]|] eqn:Hs; [| |done];
      apply save_photo_metadata_junction_self in Hs; injection H as <- <-;
      unfold accounts; simpl; rewrite Hs; simpl; rewrite Hself; simpl;
      rewrite size_index_add by done; lia.
  - injection H as <- <-. destruct (fetch_new_photo_frame _ _ _ _ _ Hf) as (Hself & _).
    by apply accounts_same.
Qed.

Lemma accounts_comprehensive_update flickr fuel :
  respects accounts (comprehensive_update flickr fuel).
Proof.
  apply respects_comprehensive_update.
  - intros w. by apply accounts_same.
  - apply accounts_trans.
  - intros evs w _. by apply accounts_same.
  - intros w o w' [= <- <-]. by apply accounts_same.
  - intros aid title description n w o w' H.
    apply save_album_metadata_inv in H as [(e & _ & ->) | (row & _ & ->)];
      by apply accounts_same.
  - apply accounts_download_photostream_photo.
  - apply accounts_download_album_photo.
Qed.

(** X4. The figures of the summary add up. Whatever a run from a fresh
    updater over storage [d] does and however it ends, the index has grown
    by exactly [new_photos_count] ids ("Total photos in database" is the
    number of rows at the start plus "New photos downloaded"), and
    [photostream_new_count] never exceeds [new_photos_count] ("From albums"
    is never negative). *)
Theorem counters_account_for_index flickr fuel d t o w' :
  comprehensive_update flickr fuel (start d t) = Some (o, w') →
  size (existing_photo_ids (self w')) =
    (size (dom (photos d)) + new_photos_count (self w'))%nat ∧
  (photostream_new_count (self w') ≤ new_photos_count (self w'))%nat.
Proof.
  intros H. destruct (accounts_comprehensive_update flickr fuel _ _ _ H) as [H1 H2].
  simpl in H1, H2. unfold get_existing_photo_ids in H1. lia.
Qed.

(** A run over empty storage: three photos from the photostream. *)
Lemma counters_account_for_index_witness :
  ∃ o w', comprehensive_update Demo.flickr 3 (start empty_database 0) = Some (o, w') ∧
    size (existing_photo_ids (self w')) =
      (size (dom (photos empty_database)) + new_photos_count (self w'))%nat ∧
    (photostream_new_count (self w') ≤ new_photos_count (self w'))%nat.
Proof.
  assert (fst <$> comprehensive_update Demo.flickr 3 (start empty_database 0) = Some (Ok tt))
    as Hrun by (vm_compute; reflexivity).
  destruct (comprehensive_update Demo.flickr 3 (start empty_database 0))
    as [[o w']|] eqn:E; [|discriminate].
  exists o, w'. split; [reflexivity|].
  exact (counters_account_for_index Demo.flickr 3 empty_database 0 o w' E).
Defined.

(** ** What can escape the run *)

Lemma update_photostream_loop_Ok flickr ps : ∀ i n w o w',
  update_photostream_loop flickr i n ps w = Some (o, w') → o = Ok tt.
Proof.
  induction ps as [|p ps IH]; intros i n w o w' H; simpl in H.
  { by injection H as <- _. }
  apply bind_Some in H as [(a & w1 & H1 & H2) | (e & H1 & _)].
  - by eapply IH.
  - apply try_except_Some in H1 as [(a' & _ & [=]) | (e' & w0 & _ & H1')].
    by apply print_Some in H1' as [[=] _].
Qed.

(** What the photostream sweep raises comes from the comprehension that
    filters the listing: what goes wrong with a page or with a photo is
    printed. The sweep has then visited no photo. *)
Lemma update_photostream_Exn flickr fuel w e w' :
  update_photostream flickr fuel w = Some (Exn e, w') →
  ∃ all_photos evs,
    photostream_pages_from flickr fuel 1 [] [] = Some (Ok all_photos, evs) ∧
    new_photos_of (self w) all_photos = inl e ∧
    db w' = db w ∧ self w' = self w.
Proof.
  unfold update_photostream. intros H.
  apply bind_Some in H as [([] & w1 & H1 & H) | (e' & H1 & _)];
    [|by apply print_Some in H1 as [[=] _]].
  apply print_Some in H1 as [_ ->].
  apply bind_Some in H as [(ps & w2 & H2 & H) | (e' & H2 & [= <-])].
  - exfalso. destruct ps as [|p ps]; [by apply print_Some in H as [[=] _]|].
    apply bind_Some in H as [([] & w3 & H3 & H) | (e' & H3 & _)];
      [|by apply print_Some in H3 as [[=] _]].
    by apply update_photostream_loop_Ok in H.
  - rewrite get_recent_photostream_photos_run in H2.
    destruct (photostream_pages_from flickr fuel 1 [] []) as [[[all|e''] evs]|] eqn:E;
      [| |done].
    + destruct (new_photos_of _ all) as [e''|new_photos] eqn:En; [|done].
      injection H2 as <- <-. by exists all, evs.
    + by apply photostream_pages_from_Ok in E as (? & [=]).
Qed.

Lemma update_albums_loop_Exn flickr fuel als : ∀ i n w e w',
  update_albums_loop flickr fuel i n als w = Some (Exn e, w') →
  ∃ a, a ∈ als ∧ album_title_of a = inl e.
Proof.
  induction als as [|a als IH]; intros i n w e w' H; simpl in H; [done|].
  rewrite album_title_value_run in H.
  apply bind_Some in H as [(title & w1 & H1 & H) | (e' & H1 & [= <-])].
  - apply bind_Some in H as [([] & w2 & H2 & H) | (e' & H2 & _)];
      [|by apply print_Some in H2 as [[=] _]].
    apply bind_Some in H as [([] & w3 & H3 & H) | (e' & H3 & _)].
    + destruct (IH _ _ _ _ _ H) as (b & Hb & Ht). exists b. split; [by right | done].
    + apply try_except_Some in H3 as [(a' & _ & [=]) | (e'' & w0 & _ & H3')].
      by apply print_Some in H3' as [[=] _].
  - apply of_sum_Some in H1 as [_ [(e' & Ht & [= <-]) | (t' & _ & [=])]].
    exists a. split; [by left | done].
Qed.

Lemma update_albums_Exn flickr fuel w e w' :
  update_albums flickr fuel w = Some (Exn e, w') →
  ∃ als evs a,
    get_user_albums_from flickr fuel 1 [] [EvPrint MsgFetchingAlbums] = Some (Ok als, evs) ∧
    a ∈ als ∧ album_title_of a = inl e.
Proof.
  unfold update_albums. intros H.
  apply bind_Some in H as [([] & w1 & H1 & H) | (e' & H1 & _)];
    [|by apply print_Some in H1 as [[=] _]].
  apply bind_Some in H as [(listed & w2 & H2 & H) | (e' & H2 & _)].
  - destruct listed as [als|]; [|done].
    apply try_except_Some in H2 as [(a' & H2 & [= <-]) | (e' & w0 & _ & H2')].
    + apply bind_Ok in H2 as (als' & w3 & H3 & H2).
      apply bind_Ok in H2 as ([] & w4 & H4 & H2). injection H2 as -> _.
      unfold get_user_albums, replay in H3.
      destruct (get_user_albums_from flickr fuel 1 [] [EvPrint MsgFetchingAlbums])
        as [[o evs]|]; [|done].
      injection H3 as -> _.
      destruct (update_albums_loop_Exn _ _ _ _ _ _ _ _ H) as (a & Ha & Ht).
      by exists als, evs, a.
    + apply bind_Ok in H2' as ([] & w3 & _ & H2'). by injection H2'.
  - apply try_except_Some in H2 as [(a' & _ & [=]) | (e'' & w0 & _ & H2')].
    apply bind_Some in H2' as [([] & w3 & _ & H2') | (e3 & H3 & _)]; [done|].
    by apply print_Some in H3 as [[=] _].
Qed.

(** The photostream was listed and holds an object on which [photo['id']],
    or the hash of the id, raises [e]. *)
Definition unreadable_photo_id (flickr : remote) (fuel : nat) (e : exn) : Prop :=
  ∃ all_photos evs x,
    photostream_pages_from flickr fuel 1 [] [] = Some (Ok all_photos, evs) ∧
    x ∈ all_photos ∧ element_photo x = inl e.

(** The albums were listed and hold an album whose title lookup raises
    [e]. *)
Definition unreadable_album_title (flickr : remote) (fuel : nat) (e : exn) : Prop :=
  ∃ als evs a,
    get_user_albums_from flickr fuel 1 [] [EvPrint MsgFetchingAlbums] = Some (Ok als, evs) ∧
    a ∈ als ∧ album_title_of a = inl e.

Lemma comprehensive_update_Exn flickr fuel w e w' :
  comprehensive_update flickr fuel w = Some (Exn e, w') →
  (unreadable_photo_id flickr fuel e ∧ db w' = db w ∧ self w' = self w) ∨
  unreadable_album_title flickr fuel e.
Proof.
  unfold comprehensive_update. intros H.
  apply bind_Some in H as [([] & wa & Ha & H) | (e' & Ha & _)];
    [|by apply print_Some in Ha as [[=] _]].
  apply print_Some in Ha as [_ ->].
  apply bind_Some in H as [(t0 & wb & Hb & H) | (e' & [=] & _)].
  injection Hb as <- <-.
  apply bind_Some in H as [([] & wc & Hc & H) | (e' & Hc & [= <-])].
  - apply bind_Some in H as [([] & wd & Hd & H) | (e' & Hd & [= <-])].
    + exfalso.
      apply bind_Some in H as [(t1 & we & He & H) | (e' & [=] & _)].
      apply bind_Some in H as [(u & wf & Hf & H) | (e' & [=] & _)].
      apply bind_Some in H as [([] & wg & Hg & H) | (e' & Hg & _)];
        [|by apply print_Some in Hg as [[=] _]].
      match type of H with (if ?c then _ else _) _ = _ => destruct c end;
        by apply print_Some in H as [[=] _].
    + right. exact (update_albums_Exn _ _ _ _ _ Hd).
  - left. apply update_photostream_Exn in Hc as (all & evs & Hl & Hn & Hdb & Hself).
    split; [|by split].
    apply new_photos_of_inl in Hn as (ps & x & rest & -> & Hx).
    exists ((Photo <$> ps) ++ x :: rest), evs, x. split; [done|]. split; [|done].
    apply elem_of_app. right. by left.
Qed.



(** An album object without [title], after album "Trip". *)
Definition untitled : remote :=
  {| people_getPhotos := people_getPhotos Demo.flickr;
     photosets_getList :=
       Demo.one_page [Demo.trip; {| album_id := "a2"; album_title := None |}];
     photosets_getPhotos := photosets_getPhotos Demo.flickr;
     photos_getInfo := photos_getInfo Demo.flickr;
     photos_comments_getList := photos_comments_getList Demo.flickr;
     thumbnail_get := thumbnail_get Demo.flickr |}.



(** ** An album listing that fails *)

Lemma requests_quiet_listing flickr fuel : ∀ page albums evs o evs',
  get_user_albums_from flickr fuel page albums evs = Some (o, evs') →
  (∀ r, r ∈ requests evs → ∃ n, r = ReqPhotosetsList n) →
  ∀ r, r ∈ requests evs' → ∃ n, r = ReqPhotosetsList n.
Proof.
  induction fuel as [|fuel IH]; intros page albums evs o evs'; simpl; [done|].
  assert (∀ evs0 : list event,
            (∀ r, r ∈ requests evs0 → ∃ n, r = ReqPhotosetsList n) →
            ∀ m r, r ∈ requests (evs0 ++ [EvPrint m]) → ∃ n, r = ReqPhotosetsList n) as Hpr.
  { intros evs0 H0 m r. rewrite requests_app. simpl. rewrite app_nil_r. apply H0. }
  assert ((∀ r, r ∈ requests evs → ∃ n, r = ReqPhotosetsList n) →
          ∀ r, r ∈ requests (evs ++ [EvRequest (ReqPhotosetsList page)]) →
               ∃ n, r = ReqPhotosetsList n) as Hrq.
  { intros H0 r. rewrite requests_app, elem_of_app. simpl. intros [Hr|Hr]; [by apply H0|].
    apply list_elem_of_singleton in Hr as ->. eauto. }
  destruct (photosets_getList flickr page) as [what|message|result].
  - intros [= <- <-] H. by apply Hrq.
  - intros [= <- <-] H. by apply Hrq.
  - destruct (py_int_ge page (page_pages result)) as [e|[|]].
    + intros [= <- <-] H. by apply Hpr, Hrq.
    + intros [= <- <-] H. by apply Hpr, Hpr, Hrq.
    + intros Hrec H. eapply IH; [exact Hrec|]. by apply Hpr, Hrq.
Qed.

(** X6. A failure anywhere in the album listing costs the whole album
    sweep. When pages [1..k] of [flickr.photosets.getList] were fetched and
    page [k + 1] does not report success, [update_albums] prints the error
    and returns: storage, index, counters and clock are what they were, and
    the only requests made are those of the listing. The albums of the [k]
    pages fetched are not swept. *)
Theorem failed_album_listing_sweeps_nothing flickr fuel k albums message w :
  gathered below_pages (photosets_getList flickr) 1 k albums →
  photosets_getList flickr (1 + Z.of_nat k) = Fail message →
  (k < fuel)%nat →
  ∃ evs,
    update_albums flickr fuel w = Some (Ok tt, with_events evs w) ∧
    Forall quiet evs ∧
    (∀ r, r ∈ requests evs → ∃ n, r = ReqPhotosetsList n) ∧
    EvPrint (MsgAlbumsError (ApiError (default "Unknown error" message))) ∈ evs.
Proof.
  intros Hg Hfail Hfuel.
  destruct (get_user_albums_from_fail flickr k fuel 1 [] [EvPrint MsgFetchingAlbums]
              albums message Hg Hfail Hfuel) as (evs' & H).
  exists ([EvPrint MsgAlbumsBanner] ++ evs' ++
          [EvPrint (MsgAlbumsError (ApiError (default "Unknown error" message)))]).
  split; [|split; [|split]].
  - unfold update_albums, bind, try_except, get_user_albums, replay, print, emit, with_events.
    rewrite H. simpl. by rewrite <- !app_assoc.
  - apply Forall_app. split; [by repeat constructor|]. apply Forall_app.
    split; [|by repeat constructor].
    eapply get_user_albums_from_quiet; [exact H | by repeat constructor].
  - intros r. rewrite !requests_app. simpl. rewrite app_nil_r.
    apply (requests_quiet_listing flickr fuel _ _ _ _ _ H).
    simpl. intros r' Hr'. by apply elem_of_nil in Hr'.
  - apply elem_of_app. right. apply elem_of_app. right. by apply list_elem_of_singleton.
Qed.

(** The album listing of [Demo.failing] fails at page 2: album "Trip",
    of page 1, is not swept. *)
Lemma failed_album_listing_sweeps_nothing_witness :
  ∃ evs,
    update_albums Demo.failing 3 (start empty_database 0) =
      Some (Ok tt, with_events evs (start empty_database 0)) ∧
    Forall quiet evs ∧
    (∀ r, r ∈ requests evs → ∃ n, r = ReqPhotosetsList n) ∧
    EvPrint (MsgAlbumsError (ApiError "Service currently unavailable")) ∈ evs.
Proof.
  apply (failed_album_listing_sweeps_nothing Demo.failing 3 1 [Demo.trip]
           (Some "Service currently unavailable") (start empty_database 0));
    [|reflexivity|lia].
  eexists _, []. repeat split.
Defined.

(** ** Enough fuel: the run returns *)

(** [m] returns from every world. *)
Definition returns {A} (m : M A) : Prop := ∀ w, ∃ o w', m w = Some (o, w').

Lemma returns_ret {A} (a : A) : returns (ret a).
Proof. intros w. by eexists _, _. Qed.

Lemma returns_raise {A} (e : exn) : returns (raise (A:=A) e).
Proof. intros w. by eexists _, _. Qed.

Lemma returns_bind {A B} (m : M A) (f : A → M B) :
  returns m → (∀ a, returns (f a)) → returns (bind m f).
Proof.
  intros Hm Hf w. unfold bind. destruct (Hm w) as ([a|e] & w1 & ->); [apply Hf|by eexists _, _].
Qed.

Lemma returns_try {A} (m : M A) (h : exn → M A) :
  returns m → (∀ e, returns (h e)) → returns (try_except m h).
Proof.
  intros Hm Hh w. unfold try_except.
  destruct (Hm w) as ([a|e] & w1 & ->); [by eexists _, _|apply Hh].
Qed.

Lemma returns_emit e : returns (emit e).
Proof. intros w. by eexists _, _. Qed.

Lemma returns_now : returns now.
Proof. intros w. by eexists _, _. Qed.

Lemma returns_read_db : returns read_db.
Proof. intros w. by eexists _, _. Qed.

Lemma returns_read_self : returns read_self.
Proof. intros w. by eexists _, _. Qed.

Lemma returns_write_self u : returns (write_self u).
Proof. intros w. by eexists _, _. Qed.

Lemma returns_commit wr d : returns (commit wr d).
Proof. intros w. by eexists _, _. Qed.

Lemma returns_of_sum {A} (r : exn + A) : returns (of_sum r).
Proof. destruct r; [apply returns_raise | apply returns_ret]. Qed.

Lemma returns_replay {A} (r : option (outcome A * list event)) :
  is_Some r → returns (replay r).
Proof. intros [[o evs] ->] w. by eexists _, _. Qed.

Ltac returns_step :=
  first
    [ apply returns_ret | apply returns_raise | apply returns_emit | apply returns_now
    | apply returns_read_db | apply returns_read_self | apply returns_write_self
    | apply returns_commit | apply returns_of_sum
    | apply returns_bind; [|intros ?]
    | apply returns_try; [|intros ?]
    | match goal with
      | |- returns (if ?b then _ else _) => destruct b
      | |- returns (match ?x with _ => _ end) => destruct x
      end ].

Lemma returns_save_comments pid cs : returns (save_comments pid cs).
Proof. unfold save_comments. repeat returns_step. Qed.

Lemma returns_save_photo_metadata_standalone p thumb :
  returns (save_photo_metadata_standalone p thumb).
Proof. unfold save_photo_metadata_standalone. repeat returns_step. Qed.

Lemma returns_save_photo_metadata_junction p aid thumb :
  returns (save_photo_metadata_junction p aid thumb).
Proof.
  unfold save_photo_metadata_junction.
  repeat first [apply returns_save_photo_metadata_standalone | returns_step].
Qed.

Lemma returns_save_album_metadata aid title description n :
  returns (save_album_metadata aid title description n).
Proof. unfold save_album_metadata. repeat returns_step. Qed.

Lemma returns_fetch_new_photo flickr p : returns (fetch_new_photo flickr p).
Proof.
  unfold fetch_new_photo, get_photo_info, get_photo_comments, download_thumbnail, call, print.
  repeat first [apply returns_save_comments | returns_step].
Qed.

Lemma returns_download_photostream_photo flickr p :
  returns (download_photostream_photo flickr p).
Proof.
  unfold download_photostream_photo, photo_exists, print, index_add,
    incr_photostream_new, incr_new_photos.
  repeat first [apply returns_fetch_new_photo | apply returns_save_photo_metadata_standalone
               | returns_step].
Qed.

Lemma returns_download_album_photo flickr p aid title :
  returns (download_album_photo flickr p aid title).
Proof.
  unfold download_album_photo, photo_exists, photo_in_album, print, index_add,
    incr_skipped_photos, incr_new_photos, incr_new_associations.
  repeat first [apply returns_fetch_new_photo | apply returns_save_photo_metadata_junction
               | returns_step].
Qed.

Lemma returns_update_photostream_loop flickr ps : ∀ i n,
  returns (update_photostream_loop flickr i n ps).
Proof.
  induction ps as [|p ps IH]; intros i n; simpl; [apply returns_ret|].
  apply returns_bind; [|intros _; apply IH].
  apply returns_try; [|intros e; apply returns_emit].
  apply returns_bind; [apply returns_download_photostream_photo|intros _].
  destruct (_ =? _)%nat; [apply returns_emit | apply returns_ret].
Qed.

Lemma returns_download_album_photos flickr ps aid title : ∀ n,
  returns (download_album_photos flickr ps aid title n).
Proof.
  induction ps as [|p ps IH]; intros n; simpl; [apply returns_ret|].
  apply returns_bind; [apply returns_download_album_photo | intros b; apply IH].
Qed.

(** The [pages] every page of a listing reports, when it converts to an
    integer, is at most [k]. *)
Definition pages_at_most {A} (listing : Z → response (page A)) (k : Z) : Prop :=
  ∀ n result z, listing n = Okay result → py_int (page_pages result) = inr z → z ≤ k.

(** The three listings of the service never report more than [k] pages. *)
Definition listings_within (flickr : remote) (k : Z) : Prop :=
  pages_at_most (people_getPhotos flickr) k ∧
  pages_at_most (photosets_getList flickr) k ∧
  ∀ aid, pages_at_most (photosets_getPhotos flickr aid) k.

Lemma py_int_ge_false page v :
  py_int_ge page v = inr false → ∃ z, py_int v = inr z ∧ page < z.
Proof.
  destruct v as [|b|z|s|l|d]; simpl; try done; intros [= H]; eexists; (split; [done|]); lia.
Qed.

Lemma get_user_albums_from_returns flickr k :
  pages_at_most (photosets_getList flickr) k →
  ∀ fuel page albums evs,
    (Z.to_nat (k - page) < fuel)%nat →
    is_Some (get_user_albums_from flickr fuel page albums evs).
Proof.
  intros Hk. induction fuel as [|fuel IH]; intros page albums evs Hf; simpl; [lia|].
  destruct (photosets_getList flickr page) as [what|message|result] eqn:E; [done|done|].
  destruct (py_int_ge page (page_pages result)) as [e|[|]] eqn:Eg; [done|done|].
  apply py_int_ge_false in Eg as (z & Hz & Hlt). pose proof (Hk _ _ _ E Hz).
  apply IH. lia.
Qed.

Lemma get_album_photos_from_returns flickr aid k :
  pages_at_most (photosets_getPhotos flickr aid) k →
  ∀ fuel page photos evs,
    (Z.to_nat (k - page) < fuel)%nat →
    is_Some (get_album_photos_from flickr fuel aid page photos evs).
Proof.
  intros Hk. induction fuel as [|fuel IH]; intros page photos evs Hf; simpl; [lia|].
  destruct (photosets_getPhotos flickr aid page) as [what|message|result] eqn:E; [done|done|].
  destruct (py_int_ge page (page_pages result)) as [e|[|]] eqn:Eg; [done|done|].
  apply py_int_ge_false in Eg as (z & Hz & Hlt). pose proof (Hk _ _ _ E Hz).
  apply IH. lia.
Qed.

Lemma photostream_pages_from_returns flickr k :
  pages_at_most (people_getPhotos flickr) k →
  ∀ fuel page all_photos evs,
    (Z.to_nat (k - page) < fuel)%nat →
    is_Some (photostream_pages_from flickr fuel page all_photos evs).
Proof.
  intros Hk. induction fuel as [|fuel IH]; intros page all_photos evs Hf; simpl; [lia|].
  destruct (people_getPhotos flickr page) as [what|message|result] eqn:E; [done|done|].
  destruct (page_items result) as [|p ps]; [done|].
  destruct (py_int (page_total result)) as [e|total]; [done|].
  destruct (py_int (page_pages result)) as [e|pages_total] eqn:Ep; [done|].
  destruct (Z.leb_spec pages_total page); [done|].
  pose proof (Hk _ _ _ E Ep). apply IH. lia.
Qed.

(** With fuel above the number of pages the listings report, the three
    [while True] loops come to their [break] and the run is over. *)
Lemma comprehensive_update_total flickr fuel k :
  listings_within flickr k →
  (Z.to_nat k ≤ fuel)%nat → (0 < fuel)%nat →
  returns (comprehensive_update flickr fuel).
Proof.
  intros (Hs & Hl & Hp) Hk Hpos.
  assert (Z.to_nat (k - 1) < fuel)%nat as Hf by lia.
  assert (returns (update_photostream flickr fuel)) as Hstream.
  { unfold update_photostream, get_recent_photostream_photos, print.
    apply returns_bind; [apply returns_emit|intros _].
    apply returns_bind.
    - apply returns_bind; [apply returns_emit|intros _].
      apply returns_bind; [|intros all; repeat returns_step].
      apply returns_replay. by apply (photostream_pages_from_returns flickr k).
    - intros [|p ps]; [apply returns_emit|].
      apply returns_bind; [apply returns_emit|intros _].
      apply returns_update_photostream_loop. }
  assert (∀ aid title, returns (update_album_incremental flickr fuel aid title)) as Halbum.
  { intros aid title. unfold update_album_incremental, get_album_photos, print.
    apply returns_bind; [apply returns_emit|intros _].
    apply returns_bind;
      [apply returns_replay; by apply (get_album_photos_from_returns flickr aid k)|intros ps].
    apply returns_bind; [apply returns_emit|intros _].
    apply returns_bind; [apply returns_save_album_metadata|intros _].
    apply returns_bind; [apply returns_download_album_photos|intros m].
    destruct (_ <? _)%nat; apply returns_emit. }
  assert (∀ als i n, returns (update_albums_loop flickr fuel i n als)) as Hloop.
  { induction als as [|a als IH]; intros i n; simpl; [apply returns_ret|].
    apply returns_bind; [rewrite album_title_value_run; apply returns_of_sum|intros title].
    apply returns_bind; [apply returns_emit|intros _].
    apply returns_bind; [|intros _; apply IH].
    apply returns_try; [apply Halbum | intros e; apply returns_emit]. }
  assert (returns (update_albums flickr fuel)) as Halbums.
  { unfold update_albums, get_user_albums, print.
    apply returns_bind; [apply returns_emit|intros _].
    apply returns_bind.
    - apply returns_try; [|intros e; repeat returns_step].
      apply returns_bind;
        [apply returns_replay; by apply (get_user_albums_from_returns flickr k)|intros als].
      repeat returns_step.
    - intros [als|]; [apply Hloop | apply returns_ret]. }
  unfold comprehensive_update, print.
  apply returns_bind; [apply returns_emit|intros _].
  apply returns_bind; [apply returns_now|intros t0].
  apply returns_bind; [apply Hstream|intros _].
  apply returns_bind; [apply Halbums|intros _].
  repeat returns_step.
Qed.

(** A run that returns has printed its summary, then one of its two last
    lines. *)
Lemma comprehensive_update_Ok flickr fuel w w' :
  comprehensive_update flickr fuel w = Some (Ok tt, w') →
  ∃ evs elapsed final,
    trace w' = trace w ++ evs ++ [EvPrint (MsgSummary elapsed (self w')); EvPrint final] ∧
    (final = MsgUpdated ∨ final = MsgUpToDate).
Proof.
  unfold comprehensive_update. intros H.
  apply bind_Ok in H as ([] & wa & Ha & H). apply print_Some in Ha as [_ ->].
  apply bind_Ok in H as (t0 & wb & Hb & H). injection Hb as <- <-.
  apply bind_Ok in H as ([] & wc & Hps & H).
  apply bind_Ok in H as ([] & wd & Hal & H).
  apply bind_Ok in H as (t1 & we & He & H). injection He as <- <-.
  apply bind_Ok in H as (u & wf & Hf & H). injection Hf as <- <-.
  apply bind_Ok in H as ([] & wg & Hg & H). apply print_Some in Hg as [_ ->].
  destruct (stable_update_photostream grows flickr fuel grows_stable _ _ _ Hps)
    as (_ & _ & _ & evs1 & Ht1).
  destruct (stable_update_albums grows flickr fuel grows_stable _ _ _ Hal)
    as (_ & _ & _ & evs2 & Ht2).
  simpl in Ht1.
  match type of H with (if ?c then _ else _) _ = _ => destruct c end;
    apply print_Some in H as [_ ->]; simpl; rewrite Ht2, Ht1;
    exists ([EvPrint MsgUpdateBanner] ++ evs1 ++ evs2), (clock wd - clock w)%nat;
    [exists MsgUpdated | exists MsgUpToDate];
    (split; [rewrite <- !app_assoc; reflexivity | auto]).
Qed.

(** X7. The run ends when the pagination does. When no page of the
    photostream, of the album listing or of an album's photos reports more
    than [k] pages, and the loops may go round [fuel] times, [fuel]
    positive and at least [k], [comprehensive_update] is over from every
    state: the [while True] loops of the three fetchers come to their
    [break]. It then has returned, its summary and one of its two closing
    lines printed last, or it has raised: what [photo['id']] raises on an
    object of the photostream (nothing is stored then), or what the title
    lookup raises on an album of the listing. *)
Theorem comprehensive_update_returns flickr fuel k w :
  listings_within flickr k →
  (Z.to_nat k ≤ fuel)%nat → (0 < fuel)%nat →
  ∃ o w',
    comprehensive_update flickr fuel w = Some (o, w') ∧
    match o with
    | Ok _ =>
        ∃ evs elapsed final,
          trace w' =
            trace w ++ evs ++ [EvPrint (MsgSummary elapsed (self w')); EvPrint final] ∧
          (final = MsgUpdated ∨ final = MsgUpToDate)
    | Exn e =>
        (unreadable_photo_id flickr fuel e ∧ db w' = db w ∧ self w' = self w) ∨
        unreadable_album_title flickr fuel e
    end.
Proof.
  intros Hw Hk Hpos.
  destruct (comprehensive_update_total flickr fuel k Hw Hk Hpos w) as (o & w' & H).
  exists o, w'. split; [exact H|].
  destruct o as [[]|e].
  - by apply (comprehensive_update_Ok flickr fuel w).
  - by apply (comprehensive_update_Exn flickr fuel w).
Qed.

Lemma one_page_at_most {A} (items : list A) : pages_at_most (Demo.one_page items) 1.
Proof.
  intros n result z. unfold Demo.one_page. destruct (n =? 1); [|done].
  intros [= <-]. simpl. intros [= <-]. lia.
Qed.

(** The listings of the demo collection have one page each: fuel 1 is
    enough. *)
Lemma comprehensive_update_returns_witness :
  listings_within Demo.flickr 1 ∧
  ∃ o w',
    comprehensive_update Demo.flickr 1 (start empty_database 0) = Some (o, w') ∧
    match o with
    | Ok _ =>
        ∃ evs elapsed final,
          trace w' =
            trace (start empty_database 0) ++ evs ++
              [EvPrint (MsgSummary elapsed (self w')); EvPrint final] ∧
          (final = MsgUpdated ∨ final = MsgUpToDate)
    | Exn e =>
        (unreadable_photo_id Demo.flickr 1 e ∧
         db w' = db (start empty_database 0) ∧ self w' = self (start empty_database 0)) ∨
        unreadable_album_title Demo.flickr 1 e
    end.
Proof.
  assert (listings_within Demo.flickr 1) as Hw.
  { split; [|split; [|intros aid]]; apply one_page_at_most. }
  split; [exact Hw|].
  apply (comprehensive_update_returns Demo.flickr 1 1 (start empty_database 0) Hw); lia.
Defined.

(** ** A listing fetched to its last page *)

(** The page numbers [from], [from + 1], ..., [n] of them. *)
Fixpoint page_numbers (from : Z) (n : nat) : list Z :=
  match n with
  | O => []
  | S n' => from :: page_numbers (from + 1) n'
  end.

Lemma get_user_albums_from_done flickr k : ∀ fuel from albums evs items last,
  gathered below_pages (photosets_getList flickr) from k items →
  photosets_getList flickr (from + Z.of_nat k) = Okay last →
  py_int_ge (from + Z.of_nat k) (page_pages last) = inr true →
  (k < fuel)%nat →
  ∃ evs', get_user_albums_from flickr fuel from albums evs =
            Some (Ok (albums ++ items ++ page_items last), evs ++ evs') ∧
    requests evs' = ReqPhotosetsList <$> page_numbers from (S k).
Proof.
  induction k as [|k IH]; intros fuel from albums evs items last Hg Hlast Hge Hfuel;
    (destruct fuel as [|fuel]; [lia|]); simpl in *.
  - rewrite Z.add_0_r in *. rewrite Hlast, Hge, Hg. simpl.
    eexists. rewrite <- !app_assoc. split; [reflexivity|]. done.
  - destruct Hg as (result & rest & Hres & Hon & Hg & ->).
    rewrite Hres. unfold below_pages in Hon. rewrite Hon.
    edestruct (IH fuel (from + 1)) as (evs' & -> & Hreq); [exact Hg | | | |].
    + rewrite <- Hlast. f_equal. lia.
    + rewrite <- Hge. f_equal. lia.
    + lia.
    + eexists. rewrite <- !app_assoc. split; [reflexivity|].
      simpl. by rewrite Hreq.
Qed.

Lemma get_album_photos_from_done flickr aid k : ∀ fuel from photos evs items last,
  gathered below_pages (photosets_getPhotos flickr aid) from k items →
  photosets_getPhotos flickr aid (from + Z.of_nat k) = Okay last →
  py_int_ge (from + Z.of_nat k) (page_pages last) = inr true →
  (k < fuel)%nat →
  get_album_photos_from flickr fuel aid from photos evs =
    Some (Ok (photos ++ items ++ page_items last),
          evs ++ (EvRequest <$> (ReqPhotosetPhotos aid <$> page_numbers from (S k)))).
Proof.
  induction k as [|k IH]; intros fuel from photos evs items last Hg Hlast Hge Hfuel;
    (destruct fuel as [|fuel]; [lia|]); simpl in *.
  - rewrite Z.add_0_r in *. by rewrite Hlast, Hge, Hg.
  - destruct Hg as (result & rest & Hres & Hon & Hg & ->).
    rewrite Hres. unfold below_pages in Hon. rewrite Hon.
    rewrite (IH fuel (from + 1) _ _ rest last); [|exact Hg| | |lia].
    + by rewrite <- !app_assoc.
    + rewrite <- Hlast. f_equal. lia.
    + rewrite <- Hge. f_equal. lia.
Qed.

(** The last page of the photostream: it is empty, or it has photos and
    its number has reached the [pages] it reports. *)
Definition photostream_ends (number : Z) (result : page element) : Prop :=
  page_items result = [] ∨
  ∃ total pages_total,
    py_int (page_total result) = inr total ∧
    py_int (page_pages result) = inr pages_total ∧
    pages_total ≤ number.

Lemma photostream_pages_from_done flickr k : ∀ fuel from all_photos evs items last,
  gathered photostream_goes_on (people_getPhotos flickr) from k items →
  people_getPhotos flickr (from + Z.of_nat k) = Okay last →
  photostream_ends (from + Z.of_nat k) last →
  (k < fuel)%nat →
  ∃ evs', photostream_pages_from flickr fuel from all_photos evs =
            Some (Ok (all_photos ++ items ++ page_items last), evs ++ evs') ∧
    requests evs' = ReqPeoplePhotos <$> page_numbers from (S k).
Proof.
  induction k as [|k IH]; intros fuel from all_photos evs items last Hg Hlast Hend Hfuel;
    (destruct fuel as [|fuel]; [lia|]); simpl in *.
  - rewrite Z.add_0_r in *. rewrite Hlast, Hg. simpl.
    destruct Hend as [Hnil | (total & pages_total & Ht & Hp & Hle)].
    + rewrite Hnil, app_nil_r. eexists. split; [reflexivity|]. done.
    + destruct (page_items last) as [|p ps] eqn:Hitems.
      * rewrite app_nil_r. eexists. split; [reflexivity|]. done.
      * rewrite Ht, Hp. destruct (Z.leb_spec pages_total from); [|lia].
        eexists. rewrite <- !app_assoc. split; [reflexivity|]. done.
  - destruct Hg as (result & rest & Hres & Hon & Hg & ->).
    rewrite Hres. destruct Hon as (Hne & total & pages_total & Ht & Hp & Hlt).
    destruct (page_items result) as [|p ps] eqn:Hitems; [done|].
    rewrite Ht, Hp. destruct (Z.leb_spec pages_total from); [lia|].
    edestruct (IH fuel (from + 1)) as (evs' & -> & Hreq); [exact Hg | | | |].
    + rewrite <- Hlast. f_equal. lia.
    + replace (from + 1 + Z.of_nat k) with (from + Z.pos (Pos.of_succ_nat k)) by lia.
      exact Hend.
    + lia.
    + eexists. rewrite <- !app_assoc. split; [reflexivity|].
      simpl. by rewrite Hreq.
Qed.

(** X8. A listing is fetched to its last page. When pages [1..k] report
    success and more pages to come, and page [k + 1] reports success and is
    the last (its number has reached the [pages] it reports; for the
    photostream an empty page ends the listing too), each of the three
    fetchers returns the items of the [k + 1] pages in page order, having
    requested pages [1, 2, ..., k + 1] once each, in that order. Of the
    photostream's it returns those the index does not hold, and raises
    instead when one of the objects has no id that can be read. *)
Theorem complete_listing_gathered flickr fuel :
  (∀ k albums last w,
     gathered below_pages (photosets_getList flickr) 1 k albums →
     photosets_getList flickr (1 + Z.of_nat k) = Okay last →
     py_int_ge (1 + Z.of_nat k) (page_pages last) = inr true →
     (k < fuel)%nat →
     ∃ evs, get_user_albums flickr fuel w =
              Some (Ok (albums ++ page_items last), with_events evs w) ∧
       requests evs = ReqPhotosetsList <$> page_numbers 1 (S k)) ∧
  (∀ aid k photos last w,
     gathered below_pages (photosets_getPhotos flickr aid) 1 k photos →
     photosets_getPhotos flickr aid (1 + Z.of_nat k) = Okay last →
     py_int_ge (1 + Z.of_nat k) (page_pages last) = inr true →
     (k < fuel)%nat →
     get_album_photos flickr fuel aid w =
       Some (Ok (photos ++ page_items last),
             with_events (EvRequest <$> (ReqPhotosetPhotos aid <$> page_numbers 1 (S k))) w)) ∧
  (∀ k photos last days_back w,
     gathered photostream_goes_on (people_getPhotos flickr) 1 k photos →
     people_getPhotos flickr (1 + Z.of_nat k) = Okay last →
     photostream_ends (1 + Z.of_nat k) last →
     (k < fuel)%nat →
     ∃ evs,
       get_recent_photostream_photos flickr fuel days_back w =
         Some (returned (new_photos_of (self w) (photos ++ page_items last)),
               with_events evs w) ∧
       requests evs = ReqPeoplePhotos <$> page_numbers 1 (S k)).
Proof.
  split; [|split].
  - intros k albums last w Hg Hlast Hge Hfuel.
    destruct (get_user_albums_from_done flickr k fuel 1 [] [EvPrint MsgFetchingAlbums]
                albums last Hg Hlast Hge Hfuel) as (evs' & H & Hreq).
    unfold get_user_albums, replay. rewrite H.
    eexists. split; [reflexivity|]. exact Hreq.
  - intros aid k photos last w Hg Hlast Hge Hfuel.
    unfold get_album_photos, replay.
    by rewrite (get_album_photos_from_done flickr aid k fuel 1 [] [] photos last).
  - intros k photos last days_back w Hg Hlast Hend Hfuel.
    destruct (photostream_pages_from_done flickr k fuel 1 [] [] photos last
                Hg Hlast Hend Hfuel) as (evs' & H & Hreq).
    rewrite get_recent_photostream_photos_run, H. simpl.
    destruct (new_photos_of (self w) (photos ++ page_items last)) as [e|new_photos];
      simpl; (eexists; split; [reflexivity|]).
    + exact Hreq.
    + change (requests (evs' ++ [EvPrint (MsgPhotostreamTotal (length (photos ++ page_items last)));
                                 EvPrint (MsgPhotostreamNew (length new_photos))])
              = ReqPeoplePhotos <$> page_numbers 1 (S k)).
      rewrite requests_app. simpl. by rewrite app_nil_r.
Qed.

(** A service whose listings have two pages. *)
Definition paged {A} (first second : list A) (number : Z) : response (page A) :=
  if number =? 1
  then Okay {| page_items := first; page_pages := PyInt 2; page_total := PyInt 3 |}
  else if number =? 2
  then Okay {| page_items := second; page_pages := PyInt 2; page_total := PyInt 3 |}
  else Fail (Some "Page out of range").

Definition two_paged : remote :=
  {| people_getPhotos :=
       paged [Photo (Demo.mk "p1" []); Photo (Demo.mk "p2" [])] [Photo (Demo.mk "p3" [])];
     photosets_getList := paged [Demo.trip] [];
     photosets_getPhotos := fun _ => paged [Demo.mk "p1" []] [Demo.mk "p2" []];
     photos_getInfo := photos_getInfo Demo.flickr;
     photos_comments_getList := photos_comments_getList Demo.flickr;
     thumbnail_get := thumbnail_get Demo.flickr |}.

(** The photos of album [a1] over its two pages. *)
Lemma complete_listing_gathered_witness :
  get_album_photos two_paged 2 "a1" (start empty_database 0) =
    Some (Ok ([Demo.mk "p1" []] ++ [Demo.mk "p2" []]),
          with_events
            (EvRequest <$> (ReqPhotosetPhotos "a1" <$> page_numbers 1 2))
            (start empty_database 0)).
Proof.
  apply (proj1 (proj2 (complete_listing_gathered two_paged 2))
           "a1" 1%nat [Demo.mk "p1" []]
           {| page_items := [Demo.mk "p2" []]; page_pages := PyInt 2; page_total := PyInt 3 |}
           (start empty_database 0)); [|reflexivity|reflexivity|lia].
  eexists _, []. repeat split.
Defined.

(** ** [days_back] and the pages that are fetched *)

(** The listing up to a page that does not report success or whose request
    raises: the loop ends there, after one request for each page. *)
Lemma photostream_pages_from_stop flickr k : ∀ fuel from all_photos evs items,
  gathered photostream_goes_on (people_getPhotos flickr) from k items →
  (∀ result, people_getPhotos flickr (from + Z.of_nat k) ≠ Okay result) →
  (k < fuel)%nat →
  ∃ evs', photostream_pages_from flickr fuel from all_photos evs =
            Some (Ok (all_photos ++ items), evs ++ evs') ∧
    requests evs' = ReqPeoplePhotos <$> page_numbers from (S k).
Proof.
  induction k as [|k IH]; intros fuel from all_photos evs items Hg Hstop Hfuel;
    (destruct fuel as [|fuel]; [lia|]); simpl in *.
  - rewrite Z.add_0_r in *. rewrite Hg, app_nil_r.
    destruct (people_getPhotos flickr from) as [what|message|result] eqn:E.
    + eexists. rewrite <- !app_assoc. split; [reflexivity|]. done.
    + eexists. rewrite <- !app_assoc. split; [reflexivity|]. done.
    + by destruct (Hstop result).
  - destruct Hg as (result & rest & Hres & Hon & Hg & ->).
    rewrite Hres. destruct Hon as (Hne & total & pages_total & Ht & Hp & Hlt).
    destruct (page_items result) as [|p ps] eqn:Hitems; [done|].
    rewrite Ht, Hp. destruct (Z.leb_spec pages_total from); [lia|].
    edestruct (IH fuel (from + 1)) as (evs' & -> & Hreq); [exact Hg | | |].
    + intros result'. replace (from + 1 + Z.of_nat k) with (from + Z.pos (Pos.of_succ_nat k))
        by lia. apply Hstop.
    + lia.
    + eexists. rewrite <- !app_assoc. split; [reflexivity|].
      simpl. by rewrite Hreq.
Qed.

(** Following the specification: "every page of the entire photostream is
    fetched". Each page of the listing that holds photos has been
    requested. *)
Definition every_page_fetched (flickr : remote) (evs : list event) : Prop :=
  ∀ n result,
    people_getPhotos flickr n = Okay result → page_items result ≠ [] →
    ReqPeoplePhotos n ∈ requests evs.

(** A photostream of three pages whose second page does not report
    success. *)
Definition interrupted : remote :=
  {| people_getPhotos := fun number =>
       if number =? 1
       then Okay {| page_items := [Photo (Demo.mk "p1" [])];
                    page_pages := PyInt 3; page_total := PyInt 3 |}
       else if number =? 3
       then Okay {| page_items := [Photo (Demo.mk "p3" [])];
                    page_pages := PyInt 3; page_total := PyInt 3 |}
       else Fail (Some "Service currently unavailable");
     photosets_getList := photosets_getList Demo.flickr;
     photosets_getPhotos := photosets_getPhotos Demo.flickr;
     photos_getInfo := photos_getInfo Demo.flickr;
     photos_comments_getList := photos_comments_getList Demo.flickr;
     thumbnail_get := thumbnail_get Demo.flickr |}.

(** Against C10 as stated: over [interrupted] the call returns [p1] alone;
    page 3, which holds [p3], is never requested. *)
Lemma page_not_fetched_counterexample :
  ∃ w',
    get_recent_photostream_photos interrupted 5 90 (start empty_database 0) =
      Some (Ok [Demo.mk "p1" []], w') ∧
    ¬ every_page_fetched interrupted (trace w').
Proof.
  set (run := get_recent_photostream_photos interrupted 5 90 (start empty_database 0)).
  assert (fst <$> run = Some (Ok [Demo.mk "p1" []])) as H1 by (vm_compute; reflexivity).
  assert ((fun r => requests (trace (snd r))) <$> run
          = Some [ReqPeoplePhotos 1; ReqPeoplePhotos 2]) as H2 by (vm_compute; reflexivity).
  clearbody run. destruct run as [[o w']|]; [|discriminate].
  cbn [fmap option_fmap option_map fst snd] in H1, H2.
  injection H1 as ->. injection H2 as H2.
  exists w'. split; [reflexivity|]. intros H.
  specialize (H 3 _ eq_refl). rewrite H2 in H.
  assert (ReqPeoplePhotos 3 ∈ [ReqPeoplePhotos 1; ReqPeoplePhotos 2]) as Hin
    by (apply H; discriminate).
  apply elem_of_cons in Hin as [Hin | Hin]; [discriminate Hin|].
  apply elem_of_cons in Hin as [Hin | Hin]; [discriminate Hin|].
  by apply elem_of_nil in Hin.
Qed.

(** C10, amended. [days_back] shows in the first printed line and nowhere
    else: two calls that differ in it alone agree on what is returned or
    raised, on storage, the updater and the clock, on the requests and on
    every other event. No date filters anything, and the pages are
    requested in order, once each, until one ends the listing or fails.
    When pages [1..k] report success and more to come and page [k + 1]
    ends the listing (it is empty, or its number has reached the [pages] it
    reports), the requests are those for pages [1, ..., k + 1] and the
    call hands over the photos of all these pages that the index does not
    hold, whatever their dates (it raises when one of the objects has no id
    that can be read). When page [k + 1] does not report success, or its
    request raises, the requests are the same and the call hands over what
    pages [1..k] held: no later page is requested. *)
Theorem days_back_only_printed flickr fuel w :
  (∀ days_back days_back',
     modulo_days_back_line (get_recent_photostream_photos flickr fuel days_back w) =
     modulo_days_back_line (get_recent_photostream_photos flickr fuel days_back' w)) ∧
  (∀ k photos last,
     gathered photostream_goes_on (people_getPhotos flickr) 1 k photos →
     people_getPhotos flickr (1 + Z.of_nat k) = Okay last →
     photostream_ends (1 + Z.of_nat k) last →
     (k < fuel)%nat →
     ∃ evs,
       requests evs = ReqPeoplePhotos <$> page_numbers 1 (S k) ∧
       ∀ days_back,
         get_recent_photostream_photos flickr fuel days_back w =
           Some (returned (new_photos_of (self w) (photos ++ page_items last)),
                 with_events (EvPrint (MsgCheckingPhotostream days_back) :: evs) w)) ∧
  (∀ k photos,
     gathered photostream_goes_on (people_getPhotos flickr) 1 k photos →
     (∀ result, people_getPhotos flickr (1 + Z.of_nat k) ≠ Okay result) →
     (k < fuel)%nat →
     ∃ evs,
       requests evs = ReqPeoplePhotos <$> page_numbers 1 (S k) ∧
       ∀ days_back,
         get_recent_photostream_photos flickr fuel days_back w =
           Some (returned (new_photos_of (self w) photos),
                 with_events (EvPrint (MsgCheckingPhotostream days_back) :: evs) w)).
Proof.
  split; [|split].
  - intros days_back days_back'. apply get_recent_photostream_photos_days_back.
  - intros k photos last Hg Hlast Hend Hfuel.
    destruct (photostream_pages_from_done flickr k fuel 1 [] [] photos last
                Hg Hlast Hend Hfuel) as (evs' & H & Hreq).
    simpl in H.
    destruct (new_photos_of (self w) (photos ++ page_items last)) as [e|new_photos] eqn:En.
    + exists evs'. split; [exact Hreq|]. intros days_back.
      by rewrite get_recent_photostream_photos_run, H, En.
    + exists (evs' ++ [EvPrint (MsgPhotostreamTotal (length (photos ++ page_items last)));
                       EvPrint (MsgPhotostreamNew (length new_photos))]).
      split; [rewrite requests_app; simpl; by rewrite app_nil_r|]. intros days_back.
      by rewrite get_recent_photostream_photos_run, H, En.
  - intros k photos Hg Hstop Hfuel.
    destruct (photostream_pages_from_stop flickr k fuel 1 [] [] photos Hg Hstop Hfuel)
      as (evs' & H & Hreq).
    simpl in H.
    destruct (new_photos_of (self w) photos) as [e|new_photos] eqn:En.
    + exists evs'. split; [exact Hreq|]. intros days_back.
      by rewrite get_recent_photostream_photos_run, H, En.
    + exists (evs' ++ [EvPrint (MsgPhotostreamTotal (length photos));
                       EvPrint (MsgPhotostreamNew (length new_photos))]).
      split; [rewrite requests_app; simpl; by rewrite app_nil_r|]. intros days_back.
      by rewrite get_recent_photostream_photos_run, H, En.
Qed.

(** The photostream of [two_paged], its two pages fetched whatever
    [days_back]; the photostream of [interrupted], fetched up to the page
    that fails. *)
Lemma days_back_only_printed_witness :
  (∃ evs,
     requests evs = [ReqPeoplePhotos 1; ReqPeoplePhotos 2] ∧
     ∀ days_back,
       get_recent_photostream_photos two_paged 2 days_back (start empty_database 0) =
         Some (returned (new_photos_of (self (start empty_database 0))
                           ([Photo (Demo.mk "p1" []); Photo (Demo.mk "p2" [])] ++
                            [Photo (Demo.mk "p3" [])])),
               with_events (EvPrint (MsgCheckingPhotostream days_back) :: evs)
                 (start empty_database 0))) ∧
  (∃ evs,
     requests evs = [ReqPeoplePhotos 1; ReqPeoplePhotos 2] ∧
     ∀ days_back,
       get_recent_photostream_photos interrupted 5 days_back (start empty_database 0) =
         Some (returned (new_photos_of (self (start empty_database 0))
                           [Photo (Demo.mk "p1" [])]),
               with_events (EvPrint (MsgCheckingPhotostream days_back) :: evs)
                 (start empty_database 0))).
Proof.
  pose proof (days_back_only_printed two_paged 2 (start empty_database 0)) as (_ & Hall & _).
  pose proof (days_back_only_printed interrupted 5 (start empty_database 0)) as (_ & _ & Hstop).
  split.
  - apply (Hall 1%nat [Photo (Demo.mk "p1" []); Photo (Demo.mk "p2" [])]
             {| page_items := [Photo (Demo.mk "p3" [])];
                page_pages := PyInt 2; page_total := PyInt 3 |});
      [|reflexivity| |lia].
    + eexists _, []. split; [reflexivity|]. split; [|done].
      split; [done|]. exists 3, 2. repeat split.
    + right. exists 3, 2. repeat split. lia.
  - apply (Hstop 1%nat [Photo (Demo.mk "p1" [])]); [|discriminate|lia].
    eexists _, []. split; [reflexivity|]. split; [|done].
    split; [done|]. exists 3, 3. repeat split.
Defined.

(** ** The signature and the order of the parameters *)

Lemma string_compare_refl s : String.compare s s = Eq.
Proof.
  induction s as [|a s IH]; simpl; [done|].
  unfold Ascii.compare. by rewrite N.compare_refl.
Qed.

Lemma string_compare_Lt_trans s1 : ∀ s2 s3,
  String.compare s1 s2 = Lt → String.compare s2 s3 = Lt → String.compare s1 s3 = Lt.
Proof.
  induction s1 as [|a1 s1 IH]; intros [|a2 s2] [|a3 s3]; simpl; try done.
  unfold Ascii.compare.
  destruct (N.compare_spec (N_of_ascii a1) (N_of_ascii a2)) as [E12|L12|G12]; [| |done].
  - rewrite E12. destruct (N.compare (N_of_ascii a2) (N_of_ascii a3)); [apply IH|done|done].
  - destruct (N.compare_spec (N_of_ascii a2) (N_of_ascii a3)) as [E23|L23|G23]; [| |done].
    + intros _ _. rewrite <- E23. by apply N.compare_lt_iff in L12 as ->.
    + intros _ _.
      assert (N_of_ascii a1 < N_of_ascii a3)%N as L13 by lia.
      by apply N.compare_lt_iff in L13 as ->.
Qed.

Lemma string_leb_trans s1 s2 s3 :
  String.leb s1 s2 = true → String.leb s2 s3 = true → String.leb s1 s3 = true.
Proof.
  unfold String.leb.
  destruct (String.compare s1 s2) eqn:E12; [| |done]; intros _.
  - apply String.compare_eq_iff in E12 as ->. done.
  - destruct (String.compare s2 s3) eqn:E23; [| |done]; intros _.
    + apply String.compare_eq_iff in E23 as <-. by rewrite E12.
    + by rewrite (string_compare_Lt_trans _ _ _ E12 E23).
Qed.

#[local] Instance key_le_trans : Transitive key_le.
Proof. intros a b c. apply string_leb_trans. Qed.

(** On items of distinct keys the sorted list does not depend on the order
    the items come in. *)
Lemma sort_by_key_order l l' :
  NoDup l.*1 → l ≡ₚ l' → sort_by_key l = sort_by_key l'.
Proof.
  intros Hd Hp. apply (Sorted_unique_strong key_le).
  - intros x1 x2 H1 H2 H12 H21.
    assert (x1.1 = x2.1) as Hk by (by apply String.leb_antisym).
    rewrite sort_by_key_Permutation in H1. rewrite sort_by_key_Permutation, <- Hp in H2.
    clear -Hd H1 H2 Hk. induction l as [|y l IH]; [by apply elem_of_nil in H1|].
    simpl in Hd. apply NoDup_cons in Hd as [Hy Hd].
    apply elem_of_cons in H1 as [->|H1], H2 as [->|H2]; [done| | |by apply IH].
    + exfalso. apply Hy. rewrite Hk. by apply list_elem_of_fmap_2.
    + exfalso. apply Hy. rewrite <- Hk. by apply list_elem_of_fmap_2.
  - apply sort_by_key_Sorted.
  - apply sort_by_key_Sorted.
  - by rewrite !sort_by_key_Permutation.
Qed.

(** X9. The signature does not depend on the order of the parameters in
    the dict: two dicts with the same items (distinct keys, in any order of
    insertion) are signed alike. *)
Theorem signature_ignores_order quote upper hmac_sha1 b64encode
    api_secret token_secret method url params params' :
  NoDup params.*1 → params ≡ₚ params' →
  generate_signature quote upper hmac_sha1 b64encode api_secret token_secret
    method url params =
  generate_signature quote upper hmac_sha1 b64encode api_secret token_secret
    method url params'.
Proof.
  intros Hd Hp. unfold generate_signature.
  assert (NoDup params'.*1) as Hd' by (by rewrite <- Hp).
  rewrite !py_sorted_by_key by done. by rewrite (sort_by_key_order params params').
Qed.

(** The parameters of the [flickr.people.getPhotos] call, in the order
    given and in the reverse order. *)
Lemma signature_ignores_order_witness :
  NoDup getPhotos_params.*1 ∧ getPhotos_params ≡ₚ rev getPhotos_params ∧
  generate_signature PyLib.quote PyLib.upper PyLib.hmac_sha1 PyLib.b64encode
    "s3cr3t" (Some "t0k s3cr3t") "get" "https://www.flickr.com/services/rest/"
    getPhotos_params =
  generate_signature PyLib.quote PyLib.upper PyLib.hmac_sha1 PyLib.b64encode
    "s3cr3t" (Some "t0k s3cr3t") "get" "https://www.flickr.com/services/rest/"
    (rev getPhotos_params).
Proof.
  assert (NoDup getPhotos_params.*1) as Hd
    by (apply (bool_decide_unpack (NoDup getPhotos_params.*1)); vm_compute; exact I).
  assert (getPhotos_params ≡ₚ rev getPhotos_params) as Hp by apply Permutation_rev.
  split; [exact Hd|]. split; [exact Hp|].
  exact (signature_ignores_order PyLib.quote PyLib.upper PyLib.hmac_sha1 PyLib.b64encode
           "s3cr3t" (Some "t0k s3cr3t") "get" "https://www.flickr.com/services/rest/"
           getPhotos_params (rev getPhotos_params) Hd Hp).
Defined.

(** ** [oauth_request] and [api_call]: the parameters of a request *)

(** [d[k] = v] on a dict held as its items in insertion order: a key that
    is there keeps its place. *)
Fixpoint dict_set (k : string) (v : param) (d : list (string * param))
    : list (string * param) :=
  match d with
  | [] => [(k, v)]
  | (k', v') :: d' =>
      if String.eqb k' k then (k', v) :: d' else (k', v') :: dict_set k v d'
  end.

(** [d.update(new)], and [{**d, **new}]. *)
Definition dict_update (d new : list (string * param)) : list (string * param) :=
  fold_left (fun d kv => dict_set (fst kv) (snd kv) d) new d.

(** [d.get(k)]. *)
Fixpoint dict_get (k : string) (d : list (string * param)) : option param :=
  match d with
  | [] => None
  | (k', v) :: d' => if String.eqb k' k then Some v else dict_get k d'
  end.

(** What [FlickrDownloaderOAuth.__init__] and [load_token] set and the
    signer reads. *)
Record downloader : Type := {
  api_key : string;
  api_secret : string;
  oauth_token : option string;
  oauth_token_secret : option string;
}.

(** The request handed to [requests.get] or [requests.post]. *)
Record sent_request : Type := {
  sent_by_get : bool;
  sent_url : string;
  sent_params : list (string * param);
}.

Section Requests.

Variable quote : string → string.
Variable upper : string → string.
Variable hmac_sha1 : string → string → string.
Variable b64encode : string → string.

(** The [oauth_params] of [oauth_request]; [nonce] and [timestamp] are the
    two readings [int(time.time())]. *)
Definition oauth_params (dl : downloader) (nonce timestamp : Z) : list (string * param) :=
  [("oauth_consumer_key", ParamStr (api_key dl));
   ("oauth_nonce", ParamStr (pretty nonce));
   ("oauth_signature_method", ParamStr "HMAC-SHA1");
   ("oauth_timestamp", ParamStr (pretty timestamp));
   ("oauth_version", ParamStr "1.0")] ++
  match oauth_token dl with
  | Some token => if String.eqb token "" then [] else [("oauth_token", ParamStr token)]
  | None => []
  end.

(** [oauth_request], up to the call of [requests]: the request it makes,
    or what the signer raises. *)
Definition oauth_request (dl : downloader) (nonce timestamp : Z) (method url : string)
    (params : list (string * param)) : exn + sent_request :=
  let oauth := oauth_params dl nonce timestamp in
  let all_params := dict_update params oauth in
  match generate_signature quote upper hmac_sha1 b64encode
          (api_secret dl) (oauth_token_secret dl) method url all_params with
  | inl e => inl e
  | inr signature =>
      let oauth := dict_set "oauth_signature" (ParamStr signature) oauth in
      inr {| sent_by_get := String.eqb (upper method) "GET";
             sent_url := url;
             sent_params := dict_update params oauth |}
  end.

(** [api_call], up to the call of [requests]: [params] are the keyword
    arguments. *)
Definition api_call (dl : downloader) (nonce timestamp : Z) (method : string)
    (params : list (string * param)) : exn + sent_request :=
  let params :=
    dict_update params
      [("method", ParamStr method); ("format", ParamStr "json");
       ("nojsoncallback", ParamInt 1)] in
  oauth_request dl nonce timestamp "GET" "https://www.flickr.com/services/rest/" params.

End Requests.

Lemma dict_set_keys k v d :
  (dict_set k v d).*1 = if bool_decide (k ∈ d.*1) then d.*1 else d.*1 ++ [k].
Proof.
  induction d as [|[k' v'] d IH]; csimpl; [done|].
  destruct (String.eqb_spec k' k) as [->|Hne]; csimpl.
  - rewrite bool_decide_eq_true_2; [done | by left].
  - rewrite IH. destruct (bool_decide (k ∈ d.*1)) eqn:E.
    + apply bool_decide_eq_true in E. rewrite bool_decide_eq_true_2; [done | by right].
    + apply bool_decide_eq_false in E. rewrite bool_decide_eq_false_2; [done|].
      rewrite not_elem_of_cons. split; [congruence | done].
Qed.

Lemma dict_set_NoDup k v d : NoDup d.*1 → NoDup (dict_set k v d).*1.
Proof.
  intros H. rewrite dict_set_keys. destruct (bool_decide (k ∈ d.*1)) eqn:E; [done|].
  apply bool_decide_eq_false in E. apply NoDup_app. split; [done|].
  split; [|apply NoDup_singleton].
  intros x Hx Hx'. apply list_elem_of_singleton in Hx' as ->. done.
Qed.

Lemma dict_set_absent k v d : k ∉ d.*1 → dict_set k v d = d ++ [(k, v)].
Proof.
  induction d as [|[k' v'] d IH]; csimpl; [done|].
  rewrite not_elem_of_cons. intros [Hne Hd].
  destruct (String.eqb_spec k' k) as [->|_]; [done|]. by rewrite IH.
Qed.

Lemma dict_get_set k k' v d :
  dict_get k (dict_set k' v d) = if String.eqb k' k then Some v else dict_get k d.
Proof.
  induction d as [|[k0 v0] d IH]; csimpl.
  - by destruct (String.eqb k' k).
  - destruct (String.eqb_spec k0 k') as [->|Hne]; csimpl.
    + by destruct (String.eqb k' k).
    + rewrite IH. destruct (String.eqb_spec k0 k) as [->|_]; [|done].
      by destruct (String.eqb_spec k' k) as [->|_].
Qed.

Lemma dict_get_absent k d : k ∉ d.*1 → dict_get k d = None.
Proof.
  induction d as [|[k' v'] d IH]; csimpl; [done|].
  rewrite not_elem_of_cons. intros [Hne Hd].
  destruct (String.eqb_spec k' k) as [->|_]; [done|]. by apply IH.
Qed.

Lemma dict_update_NoDup new : ∀ d, NoDup d.*1 → NoDup (dict_update d new).*1.
Proof.
  unfold dict_update. induction new as [|[k v] new IH]; intros d H; csimpl; [done|].
  by apply IH, dict_set_NoDup.
Qed.

(** [{**d, **new}[k]]: the value of [new] when it has the key, that of [d]
    otherwise. *)
Lemma dict_get_update k new : ∀ d,
  NoDup new.*1 →
  dict_get k (dict_update d new) =
  match dict_get k new with Some v => Some v | None => dict_get k d end.
Proof.
  unfold dict_update. induction new as [|[k' v'] new IH]; intros d Hd; csimpl; [done|].
  csimpl in Hd. apply NoDup_cons in Hd as [Hk Hd].
  rewrite IH, dict_get_set by done.
  destruct (String.eqb_spec k' k) as [->|_]; [|done].
  by rewrite dict_get_absent.
Qed.

Lemma dict_update_snoc d new kv :
  dict_update d (new ++ [kv]) = dict_set (fst kv) (snd kv) (dict_update d new).
Proof. unfold dict_update. by rewrite fold_left_app. Qed.

Lemma dict_update_keys k new : ∀ d, k ∈ (dict_update d new).*1 ↔ k ∈ d.*1 ∨ k ∈ new.*1.
Proof.
  unfold dict_update. induction new as [|[k' v'] new IH]; intros d; csimpl.
  - rewrite elem_of_nil. tauto.
  - rewrite IH, dict_set_keys, elem_of_cons.
    destruct (bool_decide (k' ∈ d.*1)) eqn:E.
    + apply bool_decide_eq_true in E. split; [tauto|]. intros [?|[->|?]]; tauto.
    + rewrite elem_of_app, list_elem_of_singleton. tauto.
Qed.

Lemma oauth_params_keys dl nonce timestamp :
  NoDup (oauth_params dl nonce timestamp).*1 ∧
  "oauth_signature" ∉ (oauth_params dl nonce timestamp).*1.
Proof.
  unfold oauth_params.
  destruct (oauth_token dl) as [token|]; [destruct (String.eqb token "")|]; simpl;
    (split; [apply (bool_decide_unpack (NoDup _)); vm_compute; exact I |]);
    intros H; apply (bool_decide_pack _) in H; vm_compute in H; exact H.
Qed.

(** X10. [oauth_request] signs what it sends. For parameters with distinct
    keys among which there is no [oauth_signature], the signer raises
    nothing (no two keys are equal, so [sorted] never compares an [int]
    value with a [str] one) and the request carries the merged parameters,
    keys distinct, followed by [oauth_signature]; that signature is the one
    of exactly the other parameters sent. In the merged parameters an
    [oauth_*] value of the downloader takes the place of a caller's value
    for the same key, and every other parameter of the caller is kept. *)
Theorem oauth_request_signs_what_it_sends quote upper hmac_sha1 b64encode
    dl nonce timestamp method url params :
  NoDup (params.*1) → ("oauth_signature" ∉ params.*1) →
  let all_params := dict_update params (oauth_params dl nonce timestamp) in
  ∃ signature,
    generate_signature quote upper hmac_sha1 b64encode
      (api_secret dl) (oauth_token_secret dl) method url all_params = inr signature ∧
    oauth_request quote upper hmac_sha1 b64encode dl nonce timestamp method url params =
      inr {| sent_by_get := String.eqb (upper method) "GET";
             sent_url := url;
             sent_params := all_params ++ [("oauth_signature", ParamStr signature)] |} ∧
    NoDup (all_params ++ [("oauth_signature", ParamStr signature)]).*1 ∧
    ∀ k, dict_get k all_params =
         match dict_get k (oauth_params dl nonce timestamp) with
         | Some v => Some v
         | None => dict_get k params
         end.
Proof.
  intros Hd Hs all_params.
  destruct (oauth_params_keys dl nonce timestamp) as [Hod Hos].
  assert (NoDup all_params.*1) as Hall by (by apply dict_update_NoDup).
  assert ("oauth_signature" ∉ all_params.*1) as Hsig.
  { unfold all_params. rewrite dict_update_keys. tauto. }
  unfold oauth_request, generate_signature. fold all_params.
  rewrite py_sorted_by_key by done.
  eexists. split; [reflexivity|]. split; [|split].
  - do 2 f_equal. rewrite (dict_set_absent _ _ _ Hos), dict_update_snoc. simpl.
    fold all_params. by apply dict_set_absent.
  - rewrite fmap_app. apply NoDup_app. split; [done|]. split; [|apply NoDup_singleton].
    intros x Hx Hx'. apply list_elem_of_singleton in Hx' as ->. done.
  - intros k. by apply dict_get_update.
Qed.

(** The [flickr.people.getPhotos] call of [get_recent_photostream_photos],
    page 1, by a downloader with a token. *)
Definition demo_downloader : downloader :=
  {| api_key := "k3y"; api_secret := "s3cr3t";
     oauth_token := Some "t0k"; oauth_token_secret := Some "t0k s3cr3t" |}.

(** The keyword arguments of that call. *)
(** The keyword arguments of that call. *)
Definition getPhotos_kwargs : list (string * param) :=
  [("user_id", ParamStr "138560374@N06"); ("page", ParamInt 1); ("per_page", ParamInt 500);
   ("extras", ParamStr "date_upload,date_taken,tags,views,url_t,url_o")].

(** The parameters [api_call] hands to [oauth_request]. *)
Definition getPhotos_call : list (string * param) :=
  getPhotos_kwargs ++
  [("method", ParamStr "flickr.people.getPhotos"); ("format", ParamStr "json");
   ("nojsoncallback", ParamInt 1)].

(** The request of that call at time 1700000000, with the signature
    Python's [hmac], [base64] and [urllib.parse.quote] give. *)
Lemma oauth_request_signs_what_it_sends_witness :
  NoDup (getPhotos_call.*1) ∧ ("oauth_signature" ∉ getPhotos_call.*1) ∧
  api_call PyLib.quote PyLib.upper PyLib.hmac_sha1 PyLib.b64encode
    demo_downloader 1700000000 1700000000 "flickr.people.getPhotos" getPhotos_kwargs =
  inr {| sent_by_get := true;
         sent_url := "https://www.flickr.com/services/rest/";
         sent_params :=
           getPhotos_call ++
           [("oauth_consumer_key", ParamStr "k3y"); ("oauth_nonce", ParamStr "1700000000");
            ("oauth_signature_method", ParamStr "HMAC-SHA1");
            ("oauth_timestamp", ParamStr "1700000000"); ("oauth_version", ParamStr "1.0");
            ("oauth_token", ParamStr "t0k");
            ("oauth_signature", ParamStr "XIxrlXptOn/UmlkMUxJOE+Wy44E=")] |}.
Proof.
  assert (NoDup (getPhotos_call.*1)) as Hd
    by (apply (bool_decide_unpack (NoDup (getPhotos_call.*1))); vm_compute; exact I).
  assert ("oauth_signature" ∉ getPhotos_call.*1) as Hs
    by (intros H; apply (bool_decide_pack _) in H; vm_compute in H; exact H).
  split; [exact Hd|]. split; [exact Hs|].
  destruct (oauth_request_signs_what_it_sends
              PyLib.quote PyLib.upper PyLib.hmac_sha1 PyLib.b64encode
              demo_downloader 1700000000 1700000000 "GET"
              "https://www.flickr.com/services/rest/" getPhotos_call Hd Hs)
    as (signature & Hsig & Hreq & _).
  vm_compute in Hsig. injection Hsig as <-.
  change (api_call PyLib.quote PyLib.upper PyLib.hmac_sha1 PyLib.b64encode
            demo_downloader 1700000000 1700000000 "flickr.people.getPhotos" getPhotos_kwargs)
    with (oauth_request PyLib.quote PyLib.upper PyLib.hmac_sha1 PyLib.b64encode
            demo_downloader 1700000000 1700000000 "GET"
            "https://www.flickr.com/services/rest/" getPhotos_call).
  rewrite Hreq. reflexivity.
Defined.

(** ** Comments saved again *)

(** Two storages with the same four tables are one. *)
Lemma database_eq d d' :
  photos d' = photos d → albums d' = albums d → photo_albums d' = photo_albums d →
  comments d' = comments d → d' = d.
Proof. destruct d, d'. simpl. by intros -> -> -> ->. Qed.

(** [INSERT OR REPLACE INTO comments], on the rows of the table. *)
Definition upsert_comment (rows : list comment_row) (c : comment_row) : list comment_row :=
  comments (insert_or_replace_comment c
              {| photos := ∅; albums := ∅; photo_albums := []; comments := rows |}).

Lemma comments_insert_or_replace_comment c d :
  comments (insert_or_replace_comment c d) = upsert_comment (comments d) c.
Proof. done. Qed.

(** The rows [save_comments] binds for the comments [cs] of a photo. *)
Definition comment_rows_of (pid : string) (cs : list comment) (rows : list comment_row) : Prop :=
  Forall2 (fun c row => comment_values pid c = inr row) cs rows.

Lemma save_comments_rows_fold pid cs : ∀ d,
  (∀ d', save_comments_rows pid cs d = inr d' →
     ∃ rows, comment_rows_of pid cs rows ∧
       comments d' = fold_left upsert_comment rows (comments d)) ∧
  (∀ rows, comment_rows_of pid cs rows →
     ∃ d', save_comments_rows pid cs d = inr d' ∧
       comments d' = fold_left upsert_comment rows (comments d)).
Proof.
  induction cs as [|c cs IH]; intros d; simpl.
  - split.
    + intros d' [= <-]. exists []. split; [constructor | done].
    + intros rows Hrows. inversion Hrows; subst. by exists d.
  - split.
    + intros d' H. destruct (comment_values pid c) as [e|row] eqn:E; [done|].
      destruct (proj1 (IH _) _ H) as (rows & Hrows & Hc).
      exists (row :: rows). split; [by constructor | done].
    + intros rows Hrows. inversion Hrows as [|c0 row cs0 rows' Hrow Hrest]; subst.
      rewrite Hrow. destruct (proj2 (IH (insert_or_replace_comment row d)) _ Hrest)
        as (d' & Hd' & Hc).
      by exists d'.
Qed.

(** What [INSERT OR REPLACE] keeps of the rows there were: those whose id
    is not the new row's. *)
Lemma upsert_comment_filter rows c i :
  com_id c = Some i →
  upsert_comment rows c = filter (fun c' => com_id c' ≠ Some i) rows ++ [c].
Proof.
  intros Hi. unfold upsert_comment, insert_or_replace_comment. simpl. f_equal.
  apply list_filter_iff. intros c'. rewrite Hi.
  destruct (com_id c') as [i'|]; [|done].
  destruct (String.eqb_spec i i') as [->|Hne]; split; congruence.
Qed.

Lemma fold_upsert_filter rows : ∀ table,
  Forall (fun c => is_Some (com_id c)) rows →
  fold_left upsert_comment rows table =
  filter (fun c' => com_id c' ∉ com_id <$> rows) table ++ fold_left upsert_comment rows [].
Proof.
  induction rows as [|c rows IH]; intros table Hid; simpl.
  - rewrite app_nil_r. symmetry. clear. induction table as [|c' table IH]; [done|].
    rewrite filter_cons_True by apply not_elem_of_nil. by rewrite IH.
  - apply Forall_cons in Hid as [[i Hi] Hid].
    rewrite (IH (upsert_comment table c)), (IH (upsert_comment [] c)) by done.
    rewrite !(upsert_comment_filter _ c i) by done.
    rewrite filter_nil, app_nil_l, filter_app, list_filter_filter, <- app_assoc.
    f_equal. apply list_filter_iff. intros c'. rewrite Hi, not_elem_of_cons. tauto.
Qed.

Lemma fold_upsert_elem rows : ∀ table c,
  c ∈ fold_left upsert_comment rows table → c ∈ table ∨ c ∈ rows.
Proof.
  induction rows as [|r rows IH]; intros table c; simpl; [by left|].
  intros H. apply IH in H as [H|H]; [|right; by right].
  unfold upsert_comment, insert_or_replace_comment in H. simpl in H.
  apply elem_of_app in H as [H|H].
  - left. by apply list_elem_of_filter in H as [_ H].
  - apply list_elem_of_singleton in H as ->. right. by left.
Qed.

(** Saving the same rows again leaves the table as it is. *)
Lemma fold_upsert_idempotent rows table :
  Forall (fun c => is_Some (com_id c)) rows →
  fold_left upsert_comment rows (fold_left upsert_comment rows table) =
  fold_left upsert_comment rows table.
Proof.
  intros Hid.
  rewrite (fold_upsert_filter rows (fold_left upsert_comment rows table)) by done.
  rewrite (fold_upsert_filter rows table) at 1 by done.
  rewrite (fold_upsert_filter rows table) at 1 by done.
  rewrite filter_app. f_equal.
  assert (filter (fun c' => com_id c' ∉ com_id <$> rows) (fold_left upsert_comment rows []) = [])
    as ->.
  { generalize (fold_upsert_elem rows []).
    generalize (fold_left upsert_comment rows []). intros l Hl.
    induction l as [|c l IH]; [done|].
    rewrite filter_cons_False.
    - apply IH. intros c' Hc'. apply Hl. by right.
    - intros Hn. apply Hn. destruct (Hl c) as [H|H]; [by left| by apply elem_of_nil in H |].
      by apply list_elem_of_fmap_2. }
  rewrite app_nil_r, list_filter_filter. apply list_filter_iff. tauto.
Qed.

Lemma comment_values_id pid c row :
  comment_values pid c = inr row → entries_get "id" c ≠ Some PyNone → is_Some (com_id row).
Proof.
  unfold comment_values.
  destruct (entries_get "id" c) as [i|]; [|done].
  destruct (entries_get "authorname" c) as [a|]; [|done].
  destruct (entries_get "_content" c) as [t|]; [|done].
  destruct (entries_get "datecreate" c) as [dc|]; [|done].
  destruct (bind_text i) as [|i'] eqn:Ei; [done|].
  destruct (bind_text a) as [|a']; [done|].
  destruct (bind_text t) as [|t']; [done|].
  destruct (bind_text dc) as [|dc']; [done|].
  intros [= <-] Hi. simpl. destruct i; simpl in Ei; try done; injection Ei as <-; eauto.
Qed.

Lemma save_comments_cons pid c cs w :
  save_comments pid (c :: cs) w =
  match save_comments_rows pid (c :: cs) (db w) with
  | inl e => Some (Exn e, w)
  | inr d' => Some (Ok tt, after_commit (WrComments pid) d' w)
  end.
Proof.
  unfold save_comments, bind, read_db. cbv beta iota.
  by destruct (save_comments_rows pid (c :: cs) (db w)).
Qed.

(** X11. Saving the comments of a photo a second time changes nothing.
    When no comment carries a null id and [save_comments] has returned,
    calling it again with the same comments returns and leaves storage
    exactly as the first call left it: [INSERT OR REPLACE] on the comment
    id puts every row back in its place, so a photo whose visit is retried
    gets no duplicate comment. *)
Theorem save_comments_idempotent pid cs w w1 :
  (∀ c, c ∈ cs → entries_get "id" c ≠ Some PyNone) →
  save_comments pid cs w = Some (Ok tt, w1) →
  ∃ w2, save_comments pid cs w1 = Some (Ok tt, w2) ∧ db w2 = db w1.
Proof.
  intros Hid H. destruct cs as [|c cs].
  { injection H as <-. by exists w. }
  rewrite save_comments_cons in H.
  destruct (save_comments_rows pid (c :: cs) (db w)) as [e|d1] eqn:E1; [done|].
  injection H as <-.
  destruct (proj1 (save_comments_rows_fold pid (c :: cs) (db w)) d1 E1)
    as (rows & Hrows & Hc1).
  destruct (proj2 (save_comments_rows_fold pid (c :: cs) d1) rows Hrows)
    as (d2 & E2 & Hc2).
  rewrite save_comments_cons.
  change (db (after_commit (WrComments pid) d1 w)) with d1. rewrite E2.
  eexists. split; [reflexivity|].
  change (d2 = d1).
  destruct (save_comments_rows_frame _ _ _ _ E2) as (Hp & Ha & Hl).
  apply database_eq; try done.
  rewrite Hc2, Hc1. apply fold_upsert_idempotent.
  clear -Hid Hrows. induction Hrows as [|c0 row cs0 rows Hrow _ IH]; [constructor|].
  constructor.
  - apply (comment_values_id pid c0); [done|]. apply Hid. by left.
  - apply IH. intros c' Hc'. apply Hid. by right.
Qed.

(** Two comments of photo [p1]. *)
Definition demo_comments : list comment :=
  [[("id", PyStr "c1"); ("authorname", PyStr "ann"); ("_content", PyStr "nice");
    ("datecreate", PyStr "1714557600")];
   [("id", PyStr "c2"); ("authorname", PyStr "bob"); ("_content", PyStr "where?");
    ("datecreate", PyStr "1714557700")]].

Lemma save_comments_idempotent_witness :
  (∀ c, c ∈ demo_comments → entries_get "id" c ≠ Some PyNone) ∧
  ∃ w1, save_comments "p1" demo_comments (start empty_database 0) = Some (Ok tt, w1) ∧
    length (comments (db w1)) = 2%nat ∧
    ∃ w2, save_comments "p1" demo_comments w1 = Some (Ok tt, w2) ∧ db w2 = db w1.
Proof.
  assert (∀ c, c ∈ demo_comments → entries_get "id" c ≠ Some PyNone) as Hid.
  { intros c Hc. unfold demo_comments in Hc.
    apply elem_of_cons in Hc as [->|Hc]; [done|].
    apply elem_of_cons in Hc as [->|Hc]; [done|]. by apply elem_of_nil in Hc. }
  split; [exact Hid|].
  eexists. split; [reflexivity|]. split; [reflexivity|].
  exact (save_comments_idempotent "p1" demo_comments (start empty_database 0) _ Hid eq_refl).
Defined.

(** ** [oauth_downloader.py]: the first download

    [download_album] and [download_all_albums], the download the updater
    builds on: one row per photo, the album kept in the photo's row. *)

(** [save_photo_metadata]: the row of [save_photo_metadata_standalone],
    with the album in its [album_id]. *)
Definition save_photo_metadata (p : photo) (aid : string) (thumbnail_path : option string)
    : M unit :=
  let pid := photo_id p in
  let tags := tags_value p in
  let description := text_value "description" p in
  let title := text_value "title" p in
  let filename := pid +:+ ".jpg" in
  let thumbnail_path := default "" thumbnail_path in
  let date_taken := str_value "datetaken" p in
  let date_uploaded := str_value "dateupload" p in
  let* views := of_sum (views_value p) in
  let url_original := str_value "url_o" p in
  let url_thumbnail := str_value "url_t" p in
  let* title' := of_sum (bind_text title) in
  let* description' := of_sum (bind_text description) in
  let* tags' := of_sum (bind_text tags) in
  let* d := read_db in
  commit (WrPhoto pid)
    (insert_or_replace_photo pid
       {| row_album_id := Some aid; row_title := title'; row_description := description';
          row_filename := filename; row_thumbnail_path := thumbnail_path;
          row_date_taken := date_taken; row_date_uploaded := date_uploaded;
          row_views := views; row_tags := tags';
          row_url_original := url_original; row_url_thumbnail := url_thumbnail |} d).

(** The lines [download_album] and [download_all_albums] print. *)
Inductive line : Type :=
  | LineDownloadingAlbum (title : pyval)
  | LineFoundPhotos (n : nat)
  | LineProcessingPhoto (i n : nat) (title : pyval)
  | LineAlbumDownloaded (title : pyval)
  | LineFoundAlbums (n : nat)
  | LineAlbumFailed (title : pyval) (e : exn)
  | LineAllDownloaded
  | LineDataSaved
  | LineDatabase.

(** What the download does: what the methods it shares with the updater
    do, and its own lines. *)
Inductive step : Type :=
  | Did (e : event)
  | Said (l : line).

(** The downloader at work: storage, the clock, and the steps so far. *)
Record site : Type := {
  site_db : database;
  site_clock : nat;
  site_steps : list step;
}.

Definition D (A : Type) : Type := site → option (outcome A * site).

Definition dret {A} (a : A) : D A := fun s => Some (Ok a, s).

Definition dbind {A B} (m : D A) (f : A → D B) : D B := fun s =>
  match m s with
  | None => None
  | Some (Ok a, s') => f a s'
  | Some (Exn e, s') => Some (Exn e, s')
  end.

Definition dtry {A} (m : D A) (h : exn → D A) : D A := fun s =>
  match m s with
  | None => None
  | Some (Ok a, s') => Some (Ok a, s')
  | Some (Exn e, s') => h e s'
  end.

Notation "'let+' x ':=' m 'in' k" := (dbind m (fun x => k))
  (at level 10, x name, m at level 100, k at level 200).

Definition say (l : line) : D unit := fun s =>
  Some (Ok tt, {| site_db := site_db s; site_clock := site_clock s;
                  site_steps := site_steps s ++ [Said l] |}).

Definition dof_sum {A} (r : exn + A) : D A := fun s =>
  match r with
  | inl e => Some (Exn e, s)
  | inr a => Some (Ok a, s)
  end.

(** The world a method shared with the updater runs in: the methods of
    [FlickrDownloaderOAuth] read and write none of the updater's fields. *)
Definition world_at (s : site) : world :=
  {| db := site_db s;
     self := {| existing_photo_ids := ∅; new_photos_count := 0;
                new_associations_count := 0; skipped_photos_count := 0;
                photostream_new_count := 0 |};
     clock := site_clock s;
     trace := [] |}.

Definition lift {A} (m : M A) : D A := fun s =>
  match m (world_at s) with
  | None => None
  | Some (o, w) =>
      Some (o, {| site_db := db w; site_clock := clock w;
                  site_steps := site_steps s ++ (Did <$> trace w) |})
  end.

(** [album['title']['_content']]. *)
Definition album_title_content (a : album) : exn + pyval :=
  match album_title a with
  | None => inl (KeyError "title")
  | Some (PyDict d) =>
      match entries_get "_content" d with
      | Some v => inr v
      | None => inl (KeyError "_content")
      end
  | Some _ => inl TypeError
  end.

Section Download.

Variable flickr : remote.

(** The [for] loop of [download_album], at its [i]-th photo of [n]. After
    [photo.update(photo_info)] it is the updated [photo['id']] that names
    the thumbnail, the comments and the row. *)
Fixpoint download_album_loop (aid : string) (i n : nat) (ps : list photo) : D unit :=
  match ps with
  | [] => dret tt
  | p :: ps' =>
      let+ _ := say (LineProcessingPhoto i n (title_or "Untitled" p)) in
      let+ photo_info := lift (get_photo_info flickr (photo_id p)) in
      let p := match photo_info with Some info => photo_update p info | None => p end in
      let+ thumbnail_path :=
        lift (download_thumbnail flickr (photo_id p) (default PyNone (photo_get "url_t" p))) in
      let+ cs := lift (get_photo_comments flickr (photo_id p)) in
      let+ _ := lift (save_photo_metadata p aid thumbnail_path) in
      let+ _ := lift (save_comments (photo_id p) cs) in
      download_album_loop aid (S i) n ps'
  end.

(** [download_album]. *)
Definition download_album (fuel : nat) (aid : string) (title : pyval) : D unit :=
  let+ _ := say (LineDownloadingAlbum title) in
  let+ photos := lift (get_album_photos flickr fuel aid) in
  let+ _ := say (LineFoundPhotos (length photos)) in
  let+ _ := lift (save_album_metadata aid title (PyStr "") (length photos)) in
  let+ _ := download_album_loop aid 1 (length photos) photos in
  say (LineAlbumDownloaded title).

(** The [for] loop of [download_all_albums]: the handler builds its line
    from [album['title']['_content']] again. *)
Fixpoint download_all_albums_loop (fuel : nat) (als : list album) : D unit :=
  match als with
  | [] => dret tt
  | a :: als' =>
      let+ _ :=
        dtry (let+ title := dof_sum (album_title_content a) in
              download_album fuel (album_id a) title)
             (fun e =>
                let+ title := dof_sum (album_title_content a) in
                say (LineAlbumFailed title e)) in
      download_all_albums_loop fuel als'
  end.

(** [download_all_albums]. *)
Definition download_all_albums (fuel : nat) : D unit :=
  let+ albums := lift (get_user_albums flickr fuel) in
  let+ _ := say (LineFoundAlbums (length albums)) in
  let+ _ := download_all_albums_loop fuel albums in
  let+ _ := say LineAllDownloaded in
  let+ _ := say LineDataSaved in
  say LineDatabase.

End Download.

Lemma dbind_Some {A B} (m : D A) (f : A → D B) s o s' :
  dbind m f s = Some (o, s') →
  (∃ a s1, m s = Some (Ok a, s1) ∧ f a s1 = Some (o, s')) ∨
  (∃ e, m s = Some (Exn e, s') ∧ o = Exn e).
Proof.
  unfold dbind. destruct (m s) as [[[a|e] s1]|]; intros H.
  - left. eauto.
  - right. inversion H; subst. eauto.
  - discriminate.
Qed.

Lemma dbind_Ok {A B} (m : D A) (f : A → D B) s b s' :
  dbind m f s = Some (Ok b, s') →
  ∃ a s1, m s = Some (Ok a, s1) ∧ f a s1 = Some (Ok b, s').
Proof.
  intros H. apply dbind_Some in H as [H | (e & _ & H)]; [exact H | discriminate].
Qed.

Lemma dtry_Some {A} (m : D A) (h : exn → D A) s o s' :
  dtry m h s = Some (o, s') →
  (∃ a, m s = Some (Ok a, s') ∧ o = Ok a) ∨
  (∃ e s1, m s = Some (Exn e, s1) ∧ h e s1 = Some (o, s')).
Proof.
  unfold dtry. destruct (m s) as [[[a|e] s1]|]; intros H.
  - left. inversion H; subst. eauto.
  - right. eauto.
  - discriminate.
Qed.

Lemma say_Some l s o s' : say l s = Some (o, s') → o = Ok tt ∧ site_db s' = site_db s.
Proof. by intros [= <- <-]. Qed.

Lemma dof_sum_Some {A} (r : exn + A) s o s' :
  dof_sum r s = Some (o, s') →
  s' = s ∧ ((∃ e, r = inl e ∧ o = Exn e) ∨ (∃ a, r = inr a ∧ o = Ok a)).
Proof. destruct r as [e|a]; intros [= <- <-]; eauto. Qed.

Lemma lift_Some {A} (m : M A) s o s' :
  lift m s = Some (o, s') →
  ∃ w', m (world_at s) = Some (o, w') ∧ site_db s' = db w'.
Proof.
  unfold lift. destruct (m (world_at s)) as [[o' w']|]; [|done].
  intros [= <- <-]. by exists w'.
Qed.

(** Storage is as it was. *)
Definition same_storage (w w' : world) : Prop := db w' = db w.

Lemma same_storage_refl w : same_storage w w.
Proof. done. Qed.

Lemma same_storage_quiet evs w : Forall quiet evs → same_storage w (with_events evs w).
Proof. done. Qed.

Lemma lift_same_storage {A} (m : M A) s o s' :
  respects same_storage m → lift m s = Some (o, s') → site_db s' = site_db s.
Proof.
  intros Hm H. apply lift_Some in H as (w' & H & ->). apply (Hm _ _ _ H).
Qed.

Lemma same_storage_trans w1 w2 w3 :
  same_storage w1 w2 → same_storage w2 w3 → same_storage w1 w3.
Proof. unfold same_storage. congruence. Qed.

Lemma save_photo_metadata_inv p aid thumb w o w' :
  save_photo_metadata p aid thumb w = Some (o, w') →
  (∃ e, o = Exn e ∧ w' = w) ∨
  (∃ row, o = Ok tt ∧ row_album_id row = Some aid ∧
     row_thumbnail_path row = default "" thumb ∧
     w' = after_commit (WrPhoto (photo_id p))
            (insert_or_replace_photo (photo_id p) row (db w)) w).
Proof.
  unfold save_photo_metadata, bind.
  destruct (views_value p) as [e|views]; simpl; [intros [= <- <-]; eauto|].
  destruct (bind_text (text_value "title" p)) as [e|title']; simpl; [intros [= <- <-]; eauto|].
  destruct (bind_text (text_value "description" p)) as [e|description']; simpl;
    [intros [= <- <-]; eauto|].
  destruct (bind_text (tags_value p)) as [e|tags']; simpl; [intros [= <- <-]; eauto|].
  intros [= <- <-]. right. eexists. split; [done|].
  split; [|split]; [| |reflexivity]; done.
Qed.

(** The row of [pid] in storage [d] carries album [aid]. *)
Definition in_album_row (aid pid : string) (d : database) : Prop :=
  ∃ row, photos d !! pid = Some row ∧ row_album_id row = Some aid.

Lemma download_album_loop_Ok flickr aid ps :
  detail_matches flickr →
  ∀ i n s s',
    download_album_loop flickr aid i n ps s = Some (Ok tt, s') →
    photo_albums (site_db s') = photo_albums (site_db s) ∧
    (∀ pid, in_album_row aid pid (site_db s) → in_album_row aid pid (site_db s')) ∧
    ∀ p, p ∈ ps → in_album_row aid (photo_id p) (site_db s').
Proof.
  intros Hm. induction ps as [|p ps IH]; intros i n s s' H; simpl in H.
  { injection H as <-. split; [done|]. split; [done|].
    intros p Hp. by apply elem_of_nil in Hp. }
  apply dbind_Ok in H as ([] & s1 & H1 & H). apply say_Some in H1 as [_ Hd1].
  apply dbind_Ok in H as (info & s2 & H2 & H).
  assert (site_db s2 = site_db s1) as Hd2.
  { eapply lift_same_storage; [|exact H2].
    apply respects_get_photo_info;
      [apply same_storage_refl | apply same_storage_trans | apply same_storage_quiet]. }
  assert (photo_id (match info with Some i0 => photo_update p i0 | None => p end) = photo_id p)
    as Hid.
  { apply lift_Some in H2 as (w2 & H2 & _).
    unfold get_photo_info, bind, call, emit in H2. simpl in H2.
    destruct (photos_getInfo flickr (photo_id p)) as [what|message|i0] eqn:E;
      [done| |]; injection H2 as <- _; [done|]. simpl. by apply Hm. }
  set (p' := match info with Some i0 => photo_update p i0 | None => p end) in *.
  apply dbind_Ok in H as (thumb & s3 & H3 & H).
  assert (site_db s3 = site_db s2) as Hd3.
  { eapply lift_same_storage; [|exact H3].
    apply respects_download_thumbnail;
      [apply same_storage_refl | apply same_storage_trans | apply same_storage_quiet]. }
  apply dbind_Ok in H as (cs & s4 & H4 & H).
  assert (site_db s4 = site_db s3) as Hd4.
  { eapply lift_same_storage; [|exact H4].
    apply respects_get_photo_comments;
      [apply same_storage_refl | apply same_storage_trans | apply same_storage_quiet]. }
  apply dbind_Ok in H as ([] & s5 & H5 & H).
  apply lift_Some in H5 as (w5 & H5 & Hd5).
  apply save_photo_metadata_inv in H5 as [(e & [=] & _) | (row & _ & Hrow & _ & ->)].
  simpl in Hd5.
  apply dbind_Ok in H as ([] & s6 & H6 & H).
  apply lift_Some in H6 as (w6 & H6 & Hd6).
  assert (photos (db w6) = photos (site_db s5) ∧
          photo_albums (db w6) = photo_albums (site_db s5)) as [Hp6 Hl6].
  { apply save_comments_inv in H6
      as [(e & _ & ->) | [(_ & ->) | (d' & _ & -> & Hp & _ & Hl)]]; done. }
  destruct (IH _ _ _ _ H) as (Hl & Hkeep & Hall).
  assert (∀ pid, in_album_row aid pid (site_db s) → in_album_row aid pid (site_db s6))
    as Hstep.
  { intros pid (r & Hr & Ha). unfold in_album_row.
    rewrite Hd6, Hp6, Hd5. simpl. rewrite Hd4, Hd3, Hd2, Hd1.
    destruct (decide (pid = photo_id p')) as [->|Hne].
    - exists row. by rewrite lookup_insert_eq.
    - exists r. by rewrite lookup_insert_ne. }
  split; [|split].
  - rewrite Hl, Hd6, Hl6, Hd5. simpl. by rewrite Hd4, Hd3, Hd2, Hd1.
  - intros pid Hpid. by apply Hkeep, Hstep.
  - intros q Hq. apply elem_of_cons in Hq as [->|Hq]; [|by apply Hall].
    apply Hkeep. unfold in_album_row. rewrite Hd6, Hp6, Hd5. simpl.
    exists row. rewrite <- Hid. by rewrite lookup_insert_eq.
Qed.

(** X12. The first download keeps the album in the photo's row and writes
    no link. When the detail the service returns for a photo carries that
    photo's id and [download_album] returns, [photo_albums] is untouched
    and the row of every photo the album lists carries this album in
    [album_id], whatever album it carried before: of the albums a photo is
    in, storage remembers the one downloaded last. *)
Theorem download_album_stores_album_id flickr fuel aid title s s' :
  detail_matches flickr →
  download_album flickr fuel aid title s = Some (Ok tt, s') →
  photo_albums (site_db s') = photo_albums (site_db s) ∧
  ∃ listed evs,
    get_album_photos_from flickr fuel aid 1 [] [] = Some (Ok listed, evs) ∧
    ∀ p, p ∈ listed →
      ∃ row, photos (site_db s') !! photo_id p = Some row ∧ row_album_id row = Some aid.
Proof.
  intros Hm H. unfold download_album in H.
  apply dbind_Ok in H as ([] & s1 & H1 & H). apply say_Some in H1 as [_ Hd1].
  apply dbind_Ok in H as (listed & s2 & H2 & H).
  apply lift_Some in H2 as (w2 & H2 & Hd2).
  unfold get_album_photos, replay in H2.
  destruct (get_album_photos_from flickr fuel aid 1 [] []) as [[o evs]|] eqn:El; [|done].
  injection H2 as -> <-. simpl in Hd2.
  apply dbind_Ok in H as ([] & s3 & H3 & H). apply say_Some in H3 as [_ Hd3].
  apply dbind_Ok in H as ([] & s4 & H4 & H).
  apply lift_Some in H4 as (w4 & H4 & Hd4).
  apply save_album_metadata_Ok in H4 as (_ & Hp4 & Hl4 & _). simpl in Hp4, Hl4.
  apply dbind_Ok in H as ([] & s5 & H5 & H). apply say_Some in H as [_ Hd6].
  destruct (download_album_loop_Ok flickr aid listed Hm _ _ _ _ H5) as (Hl & _ & Hall).
  split.
  - rewrite Hd6, Hl, Hd4, Hl4, Hd3, Hd2, Hd1. done.
  - exists listed, evs. split; [done|]. intros p Hp. rewrite Hd6. by apply Hall.
Qed.

(** The albums left of a download: album [a2] lists the photos of "Trip"
    too. *)
Definition two_albums : remote :=
  {| people_getPhotos := people_getPhotos Demo.flickr;
     photosets_getList :=
       Demo.one_page
         [Demo.trip;
          {| album_id := "a2"; album_title := Some (PyDict [("_content", PyStr "Best")]) |}];
     photosets_getPhotos := photosets_getPhotos Demo.flickr;
     photos_getInfo := photos_getInfo Demo.flickr;
     photos_comments_getList := photos_comments_getList Demo.flickr;
     thumbnail_get := thumbnail_get Demo.flickr |}.

Lemma two_albums_detail_matches : detail_matches two_albums.
Proof. intros pid info [= <-]. done. Qed.

(** The downloader before its first step, over storage [d]. *)
Definition site_start (d : database) (t : nat) : site :=
  {| site_db := d; site_clock := t; site_steps := [] |}.

(** The site a download leaves, [s] when it does not return. *)
Definition site_of {A} (r : option (outcome A * site)) (s : site) : site :=
  match r with
  | Some (_, s') => s'
  | None => s
  end.

(** Album [a2] downloaded after "Trip": the rows of [p1] and [p2] carry
    [a2]. *)
Lemma download_album_stores_album_id_witness :
  detail_matches two_albums ∧
  ∃ s1 s2,
    download_album two_albums 3 "a1" (PyStr "Trip") (site_start empty_database 0)
      = Some (Ok tt, s1) ∧
    download_album two_albums 3 "a2" (PyStr "Best") s1 = Some (Ok tt, s2) ∧
    photo_albums (site_db s2) = [] ∧
    ∃ listed evs,
      get_album_photos_from two_albums 3 "a2" 1 [] [] = Some (Ok listed, evs) ∧
      ∀ p, p ∈ listed →
        ∃ row, photos (site_db s2) !! photo_id p = Some row ∧ row_album_id row = Some "a2".
Proof.
  split; [exact two_albums_detail_matches|].
  pose (s0 := site_start empty_database 0).
  pose (s1 := site_of (download_album two_albums 3 "a1" (PyStr "Trip") s0) s0).
  assert (download_album two_albums 3 "a1" (PyStr "Trip") s0 = Some (Ok tt, s1)) as E1
    by (vm_compute; reflexivity).
  assert (photo_albums (site_db s1) = []) as Hl1 by (vm_compute; reflexivity).
  assert (fst <$> download_album two_albums 3 "a2" (PyStr "Best") s1 = Some (Ok tt)) as H2
    by (vm_compute; reflexivity).
  clearbody s1.
  destruct (download_album two_albums 3 "a2" (PyStr "Best") s1) as [[o s2]|] eqn:E2;
    [|discriminate].
  cbn [fmap option_fmap option_map fst] in H2. injection H2 as ->.
  exists s1, s2. split; [exact E1|]. split; [exact E2|].
  destruct (download_album_stores_album_id two_albums 3 "a2" (PyStr "Best") s1 s2
              two_albums_detail_matches E2) as [Hl Hrows].
  split; [by rewrite Hl | exact Hrows].
Defined.

Lemma download_all_albums_loop_Exn flickr fuel als : ∀ s e s',
  download_all_albums_loop flickr fuel als s = Some (Exn e, s') →
  ∃ a, a ∈ als ∧ album_title_content a = inl e.
Proof.
  induction als as [|a als IH]; intros s e s' H; simpl in H; [done|].
  apply dbind_Some in H as [([] & s1 & H1 & H) | (e' & H1 & [= <-])].
  - destruct (IH _ _ _ H) as (b & Hb & Ht). exists b. split; [by right | done].
  - apply dtry_Some in H1 as [(a' & _ & [=]) | (e' & s1 & _ & H1)].
    apply dbind_Some in H1 as [(title & s2 & _ & H1) | (e'' & H1 & [= <-])].
    + by apply say_Some in H1 as [[=] _].
    + apply dof_sum_Some in H1 as [_ [(e3 & Ht & [= <-]) | (t' & _ & [=])]].
      exists a. split; [by left | done].
Qed.

(** X13. What escapes [download_all_albums]. The album listing is fetched
    outside any [try], so what it raises ends the download; inside the
    loop, whatever an album raises is caught and printed and the next album
    is downloaded, except when [album['title']['_content']] itself cannot
    be read: the handler evaluates it again for its message and the
    exception ([KeyError], or [TypeError] for a title that is no dict)
    leaves the loop. *)
Theorem download_all_albums_escapes flickr fuel s e s' :
  download_all_albums flickr fuel s = Some (Exn e, s') →
  (∃ evs, get_user_albums_from flickr fuel 1 [] [EvPrint MsgFetchingAlbums] =
            Some (Exn e, evs)) ∨
  (∃ als evs a,
     get_user_albums_from flickr fuel 1 [] [EvPrint MsgFetchingAlbums] = Some (Ok als, evs) ∧
     a ∈ als ∧ album_title_content a = inl e).
Proof.
  unfold download_all_albums. intros H.
  apply dbind_Some in H as [(als & s1 & H1 & H) | (e' & H1 & [= <-])].
  - right. apply lift_Some in H1 as (w1 & H1 & _).
    unfold get_user_albums, replay in H1.
    destruct (get_user_albums_from flickr fuel 1 [] [EvPrint MsgFetchingAlbums])
      as [[o evs]|]; [|done].
    injection H1 as -> _.
    apply dbind_Some in H as [([] & s2 & _ & H) | (e' & H2 & _)];
      [|by apply say_Some in H2 as [[=] _]].
    apply dbind_Some in H as [([] & s3 & _ & H) | (e' & H3 & [= <-])].
    + exfalso.
      apply dbind_Some in H as [([] & s4 & _ & H) | (e' & H4 & _)];
        [|by apply say_Some in H4 as [[=] _]].
      apply dbind_Some in H as [([] & s5 & _ & H) | (e' & H5 & _)];
        [|by apply say_Some in H5 as [[=] _]].
      by apply say_Some in H as [[=] _].
    + destruct (download_all_albums_loop_Exn _ _ _ _ _ _ H3) as (a & Ha & Ht).
      by exists als, evs, a.
  - left. apply lift_Some in H1 as (w1 & H1 & _).
    unfold get_user_albums, replay in H1.
    destruct (get_user_albums_from flickr fuel 1 [] [EvPrint MsgFetchingAlbums])
      as [[o evs]|]; [|done].
    injection H1 as -> _. by exists evs.
Qed.

(** Over [untitled], whose second album has no [title], the download ends
    in [KeyError('title')]. *)
Lemma download_all_albums_escapes_witness :
  ∃ s',
    download_all_albums untitled 3 (site_start empty_database 0) =
      Some (Exn (KeyError "title"), s') ∧
    ∃ als evs a,
      get_user_albums_from untitled 3 1 [] [EvPrint MsgFetchingAlbums] = Some (Ok als, evs) ∧
      a ∈ als ∧ album_title_content a = inl (KeyError "title").
Proof.
  assert (fst <$> download_all_albums untitled 3 (site_start empty_database 0)
          = Some (Exn (KeyError "title"))) as Hrun by (vm_compute; reflexivity).
  destruct (download_all_albums untitled 3 (site_start empty_database 0))
    as [[o s']|] eqn:E; [|discriminate].
  cbn [fmap option_fmap option_map fst] in Hrun. injection Hrun as ->.
  exists s'. split; [reflexivity|].
  destruct (download_all_albums_escapes untitled 3 (site_start empty_database 0)
              (KeyError "title") s' E) as [(evs & Hl) | Hex].
  - exfalso. vm_compute in Hl. discriminate.
  - exact Hex.
Defined.

(** ** The row of an album after its sweep *)

(** The table of albums is as it was. *)
Definition same_albums (w w' : world) : Prop := albums (db w') = albums (db w).

Lemma same_albums_same w w' : db w' = db w → same_albums w w'.
Proof. unfold same_albums. by intros ->. Qed.

Lemma same_albums_trans w1 w2 w3 : same_albums w1 w2 → same_albums w2 w3 → same_albums w1 w3.
Proof. unfold same_albums. congruence. Qed.

Lemma same_albums_download_album_photos flickr ps aid title n :
  respects same_albums (download_album_photos flickr ps aid title n).
Proof.
  apply respects_download_album_photos.
  - intros w. by apply same_albums_same.
  - apply same_albums_trans.
  - intros p aid' title'. apply respects_download_album_photo.
    + intros w. by apply same_albums_same.
    + apply same_albums_trans.
    + intros evs w _. by apply same_albums_same.
    + intros pid w o w' [= <- <-]. by apply same_albums_same.
    + intros w o w' [= <- <-]. by apply same_albums_same.
    + intros w o w' [= <- <-]. by apply same_albums_same.
    + intros w o w' [= <- <-]. by apply same_albums_same.
    + intros pid cs w o w' H.
      apply save_comments_inv in H
        as [(e & _ & ->) | [(_ & ->) | (d' & _ & -> & _ & Ha & _)]]; done.
    + intros p0 aid0 thumb w o w' H.
      apply save_photo_metadata_junction_inv in H as [(e & _ & -> & _) | (row & _ & _ & ->)];
        [done|].
      unfold same_albums. simpl. unfold insert_or_ignore_link. by destruct (has_link _ _ _).
Qed.

(** X14. The row an album sweep leaves in [albums]. When
    [update_album_incremental] returns, the row of the album holds the
    number of photos the listing returned as [photo_count], an empty
    description, and the two readings of the clock taken by this sweep as
    [created_date] and [updated_date]: [INSERT OR REPLACE] resets
    [created_date] at every sync. *)
Theorem album_row_after_sweep flickr fuel aid title w w' :
  update_album_incremental flickr fuel aid title w = Some (Ok tt, w') →
  ∃ row listed evs,
    albums (db w') !! aid = Some row ∧
    get_album_photos_from flickr fuel aid 1 [] [] = Some (Ok listed, evs) ∧
    alb_photo_count row = Z.of_nat (length listed) ∧
    alb_description row = Some "" ∧
    bind_text title = inr (alb_title row) ∧
    alb_created_date row = clock w ∧ alb_updated_date row = S (clock w).
Proof.
  intros H. unfold update_album_incremental in H.
  apply bind_Ok in H as ([] & w1 & H1 & H). apply print_Some in H1 as [_ ->].
  apply bind_Ok in H as (listed & w2 & H2 & H).
  unfold get_album_photos, replay in H2.
  destruct (get_album_photos_from flickr fuel aid 1 [] []) as [[o evs]|] eqn:El; [|done].
  injection H2 as -> <-.
  apply bind_Ok in H as ([] & w3 & H3 & H). apply print_Some in H3 as [_ ->].
  apply bind_Ok in H as ([] & w4 & H4 & H).
  pose proof H4 as H4'.
  apply save_album_metadata_Ok in H4' as ((text & Hb) & _).
  rewrite (save_album_metadata_run _ _ text) in H4 by done.
  injection H4 as <-.
  apply bind_Ok in H as (m & w5 & H5 & H).
  apply same_albums_download_album_photos in H5. unfold same_albums in H5. simpl in H5.
  assert (db w' = db w5) as Hdb
    by (destruct (0 <? m)%nat; apply print_Some in H as [_ ->]; done).
  eexists _, listed, evs. rewrite Hdb, H5, lookup_insert_eq.
  split; [reflexivity|]. by repeat split.
Qed.

(** Album "Trip" swept at clock reading 7. *)
Lemma album_row_after_sweep_witness :
  ∃ w' row,
    update_album_incremental Demo.flickr 3 "a1" (PyStr "Trip") (start Demo.stored_p1 7)
      = Some (Ok tt, w') ∧
    albums (db w') !! "a1" = Some row ∧
    alb_photo_count row = 2 ∧ alb_created_date row = 7%nat.
Proof.
  assert (fst <$> update_album_incremental Demo.flickr 3 "a1" (PyStr "Trip")
                    (start Demo.stored_p1 7) = Some (Ok tt)) as Hrun
    by (vm_compute; reflexivity).
  destruct (update_album_incremental Demo.flickr 3 "a1" (PyStr "Trip")
              (start Demo.stored_p1 7)) as [[o w']|] eqn:E; [|discriminate].
  cbn [fmap option_fmap option_map fst] in Hrun. injection Hrun as ->.
  destruct (album_row_after_sweep Demo.flickr 3 "a1" (PyStr "Trip")
              (start Demo.stored_p1 7) w' E)
    as (row & listed & evs & Hrow & Hl & Hn & _ & _ & Hc & _).
  exists w', row. split; [reflexivity|]. split; [exact Hrow|].
  vm_compute in Hl. injection Hl as <- _. split; [exact Hn | exact Hc].
Defined.

(** ** [server.py]: the detail of a photo, read from this storage *)

(** The columns [init_database] gives the table [comments], and the field
    of a row each one names ([CREATE TABLE IF NOT EXISTS] leaves a table
    that exists as it is). *)
Definition comments_columns : list (string * (comment_row → option string)) :=
  [("id", com_id); ("photo_id", fun c => Some (com_photo_id c)); ("author", com_author);
   ("comment", com_comment); ("date_created", com_date_created)].

(** The names under which every table has its row number. *)
Definition rowid_names : list string := ["rowid"; "oid"; "_rowid_"].

(** Column names are matched without regard to case. *)
Definition same_name (a b : string) : bool :=
  String.eqb (PyLib.upper a) (PyLib.upper b).

(** [a <= b] on the values of a [TEXT] column: [NULL] first, text by its
    bytes. *)
Definition text_le (a b : option string) : bool :=
  match a, b with
  | None, _ => true
  | Some _, None => false
  | Some x, Some y => String.leb x y
  end.

Fixpoint insert_by {A} (key : A → option string) (x : A) (l : list A) : list A :=
  match l with
  | [] => [x]
  | y :: l' => if text_le (key x) (key y) then x :: y :: l' else y :: insert_by key x l'
  end.

(** [ORDER BY] a text column, rows of equal value in table order. *)
Definition sort_by {A} (key : A → option string) (l : list A) : list A :=
  foldr (insert_by key) [] l.

(** [SELECT * FROM comments WHERE photo_id = ? ORDER BY column]: a name
    that is no column of the table is refused when the statement is
    prepared ([sqlite3.OperationalError: no such column]). *)
Definition select_comments (pid column : string) (d : database) : exn + list comment_row :=
  let rows := filter (fun c => com_photo_id c = pid) (comments d) in
  if existsb (same_name column) rowid_names then inr rows
  else
    match find (fun c => same_name column (fst c)) comments_columns with
    | Some (_, key) => inr (sort_by key rows)
    | None => inl SqlError
    end.

(** [SELECT DISTINCT a.id, a.title FROM albums a JOIN photo_albums pa
    ON a.id = pa.album_id WHERE pa.photo_id = ? ORDER BY a.title]. SQL
    leaves the order of albums of equal title open; here they come in the
    order of the map of albums. *)
Definition select_albums_of (pid : string) (d : database) : list (string * option string) :=
  sort_by snd
    (remove_dups
       (flat_map
          (fun a : string * album_row =>
             (fun _ => (fst a, alb_title (snd a))) <$>
               filter (fun l => link_album_id l = fst a ∧ link_photo_id l = pid)
                      (photo_albums d))
          (map_to_list (albums d)))).

(** The dict [get_photo_details] returns. *)
Record photo_details : Type := {
  details_id : string;
  details_photo : photo_row;
  details_albums : list (string * option string);
  details_comments : list comment_row;
}.

(** [EnhancedFlickrServer.get_photo_details]. *)
Definition get_photo_details (pid : string) (d : database) : exn + option photo_details :=
  match photos d !! pid with
  | None => inr None
  | Some row =>
      let photo_albums := select_albums_of pid d in
      match select_comments pid "comment_date" d with
      | inl e => inl e
      | inr cs =>
          inr (Some {| details_id := pid; details_photo := row;
                       details_albums := photo_albums; details_comments := cs |})
      end
  end.

(** What the route [/api/photos/<photo_id>] answers. *)
Inductive reply : Type :=
  | Json200 (photo : photo_details)
  | NotFound404
  | Error500 (e : exn).

Definition photo_details_route (pid : string) (d : database) : reply :=
  match get_photo_details pid d with
  | inl e => Error500 e
  | inr (Some photo) => Json200 photo
  | inr None => NotFound404
  end.

(** X15. The photo-detail endpoint never serves a photo of this storage.
    [get_photo_details] orders the comments by [comment_date], and the
    table [comments] that [init_database] creates and [save_comments]
    fills has no such column (its date is [date_created]): for every photo
    storage holds, whatever a sync has written, the query is refused and
    the route answers 500; for any other id it answers 404. *)
Theorem photo_details_never_served pid d :
  photo_details_route pid d =
  match photos d !! pid with
  | Some _ => Error500 SqlError
  | None => NotFound404
  end.
Proof.
  unfold photo_details_route, get_photo_details.
  destruct (photos d !! pid) as [row|]; [|done].
  assert (select_comments pid "comment_date" d = inl SqlError) as -> by reflexivity.
  done.
Qed.

(** ** A visit that fails, and what the counters say of storage *)

Lemma save_photo_metadata_junction_Ok p aid thumb w w' :
  save_photo_metadata_junction p aid thumb w = Some (Ok tt, w') →
  self w' = self w ∧
  ∃ row, row_thumbnail_path row = default "" thumb ∧
    photos (db w') = <[photo_id p := row]> (photos (db w)) ∧
    ∀ k, k ∈ link_keys (db w') ↔ k = (photo_id p, aid) ∨ k ∈ link_keys (db w).
Proof.
  intros H. apply save_photo_metadata_junction_inv in H
    as [(e & [=] & _) | (row & _ & Hrow & ->)].
  split; [done|]. exists row. split; [done|]. simpl.
  rewrite photos_insert_or_ignore_link. split; [done|].
  intros k. rewrite insert_or_ignore_link_keys. simpl.
  destruct (has_link (photo_id p) aid _) eqn:E.
  - apply has_link_spec in E. split; [by right | by intros [->|?]].
  - rewrite elem_of_app, list_elem_of_singleton. unfold link_key, link_keys. simpl. tauto.
Qed.

Lemma save_photo_metadata_junction_Exn p aid thumb w e w' :
  save_photo_metadata_junction p aid thumb w = Some (Exn e, w') → w' = w.
Proof.
  intros H.
  by apply save_photo_metadata_junction_inv in H as [(e' & _ & -> & _) | (row & [=] & _)].
Qed.

(** X17. What a visit that raises leaves behind. A photostream visit that
    raises has touched neither the index nor a counter nor a photo row. An
    album visit that raises has written no photo row and no link either,
    but when the photo was not known and its detail was fetched, the photo
    is already in the index and counted in [new_photos_count]: the album
    path adds and counts before it saves, the photostream path after. *)
Theorem failed_visit_accounting flickr p aid title w e w' :
  (download_photostream_photo flickr p w = Some (Exn e, w') →
   self w' = self w ∧ photos (db w') = photos (db w) ∧
   photo_albums (db w') = photo_albums (db w)) ∧
  (download_album_photo flickr p aid title w = Some (Exn e, w') →
   photos (db w') = photos (db w) ∧ photo_albums (db w') = photo_albums (db w) ∧
   (self w' = self w ∨
    ((photo_id p ∉ existing_photo_ids (self w)) ∧
     self w' = u_new_photo (u_index_add (photo_id p) (self w))))).
Proof.
  split; intros H.
  - destruct (decide (photo_id p ∈ existing_photo_ids (self w))) as [Hk|Hk].
    { by rewrite download_photostream_photo_known in H. }
    rewrite download_photostream_photo_new in H by done.
    destruct (fetch_new_photo _ _ _) as [[[fetched|e'] w1]|] eqn:Hf; [| |done].
    + destruct (fetch_new_photo_frame _ _ _ _ _ Hf) as (Hs & _ & Hp & _ & Hl & _).
      destruct (save_photo_metadata_standalone _ _ _) as [[[[]|e'] w2]|] eqn:Hsv; [done| |done].
      apply save_photo_metadata_standalone_inv in Hsv as [(e2 & _ & ->) | (row & [=] & _)].
      by injection H as _ <-.
    + injection H as _ <-.
      by destruct (fetch_new_photo_frame _ _ _ _ _ Hf) as (Hs & _ & Hp & _ & Hl & _).
  - destruct (decide (photo_id p ∈ existing_photo_ids (self w))) as [Hk|Hk].
    { destruct (has_link (photo_id p) aid (db w)) eqn:Hl.
      - by rewrite download_album_photo_linked in H.
      - rewrite download_album_photo_unlinked in H by done.
        destruct (save_photo_metadata_junction _ _ _ _) as [[[[]|e'] w1]|] eqn:Hs;
          [done| |done].
        apply save_photo_metadata_junction_Exn in Hs as ->. injection H as _ <-.
        split; [done|]. split; [done|]. by left. }
    rewrite download_album_photo_new in H by done.
    destruct (fetch_new_photo _ _ _) as [[[fetched|e'] w1]|] eqn:Hf; [| |done].
    + destruct (fetch_new_photo_frame _ _ _ _ _ Hf) as (Hs & _ & Hp & _ & Hl & _).
      destruct (save_photo_metadata_junction _ _ _ _) as [[[[]|e'] w2]|] eqn:Hsv;
        [done| |done].
      apply save_photo_metadata_junction_Exn in Hsv as ->. injection H as _ <-.
      split; [done|]. split; [done|]. right. split; [done|]. simpl. by rewrite Hs.
    + injection H as _ <-.
      destruct (fetch_new_photo_frame _ _ _ _ _ Hf) as (Hs & _ & Hp & _ & Hl & _).
      split; [done|]. split; [done|]. by left.
Qed.

(** The visit of [p5], whose [views] is no integer, in album "Trip": it
    raises, and [p5] is counted and indexed with no row in storage. *)
Lemma failed_visit_accounting_witness :
  ∃ w',
    download_album_photo Demo.odd (Demo.mk "p5" [("views", PyStr "1,234")]) "a1"
      (PyStr "Trip") (start empty_database 0) = Some (Exn ValueError, w') ∧
    photos (db w') = ∅ ∧ new_photos_count (self w') = 1%nat ∧
    "p5" ∈ existing_photo_ids (self w').
Proof.
  assert (fst <$> download_album_photo Demo.odd (Demo.mk "p5" [("views", PyStr "1,234")]) "a1"
                    (PyStr "Trip") (start empty_database 0) = Some (Exn ValueError))
    as Hrun by (vm_compute; reflexivity).
  destruct (download_album_photo Demo.odd (Demo.mk "p5" [("views", PyStr "1,234")]) "a1"
              (PyStr "Trip") (start empty_database 0)) as [[o w']|] eqn:E; [|discriminate].
  cbn [fmap option_fmap option_map fst] in Hrun. injection Hrun as ->.
  exists w'. split; [reflexivity|].
  destruct (proj2 (failed_visit_accounting Demo.odd (Demo.mk "p5" [("views", PyStr "1,234")])
                     "a1" (PyStr "Trip") (start empty_database 0) ValueError w') E)
    as (Hp & _ & [Hs | [_ Hs]]).
  - exfalso. assert (new_photos_count (self w') = 0%nat) as H0 by (by rewrite Hs).
    assert ((fun r => new_photos_count (self (snd r))) <$>
              download_album_photo Demo.odd (Demo.mk "p5" [("views", PyStr "1,234")]) "a1"
                (PyStr "Trip") (start empty_database 0) = Some 1%nat) as H1
      by (vm_compute; reflexivity).
    rewrite E in H1. cbn [fmap option_fmap option_map snd] in H1. congruence.
  - split; [by rewrite Hp|]. rewrite Hs. simpl. split; [done|]. set_solver.
Defined.

(** A run keeps the index over the rows of [photos]. *)
Definition keeps_cover (w w' : world) : Prop :=
  index_covers_storage w → index_covers_storage w'.

Lemma keeps_cover_same w w' :
  photos (db w') = photos (db w) → self w' = self w → keeps_cover w w'.
Proof. unfold keeps_cover, index_covers_storage. by intros -> ->. Qed.

Lemma keeps_cover_trans w1 w2 w3 : keeps_cover w1 w2 → keeps_cover w2 w3 → keeps_cover w1 w3.
Proof. unfold keeps_cover. tauto. Qed.

Lemma keeps_cover_comprehensive_update flickr fuel :
  detail_matches flickr → respects keeps_cover (comprehensive_update flickr fuel).
Proof.
  intros Hm. apply respects_comprehensive_update.
  - intros w. by apply keeps_cover_same.
  - apply keeps_cover_trans.
  - intros evs w _. by apply keeps_cover_same.
  - intros w o w' [= <- <-]. by apply keeps_cover_same.
  - intros aid title description n w o w' H.
    apply save_album_metadata_inv in H as [(e & _ & ->) | (row & _ & ->)];
      by apply keeps_cover_same.
  - intros p w o w' H. exact (proj1 (download_photostream_photo_post flickr p w o w' Hm H)).
  - intros p aid title w o w' H.
    exact (proj1 (download_album_photo_post flickr p aid title w o w' Hm H)).
Qed.

(** The index at the end of a run that gave up on nothing is the set of
    the stored ids. *)
Lemma comprehensive_update_clean_index flickr fuel d t w1 :
  detail_matches flickr →
  comprehensive_update flickr fuel (start d t) = Some (Ok tt, w1) →
  clean w1 → index_is_stored w1.
Proof.
  intros Hm H Hc. unfold comprehensive_update in H.
  apply bind_Ok in H as ([] & wa & Ha & H). apply print_Some in Ha as [_ ->].
  apply bind_Ok in H as (t0 & wb & Hb & H). injection Hb as <- <-.
  apply bind_Ok in H as ([] & wc & Hps & H).
  apply bind_Ok in H as ([] & wd & Hal & H).
  apply bind_Ok in H as (t1 & we & He & H). injection He as <- <-.
  apply bind_Ok in H as (u & wf & Hf & H). injection Hf as <- <-.
  apply bind_Ok in H as ([] & wg & Hg & H). apply print_Some in Hg as [_ ->].
  assert (db w1 = db wd ∧ self w1 = self wd ∧ ∃ evs, trace w1 = trace wd ++ evs)
    as (Hdb & Hself & evs1 & Ht1).
  { match type of H with (if ?c then _ else _) _ = _ => destruct c end;
      apply print_Some in H as [_ ->]; simpl; (split; [done|]); (split; [done|]);
      eexists; by rewrite <- app_assoc. }
  assert (clean wd) as Hcd.
  { unfold clean in *. rewrite Ht1, Forall_app in Hc. by destruct Hc. }
  assert (grows wc wd) as Hgd
    by apply (stable_update_albums grows flickr fuel grows_stable _ _ _ Hal).
  assert (clean wc) as Hcc by (by eapply grows_clean).
  destruct (update_photostream_clean flickr fuel _ _ Hm Hps Hcc) as (Hstc & _).
  { apply (index_is_stored_same (start d t)); [done | done | apply start_index_is_stored]. }
  destruct (update_albums_clean flickr fuel _ _ Hm Hal Hcd Hstc) as [Hstd _].
  apply (index_is_stored_same wd); [by rewrite Hdb | done | done].
Qed.

(** X18. "New photos downloaded" never under-reports. When the detail
    returned for a photo carries that photo's id, a run of a fresh updater
    over storage [d], however it ends, leaves at most
    [len(d) + new_photos_count] photo rows; and when it returns without
    having printed an error for a photo or an album, exactly that many:
    the count is then the number of rows the run added. *)
Theorem new_photos_count_bounds_rows flickr fuel d t o w' :
  detail_matches flickr →
  comprehensive_update flickr fuel (start d t) = Some (o, w') →
  (size (dom (photos (db w'))) ≤ size (dom (photos d)) + new_photos_count (self w'))%nat ∧
  (o = Ok tt → clean w' →
   size (dom (photos (db w'))) = (size (dom (photos d)) + new_photos_count (self w'))%nat).
Proof.
  intros Hm H.
  destruct (accounts_comprehensive_update flickr fuel _ _ _ H) as [Hacc _].
  simpl in Hacc. unfold get_existing_photo_ids in Hacc.
  assert (index_covers_storage w') as Hcov.
  { apply (keeps_cover_comprehensive_update flickr fuel Hm _ _ _ H).
    apply start_index_covers_storage. }
  split.
  - apply subseteq_size in Hcov. lia.
  - intros -> Hc.
    pose proof (comprehensive_update_clean_index flickr fuel d t w' Hm H Hc) as Hst.
    assert (existing_photo_ids (self w') = dom (photos (db w'))) as Heq
      by (apply set_eq; intros x; split; [apply Hst | apply Hcov]).
    rewrite Heq in Hacc. lia.
Qed.

(** The run over [Demo.odd]: [p5] is counted and no row is written. *)
Lemma new_photos_count_bounds_rows_witness :
  detail_matches Demo.odd ∧
  ∃ o w', comprehensive_update Demo.odd 3 (start empty_database 0) = Some (o, w') ∧
    (size (dom (photos (db w'))) ≤
       size (dom (photos empty_database)) + new_photos_count (self w'))%nat ∧
    size (dom (photos (db w'))) = 0%nat ∧ new_photos_count (self w') = 1%nat.
Proof.
  assert (detail_matches Demo.odd) as Hm by (intros pid info [=]).
  split; [exact Hm|].
  assert ((fun r => (size (dom (photos (db (snd r)))), new_photos_count (self (snd r)))) <$>
            comprehensive_update Demo.odd 3 (start empty_database 0) = Some (0%nat, 1%nat))
    as Hrun by (vm_compute; reflexivity).
  destruct (comprehensive_update Demo.odd 3 (start empty_database 0))
    as [[o w']|] eqn:E; [|discriminate].
  cbn [fmap option_fmap option_map snd] in Hrun.
  injection Hrun as H0 H1.
  exists o, w'. (split; [reflexivity|]).
  (split; [|split; [exact H0 | exact H1]]).
  exact (proj1 (new_photos_count_bounds_rows Demo.odd 3 empty_database 0 o w' Hm E)).
Defined.

(** ** Thumbnails after a full sync *)

(** The row of [pid] has an empty [thumbnail_path]: the browser shows a
    placeholder. *)
Definition blank (pid : string) (d : database) : Prop :=
  ∃ row, photos d !! pid = Some row ∧ row_thumbnail_path row = "".

(** The index holds [pid], and once [pid] is linked with album [aid] its
    thumbnail path is empty. *)
Definition blanked (pid aid : string) (w : world) : Prop :=
  pid ∈ existing_photo_ids (self w) ∧
  (has_link pid aid (db w) = true → blank pid (db w)).

Definition keeps_blanked (pid aid : string) (w w' : world) : Prop :=
  blanked pid aid w → blanked pid aid w'.

Lemma keeps_blanked_same pid aid w w' :
  photos (db w') = photos (db w) → photo_albums (db w') = photo_albums (db w) →
  existing_photo_ids (self w) ⊆ existing_photo_ids (self w') →
  keeps_blanked pid aid w w'.
Proof.
  intros Hp Hl Hi [Hin Hb]. split; [by apply Hi|].
  unfold blank. rewrite (has_link_same (db w) (db w')), Hp by done. exact Hb.
Qed.

Lemma keeps_blanked_trans pid aid w1 w2 w3 :
  keeps_blanked pid aid w1 w2 → keeps_blanked pid aid w2 w3 → keeps_blanked pid aid w1 w3.
Proof. unfold keeps_blanked. tauto. Qed.

Lemma has_link_keys d d' pid aid :
  ((pid, aid) ∈ link_keys d' ↔ (pid, aid) ∈ link_keys d) →
  has_link pid aid d' = has_link pid aid d.
Proof.
  intros H. destruct (has_link pid aid d) eqn:E.
  - apply has_link_spec, H. by apply has_link_spec.
  - destruct (has_link pid aid d') eqn:E'; [|done].
    apply has_link_spec, H, has_link_spec in E'. congruence.
Qed.

Lemma keeps_blanked_download_photostream_photo flickr pid aid q :
  detail_matches flickr →
  respects (keeps_blanked pid aid) (download_photostream_photo flickr q).
Proof.
  intros Hm w o w' H.
  destruct (decide (photo_id q ∈ existing_photo_ids (self w))) as [Hk|Hk].
  { rewrite download_photostream_photo_known in H by done. injection H as <- <-.
    by apply keeps_blanked_same. }
  rewrite download_photostream_photo_new in H by done.
  destruct (fetch_new_photo _ _ _) as [[[fetched|e] w1]|] eqn:Hf; [| |done].
  - destruct (fetch_new_photo_events _ _ _ _ _ Hf) as (Hfp & Hs & _ & Hp & Hl & _).
    simpl in Hs, Hp, Hl.
    destruct (save_photo_metadata_standalone _ _ _) as [[[[]|e] w2]|] eqn:Hsv; [| |done].
    + apply save_photo_metadata_standalone_inv in Hsv as [(e & [=] & _) | (row & _ & _ & ->)].
      injection H as <- <-. intros [Hin Hb].
      assert (photo_id (fst fetched) ≠ pid) as Hne.
      { rewrite Hfp, (fetched_photo_id _ _ Hm). congruence. }
      split; [simpl; rewrite Hs; set_solver|].
      unfold blank. simpl. rewrite lookup_insert_ne by done.
      rewrite Hp. unfold has_link in *. simpl. rewrite Hl. exact Hb.
    + apply save_photo_metadata_standalone_inv in Hsv as [(e' & _ & ->) | (row & [=] & _)].
      injection H as <- <-. apply keeps_blanked_same; [done|done|by rewrite Hs].
  - injection H as <- <-.
    destruct (fetch_new_photo_frame _ _ _ _ _ Hf) as (Hs & _ & Hp & _ & Hl & _).
    apply keeps_blanked_same; [done|done|by rewrite Hs].
Qed.

Lemma keeps_blanked_download_album_photo flickr pid aid q aid' title :
  detail_matches flickr →
  respects (keeps_blanked pid aid) (download_album_photo flickr q aid' title).
Proof.
  intros Hm w o w' H.
  destruct (decide (photo_id q ∈ existing_photo_ids (self w))) as [Hk|Hk].
  { destruct (has_link (photo_id q) aid' (db w)) eqn:Hl.
    - rewrite download_album_photo_linked in H by done. injection H as <- <-.
      by apply keeps_blanked_same.
    - rewrite download_album_photo_unlinked in H by done.
      destruct (save_photo_metadata_junction _ _ _ _) as [[[[]|e] w1]|] eqn:Hs; [| |done].
      + apply save_photo_metadata_junction_Ok in Hs as (Hself & row & Hrow & Hp & Hkeys).
        injection H as <- <-. intros [Hin Hb]. simpl in *.
        split; unfold map_self; cbn [db self]; [by rewrite Hself|].
        unfold blank. rewrite Hp.
        destruct (decide (photo_id q = pid)) as [<-|Hne].
        * intros _. exists row. by rewrite lookup_insert_eq.
        * rewrite lookup_insert_ne by done.
          rewrite (has_link_keys (db w) (db w1)); [exact Hb|].
          rewrite Hkeys. split; [|by right]. intros [[=]|?]; [congruence|done].
      + apply save_photo_metadata_junction_Exn in Hs as ->. injection H as <- <-.
        by apply keeps_blanked_same. }
  rewrite download_album_photo_new in H by done.
  destruct (fetch_new_photo _ _ _) as [[[fetched|e] w1]|] eqn:Hf; [| |done].
  - destruct (fetch_new_photo_events _ _ _ _ _ Hf) as (Hfp & Hs & _ & Hp & Hl & _).
    simpl in Hs, Hp, Hl.
    assert (photo_id (fst fetched) = photo_id q) as Hid
      by (by rewrite Hfp, (fetched_photo_id _ _ Hm)).
    destruct (save_photo_metadata_junction _ _ _ _) as [[[[]|e] w2]|] eqn:Hsv; [| |done].
    + apply save_photo_metadata_junction_Ok in Hsv as (Hself & row & Hrow & Hp2 & Hkeys).
      injection H as <- <-. intros [Hin Hb]. unfold indexed, with_events, map_self in *; cbn [db self] in *.
      assert (photo_id q ≠ pid) as Hne by congruence.
      split; cbn [db self]; [rewrite Hself; simpl; rewrite Hs; set_solver|].
      unfold blank. rewrite Hp2, Hid, lookup_insert_ne, Hp by done.
      rewrite (has_link_keys (db w) (db w2)).
      * exact Hb.
      * rewrite Hkeys, Hid. unfold link_keys. rewrite Hl.
        split; [|by right]. intros [[=]|?]; [congruence|done].
    + apply save_photo_metadata_junction_Exn in Hsv as ->. injection H as <- <-.
      apply keeps_blanked_same; [done|done|]. simpl. rewrite Hs. set_solver.
  - injection H as <- <-.
    destruct (fetch_new_photo_frame _ _ _ _ _ Hf) as (Hs & _ & Hp & _ & Hl & _).
    apply keeps_blanked_same; [done|done|by rewrite Hs].
Qed.

Lemma keeps_blanked_update_albums flickr fuel pid aid :
  detail_matches flickr → respects (keeps_blanked pid aid) (update_albums flickr fuel).
Proof.
  intros Hm. apply respects_update_albums.
  - intros w. by apply keeps_blanked_same.
  - apply keeps_blanked_trans.
  - intros evs w _. by apply keeps_blanked_same.
  - intros aid' title description n w o w' H.
    apply save_album_metadata_inv in H as [(e & _ & ->) | (row & _ & ->)];
      by apply keeps_blanked_same.
  - intros q aid' title. by apply keeps_blanked_download_album_photo.
Qed.

(** The photostream sweep writes no link. *)
Definition same_links (w w' : world) : Prop := photo_albums (db w') = photo_albums (db w).

Lemma same_links_update_photostream flickr fuel :
  respects same_links (update_photostream flickr fuel).
Proof.
  apply respects_update_photostream.
  - done.
  - unfold same_links. congruence.
  - done.
  - intros p. apply respects_download_photostream_photo; try done.
    + unfold same_links. congruence.
    + by intros pid w o w' [= <- <-].
    + by intros w o w' [= <- <-].
    + by intros w o w' [= <- <-].
    + intros pid cs w o w' H.
      apply save_comments_inv in H
        as [(e & _ & ->) | [(_ & ->) | (d' & _ & -> & _ & _ & Hl)]]; done.
    + intros p0 thumb w o w' H.
      apply save_photo_metadata_standalone_inv in H as [(e & _ & ->) | (row & _ & _ & ->)];
        done.
Qed.

Lemma keeps_cover_update_photostream flickr fuel :
  detail_matches flickr → respects keeps_cover (update_photostream flickr fuel).
Proof.
  intros Hm. apply respects_update_photostream.
  - intros w. by apply keeps_cover_same.
  - apply keeps_cover_trans.
  - intros evs w _. by apply keeps_cover_same.
  - intros p w o w' H. exact (proj1 (download_photostream_photo_post flickr p w o w' Hm H)).
Qed.

(** The two sweeps of a run that returned and printed no item error. *)
Lemma comprehensive_update_Ok_sweeps flickr fuel d t w1 :
  comprehensive_update flickr fuel (start d t) = Some (Ok tt, w1) →
  clean w1 →
  ∃ w0 wc wd,
    db w0 = d ∧ self w0 = self (start d t) ∧
    update_photostream flickr fuel w0 = Some (Ok tt, wc) ∧
    update_albums flickr fuel wc = Some (Ok tt, wd) ∧
    db w1 = db wd ∧ clean wc ∧ clean wd.
Proof.
  intros H Hc. unfold comprehensive_update in H.
  apply bind_Ok in H as ([] & wa & Ha' & H). apply print_Some in Ha' as [_ ->].
  apply bind_Ok in H as (t0 & wb & Hb & H). injection Hb as <- <-.
  apply bind_Ok in H as ([] & wc & Hps & H).
  apply bind_Ok in H as ([] & wd & Hal & H).
  apply bind_Ok in H as (t1 & we & He & H). injection He as <- <-.
  apply bind_Ok in H as (u & wf & Hf & H). injection Hf as <- <-.
  apply bind_Ok in H as ([] & wg & Hg & H). apply print_Some in Hg as [_ ->].
  assert (db w1 = db wd ∧ ∃ evs1, trace w1 = trace wd ++ evs1) as (Hdb & evs1 & Ht1).
  { match type of H with (if ?c then _ else _) _ = _ => destruct c end;
      apply print_Some in H as [_ ->]; simpl; (split; [done|]);
      eexists; by rewrite <- app_assoc. }
  assert (clean wd) as Hcd.
  { unfold clean in *. rewrite Ht1, Forall_app in Hc. by destruct Hc. }
  assert (grows wc wd) as Hgd
    by apply (stable_update_albums grows flickr fuel grows_stable _ _ _ Hal).
  eexists _, wc, wd. split; [|split; [|split; [exact Hps|]]]; [done|done|].
  split; [exact Hal|]. split; [exact Hdb|]. split; [by eapply grows_clean | exact Hcd].
Qed.

(** The album sweep on a photo the index holds and storage does not link
    with the album: the sweep links it and leaves its thumbnail path
    empty. *)
Lemma update_albums_blanks flickr fuel wc wd als evs a listed evs' p :
  detail_matches flickr →
  update_albums flickr fuel wc = Some (Ok tt, wd) →
  clean wd → index_is_stored wc →
  get_user_albums_from flickr fuel 1 [] [EvPrint MsgFetchingAlbums] = Some (Ok als, evs) →
  a ∈ als →
  get_album_photos_from flickr fuel (album_id a) 1 [] [] = Some (Ok listed, evs') →
  p ∈ listed →
  photo_id p ∈ existing_photo_ids (self wc) →
  has_link (photo_id p) (album_id a) (db wc) = false →
  has_link (photo_id p) (album_id a) (db wd) = true ∧ blank (photo_id p) (db wd).
Proof.
  intros Hm Hal Hcd Hstc Hals Ha Hlisted Hp Hin Hnl.
  assert (blanked (photo_id p) (album_id a) wd) as [_ Hblank].
  { apply (keeps_blanked_update_albums flickr fuel _ _ Hm _ _ _ Hal).
    split; [done|]. by rewrite Hnl. }
  destruct (update_albums_clean flickr fuel _ _ Hm Hal Hcd Hstc) as [_ Hset].
  unfold listed_albums_settled in Hset. rewrite Hals in Hset.
  destruct (Hset a Ha) as (title & text & listed' & evs3 & _ & _ & Hl' & Hall).
  rewrite Hlisted in Hl'. injection Hl' as <- _.
  destruct (Hall p Hp) as [_ Hlinked].
  split; [exact Hlinked | by apply Hblank].
Qed.

(** X16. After a full sync the photos of the albums have lost their
    thumbnails. When the detail returned for a photo carries that photo's
    id and a run of a fresh updater over storage [d] returns without having
    printed an error for a photo or an album, then every photo that an
    album lists, that was known before the album sweeps (its row was in [d],
    or the photostream listed it) and that [d] did not link with that
    album, ends the run with an empty [thumbnail_path]: its visit in the
    album sweep takes the link-only branch, which saves the row again with
    no thumbnail, and nothing restores it. *)
Theorem album_photos_lose_thumbnails flickr fuel d t w1 als evs a listed evs' p :
  detail_matches flickr →
  comprehensive_update flickr fuel (start d t) = Some (Ok tt, w1) →
  clean w1 →
  get_user_albums_from flickr fuel 1 [] [EvPrint MsgFetchingAlbums] = Some (Ok als, evs) →
  a ∈ als →
  get_album_photos_from flickr fuel (album_id a) 1 [] [] = Some (Ok listed, evs') →
  p ∈ listed →
  (photo_id p, album_id a) ∉ link_keys d →
  (photo_id p ∈ dom (photos d) ∨
   ∃ stream evs'' q,
     photostream_pages_from flickr fuel 1 [] [] = Some (Ok stream, evs'') ∧
     Photo q ∈ stream ∧ photo_id q = photo_id p) →
  ∃ row, photos (db w1) !! photo_id p = Some row ∧ row_thumbnail_path row = "".
Proof.
  intros Hm H Hc Hals Ha Hlisted Hp Hnl Hknown.
  destruct (comprehensive_update_Ok_sweeps _ _ _ _ _ H Hc)
    as (w0 & wc & wd & Hd0 & Hs0 & Hps & Hal & Hdb & Hcc & Hcd).
  destruct (update_photostream_clean flickr fuel _ _ Hm Hps Hcc)
    as (Hstc & stream & evs2 & Hstream & Hstored).
  { apply (index_is_stored_same (start d t)); [by rewrite Hd0 | done |].
    apply start_index_is_stored. }
  assert (index_covers_storage wc) as Hcov.
  { apply (keeps_cover_update_photostream flickr fuel Hm _ _ _ Hps).
    apply (keeps_cover_same (start d t)); [by rewrite Hd0 | done |].
    apply (start_index_covers_storage d t). }
  assert (photo_id p ∈ existing_photo_ids (self wc)) as Hin.
  { apply Hcov. destruct Hknown as [Hd | (stream' & evs'' & q & Hst' & Hq & Hid)].
    - assert (grows w0 wc) as Hg0
        by apply (stable_update_photostream grows flickr fuel grows_stable _ _ _ Hps).
      apply (grows_stored w0 wc); [done|]. by rewrite Hd0.
    - rewrite Hstream in Hst'. injection Hst' as <- _. rewrite <- Hid.
      apply Hstored. apply list_elem_of_fmap in Hq as (q' & [= <-] & Hq). exact Hq. }
  assert (has_link (photo_id p) (album_id a) (db wc) = false) as Hnl'.
  { pose proof (same_links_update_photostream flickr fuel _ _ _ Hps) as Hsame.
    unfold same_links in Hsame. rewrite Hd0 in Hsame.
    destruct (has_link (photo_id p) (album_id a) (db wc)) eqn:E; [|done].
    apply has_link_spec in E. unfold link_keys in E. rewrite Hsame in E. done. }
  rewrite Hdb.
  by destruct (update_albums_blanks _ _ _ _ _ _ _ _ _ _ Hm Hal Hcd Hstc Hals Ha Hlisted Hp Hin Hnl').
Qed.

(** The first sync of the demo collection: [p1] comes with a thumbnail
    URL in the photostream, its thumbnail is fetched and its path stored;
    the sweep of album "Trip" then leaves the path empty. *)
Lemma album_photos_lose_thumbnails_witness :
  ∃ w1 row,
    comprehensive_update Demo.flickr 3 (start empty_database 0) = Some (Ok tt, w1) ∧
    (∃ url, ReqThumbnail "p1" url ∈ requests (trace w1)) ∧
    photos (db w1) !! "p1" = Some row ∧ row_thumbnail_path row = "".
Proof.
  assert (fst <$> comprehensive_update Demo.flickr 3 (start empty_database 0)
          = Some (Ok tt)) as H1 by (vm_compute; reflexivity).
  assert ((fun r => forallb (fun e => negb (is_item_error e)) (trace (snd r)))
            <$> comprehensive_update Demo.flickr 3 (start empty_database 0)
          = Some true) as H2 by (vm_compute; reflexivity).
  assert ((fun r => existsb (fun q => match q with
                                      | ReqThumbnail pid _ => String.eqb pid "p1"
                                      | _ => false
                                      end) (requests (trace (snd r))))
            <$> comprehensive_update Demo.flickr 3 (start empty_database 0)
          = Some true) as H3 by (vm_compute; reflexivity).
  destruct (comprehensive_update Demo.flickr 3 (start empty_database 0))
    as [[o w1]|] eqn:E; [|discriminate].
  cbn [fmap option_fmap option_map fst snd] in H1, H2, H3.
  injection H1 as ->. injection H2 as H2. injection H3 as H3.
  pose proof (clean_forallb w1 H2) as Hc.
  apply existsb_exists in H3 as (r & Hr & Hreq).
  destruct r as [| | | | |pid url]; try discriminate Hreq.
  apply String.eqb_eq in Hreq as ->. apply list_elem_of_In in Hr.
  assert (∃ row, photos (db w1) !! "p1" = Some row ∧ row_thumbnail_path row = "")
    as (row & Hrow & Hthumb).
  { eapply (album_photos_lose_thumbnails Demo.flickr 3 empty_database 0 w1
              [Demo.trip] _ Demo.trip
              [Demo.mk "p1" [("title", PyStr "one")]; Demo.mk "p2" [("title", PyStr "two")]]
              _ (Demo.mk "p1" [("title", PyStr "one")])
              demo_detail_matches E Hc).
    - reflexivity.
    - by left.
    - reflexivity.
    - by left.
    - intros Hk. by apply elem_of_nil in Hk.
    - right. eexists _, _, (Demo.mk "p1" [("title", PyStr "one");
                                          ("url_t", PyStr "https://live/p1_t.jpg")]).
      split; [reflexivity|]. split; [by left | done]. }
  exists w1, row. split; [reflexivity|]. split; [by exists url|]. split; [exact Hrow | exact Hthumb].
Defined.

(** ** The first sync after a download *)

(** The photo rows a download leaves are in the index of the updater that
    starts over them. *)
Lemma start_index_elem d t pid :
  pid ∈ dom (photos d) → pid ∈ existing_photo_ids (self (start d t)).
Proof. intros H. by apply (start_index_covers_storage d t). Qed.

(** X19. The first sync after a download links the photos of a
    downloaded album and loses their thumbnails. When the detail returned
    for a photo carries that photo's id, [download_album] has returned for
    album [a] over storage without links, and [comprehensive_update], run
    by a fresh updater over what the download left, returns without having
    printed an error for a photo or an album, then every photo the album
    lists is linked with [a] in [photo_albums] and its row has an empty
    [thumbnail_path]: the download kept the album in the row and wrote no
    link, so the sweep takes each photo for an existing one to be added
    to the album and saves it again without its thumbnail. *)
Theorem first_sync_after_download flickr fuel a title d t0 s1 t w1 als evs listed evs' p :
  detail_matches flickr →
  photo_albums d = [] →
  download_album flickr fuel (album_id a) title (site_start d t0) = Some (Ok tt, s1) →
  comprehensive_update flickr fuel (start (site_db s1) t) = Some (Ok tt, w1) →
  clean w1 →
  get_user_albums_from flickr fuel 1 [] [EvPrint MsgFetchingAlbums] = Some (Ok als, evs) →
  a ∈ als →
  get_album_photos_from flickr fuel (album_id a) 1 [] [] = Some (Ok listed, evs') →
  p ∈ listed →
  has_link (photo_id p) (album_id a) (db w1) = true ∧
  ∃ row, photos (db w1) !! photo_id p = Some row ∧ row_thumbnail_path row = "".
Proof.
  intros Hm Hd Hdl H Hc Hals Ha Hlisted Hp.
  assert (photo_albums (site_db s1) = [] ∧ photo_id p ∈ dom (photos (site_db s1)))
    as [Hl1 Hp1].
  { unfold download_album in Hdl.
    apply dbind_Ok in Hdl as ([] & sa & H1 & Hdl). apply say_Some in H1 as [_ Hd1].
    apply dbind_Ok in Hdl as (listed' & sb & H2 & Hdl).
    apply lift_Some in H2 as (w2 & H2 & Hd2).
    unfold get_album_photos, replay in H2. rewrite Hlisted in H2.
    injection H2 as <- <-. simpl in Hd2.
    apply dbind_Ok in Hdl as ([] & sc & H3 & Hdl). apply say_Some in H3 as [_ Hd3].
    apply dbind_Ok in Hdl as ([] & sd & H4 & Hdl).
    apply lift_Some in H4 as (w4 & H4 & Hd4).
    apply save_album_metadata_Ok in H4 as (_ & _ & Hl4 & _). simpl in Hl4.
    apply dbind_Ok in Hdl as ([] & se & H5 & Hdl). apply say_Some in Hdl as [_ Hd6].
    destruct (download_album_loop_Ok flickr (album_id a) listed Hm _ _ _ _ H5)
      as (Hl & _ & Hall).
    split.
    - rewrite Hd6, Hl, Hd4, Hl4, Hd3, Hd2, Hd1. exact Hd.
    - rewrite Hd6. destruct (Hall p Hp) as (row & Hrow & _). by apply elem_of_dom. }
  destruct (comprehensive_update_Ok_sweeps _ _ _ _ _ H Hc)
    as (w0 & wc & wd & Hd0 & Hs0 & Hps & Hal & Hdb & Hcc & Hcd).
  destruct (update_photostream_clean flickr fuel _ _ Hm Hps Hcc)
    as (Hstc & _).
  { apply (index_is_stored_same (start (site_db s1) t)); [by rewrite Hd0 | done |].
    apply start_index_is_stored. }
  assert (grows w0 wc) as Hg0
    by apply (stable_update_photostream grows flickr fuel grows_stable _ _ _ Hps).
  assert (photo_id p ∈ existing_photo_ids (self wc)) as Hin.
  { destruct Hg0 as (_ & _ & Hi & _). apply Hi. rewrite Hs0. by apply start_index_elem. }
  assert (has_link (photo_id p) (album_id a) (db wc) = false) as Hnl.
  { pose proof (same_links_update_photostream flickr fuel _ _ _ Hps) as Hsame.
    unfold same_links in Hsame. rewrite Hd0, Hl1 in Hsame.
    destruct (has_link (photo_id p) (album_id a) (db wc)) eqn:E; [|done].
    apply has_link_spec in E. unfold link_keys in E. rewrite Hsame in E.
    by apply elem_of_nil in E. }
  rewrite Hdb.
  exact (update_albums_blanks _ _ _ _ _ _ _ _ _ _ Hm Hal Hcd Hstc Hals Ha Hlisted Hp Hin Hnl).
Qed.

(** The demo collection with a thumbnail URL in the listing of album
    "Trip". *)
Definition with_thumbnails : remote :=
  {| people_getPhotos := people_getPhotos Demo.flickr;
     photosets_getList := photosets_getList Demo.flickr;
     photosets_getPhotos := fun _ =>
       Demo.one_page [Demo.mk "p1" [("title", PyStr "one");
                                    ("url_t", PyStr "https://live/p1_t.jpg")]];
     photos_getInfo := photos_getInfo Demo.flickr;
     photos_comments_getList := photos_comments_getList Demo.flickr;
     thumbnail_get := thumbnail_get Demo.flickr |}.

Lemma with_thumbnails_detail_matches : detail_matches with_thumbnails.
Proof. intros pid info [= <-]. done. Qed.

(** Album "Trip" downloaded over empty storage, then synced: the download
    stores the thumbnail path of [p1], the sync links [p1] and leaves the
    path empty. *)
Lemma first_sync_after_download_witness :
  detail_matches with_thumbnails ∧
  ∃ s1 row1 w1,
    download_album with_thumbnails 3 "a1" (PyStr "Trip") (site_start empty_database 0)
      = Some (Ok tt, s1) ∧
    photos (site_db s1) !! "p1" = Some row1 ∧
    row_thumbnail_path row1 = "thumbnails/p1.jpg" ∧
    comprehensive_update with_thumbnails 3 (start (site_db s1) 100) = Some (Ok tt, w1) ∧
    has_link "p1" "a1" (db w1) = true ∧
    ∃ row, photos (db w1) !! "p1" = Some row ∧ row_thumbnail_path row = "".
Proof.
  split; [exact with_thumbnails_detail_matches|].
  pose (s0 := site_start empty_database 0).
  pose (s1 := site_of (download_album with_thumbnails 3 "a1" (PyStr "Trip") s0) s0).
  assert (download_album with_thumbnails 3 "a1" (PyStr "Trip") s0 = Some (Ok tt, s1)) as E1
    by (vm_compute; reflexivity).
  assert (row_thumbnail_path <$> photos (site_db s1) !! "p1" = Some "thumbnails/p1.jpg")
    as Hrow1 by (vm_compute; reflexivity).
  assert (fst <$> comprehensive_update with_thumbnails 3 (start (site_db s1) 100)
          = Some (Ok tt)) as H1 by (vm_compute; reflexivity).
  assert ((fun r => forallb (fun e => negb (is_item_error e)) (trace (snd r)))
            <$> comprehensive_update with_thumbnails 3 (start (site_db s1) 100)
          = Some true) as H2 by (vm_compute; reflexivity).
  clearbody s1.
  destruct (photos (site_db s1) !! "p1") as [row1|] eqn:Er; [|discriminate].
  cbn [fmap option_fmap option_map] in Hrow1. injection Hrow1 as Hrow1.
  destruct (comprehensive_update with_thumbnails 3 (start (site_db s1) 100))
    as [[o w1]|] eqn:E2; [|discriminate].
  cbn [fmap option_fmap option_map fst snd] in H1, H2.
  injection H1 as ->. injection H2 as H2.
  pose proof (clean_forallb w1 H2) as Hc.
  exists s1, row1, w1. split; [exact E1|]. split; [exact Er|]. split; [exact Hrow1|].
  split; [exact E2|].
  eapply (first_sync_after_download with_thumbnails 3 Demo.trip (PyStr "Trip")
            empty_database 0 s1 100 w1 [Demo.trip] _
            [Demo.mk "p1" [("title", PyStr "one"); ("url_t", PyStr "https://live/p1_t.jpg")]]
            _ (Demo.mk "p1" [("title", PyStr "one"); ("url_t", PyStr "https://live/p1_t.jpg")])
            with_thumbnails_detail_matches eq_refl E1 E2 Hc).
  - reflexivity.
  - by left.
  - reflexivity.
  - by left.
Defined.

(** ** Links and the count of associations *)

(** Every link of storage is for a photo the index holds. *)
Definition links_indexed (w : world) : Prop :=
  ∀ pid aid, (pid, aid) ∈ link_keys (db w) → pid ∈ existing_photo_ids (self w).

(** From [w] to [w'] no more links were added than associations counted,
    and as many when the links of [w] are for photos of its index. *)
Definition counts_links (w w' : world) : Prop :=
  (length (photo_albums (db w')) + new_associations_count (self w) ≤
   length (photo_albums (db w)) + new_associations_count (self w'))%nat ∧
  (links_indexed w →
   links_indexed w' ∧
   (length (photo_albums (db w')) + new_associations_count (self w) =
    length (photo_albums (db w)) + new_associations_count (self w'))%nat).

Lemma counts_links_same w w' :
  photo_albums (db w') = photo_albums (db w) →
  new_associations_count (self w') = new_associations_count (self w) →
  existing_photo_ids (self w) ⊆ existing_photo_ids (self w') →
  counts_links w w'.
Proof.
  intros Hl Hn Hi. unfold counts_links, links_indexed, link_keys. rewrite Hl, Hn.
  split; [lia|]. intros H. split; [|lia]. intros pid aid Hk. by apply Hi, (H pid aid).
Qed.

Lemma counts_links_trans w1 w2 w3 :
  counts_links w1 w2 → counts_links w2 w3 → counts_links w1 w3.
Proof.
  intros [Hle1 H1] [Hle2 H2]. split; [lia|].
  intros H. destruct (H1 H) as [H' He1]. destruct (H2 H') as [H'' He2]. split; [done | lia].
Qed.

(** The links after [save_photo_metadata_junction] has returned. *)
Lemma save_photo_metadata_junction_links p aid thumb w w' :
  save_photo_metadata_junction p aid thumb w = Some (Ok tt, w') →
  self w' = self w ∧
  link_keys (db w') =
    link_keys (db w) ++ (if has_link (photo_id p) aid (db w) then [] else [(photo_id p, aid)]).
Proof.
  intros H. apply save_photo_metadata_junction_inv in H
    as [(e & [=] & _) | (row & _ & _ & ->)].
  split; [done|]. simpl. rewrite insert_or_ignore_link_keys. simpl.
  rewrite (has_link_same (db w) (insert_or_replace_photo (photo_id p) row (db w))) by done.
  destruct (has_link (photo_id p) aid (db w)); [by rewrite app_nil_r | done].
Qed.

Lemma length_link_keys d : length (link_keys d) = length (photo_albums d).
Proof. unfold link_keys. by rewrite length_fmap. Qed.

Lemma counts_links_download_photostream_photo flickr p :
  respects counts_links (download_photostream_photo flickr p).
Proof.
  intros w o w' H.
  destruct (decide (photo_id p ∈ existing_photo_ids (self w))) as [Hk|Hk].
  { rewrite download_photostream_photo_known in H by done. injection H as <- <-.
    by apply counts_links_same. }
  rewrite download_photostream_photo_new in H by done.
  destruct (fetch_new_photo _ _ _) as [[[fetched|e] w1]|] eqn:Hf; [| |done].
  - destruct (fetch_new_photo_frame _ _ _ _ _ Hf) as (Hs & _ & _ & _ & Hl & _).
    simpl in Hs, Hl.
    destruct (save_photo_metadata_standalone _ _ _) as [[[[]|e] w2]|] eqn:Hsv; [| |done].
    + apply save_photo_metadata_standalone_inv in Hsv as [(e & [=] & _) | (row & _ & _ & ->)].
      injection H as <- <-. apply counts_links_same; simpl; [done | by rewrite Hs |].
      rewrite Hs. set_solver.
    + apply save_photo_metadata_standalone_inv in Hsv as [(e' & _ & ->) | (row & [=] & _)].
      injection H as <- <-. apply counts_links_same; [done | by rewrite Hs | by rewrite Hs].
  - injection H as <- <-.
    destruct (fetch_new_photo_frame _ _ _ _ _ Hf) as (Hs & _ & _ & _ & Hl & _).
    apply counts_links_same; [done | by rewrite Hs | by rewrite Hs].
Qed.

Lemma counts_links_download_album_photo flickr p aid title :
  detail_matches flickr →
  respects counts_links (download_album_photo flickr p aid title).
Proof.
  intros Hm w o w' H.
  destruct (decide (photo_id p ∈ existing_photo_ids (self w))) as [Hk|Hk].
  { destruct (has_link (photo_id p) aid (db w)) eqn:Hl.
    - rewrite download_album_photo_linked in H by done. injection H as <- <-.
      by apply counts_links_same.
    - rewrite download_album_photo_unlinked in H by done.
      destruct (save_photo_metadata_junction _ _ _ _) as [[[[]|e] w1]|] eqn:Hs; [| |done].
      + apply save_photo_metadata_junction_links in Hs as (Hself & Hkeys).
        simpl in Hself, Hkeys. rewrite Hl in Hkeys.
        injection H as <- <-. unfold counts_links, links_indexed, map_self.
        cbn [db self]. rewrite <- !length_link_keys, Hkeys, length_app, Hself. simpl.
        split; [lia|]. intros Hind. split; [|lia].
        intros pid aid' Hin. apply elem_of_app in Hin as [Hin | Hin]; [by apply (Hind pid aid')|].
        apply list_elem_of_singleton in Hin. by injection Hin as -> _.
      + apply save_photo_metadata_junction_Exn in Hs as ->. injection H as <- <-.
        by apply counts_links_same. }
  rewrite download_album_photo_new in H by done.
  destruct (fetch_new_photo _ _ _) as [[[fetched|e] w1]|] eqn:Hf; [| |done].
  - destruct (fetch_new_photo_events _ _ _ _ _ Hf) as (Hfp & Hs & _ & _ & Hl & _).
    simpl in Hs, Hl.
    assert (photo_id (fst fetched) = photo_id p) as Hid
      by (by rewrite Hfp, (fetched_photo_id _ _ Hm)).
    assert (link_keys (db w1) = link_keys (db w)) as Hk1 by (unfold link_keys; by rewrite Hl).
    destruct (save_photo_metadata_junction _ _ _ _) as [[[[]|e] w2]|] eqn:Hsv; [| |done].
    + apply save_photo_metadata_junction_links in Hsv as (Hself & Hkeys).
      unfold indexed, with_events, map_self in Hself, Hkeys. cbn [db self] in Hself, Hkeys.
      rewrite Hid, Hk1, (has_link_same (db w) (db w1)) in Hkeys by done.
      injection H as <- <-. unfold counts_links, links_indexed, map_self.
      cbn [db self]. rewrite <- !length_link_keys, Hkeys, length_app, Hself. simpl.
      rewrite Hs. split.
      * destruct (has_link (photo_id p) aid (db w)); simpl; lia.
      * intros Hind.
        assert (has_link (photo_id p) aid (db w) = false) as Hno.
        { destruct (has_link (photo_id p) aid (db w)) eqn:E; [|done].
          apply has_link_spec in E. by apply Hind in E. }
        rewrite Hno. simpl. split; [|lia].
        intros pid aid' Hin. apply elem_of_app in Hin as [Hin | Hin].
        -- apply elem_of_union. right. by apply (Hind pid aid').
        -- apply list_elem_of_singleton in Hin. injection Hin as -> _.
           apply elem_of_union. left. by apply elem_of_singleton.
    + apply save_photo_metadata_junction_Exn in Hsv as ->. injection H as <- <-.
      apply counts_links_same; simpl; [done | by rewrite Hs |]. rewrite Hs. set_solver.
  - injection H as <- <-.
    destruct (fetch_new_photo_frame _ _ _ _ _ Hf) as (Hs & _ & _ & _ & Hl & _).
    apply counts_links_same; [done | by rewrite Hs | by rewrite Hs].
Qed.

Lemma counts_links_comprehensive_update flickr fuel :
  detail_matches flickr → respects counts_links (comprehensive_update flickr fuel).
Proof.
  intros Hm. apply respects_comprehensive_update.
  - intros w. by apply counts_links_same.
  - apply counts_links_trans.
  - intros evs w _. by apply counts_links_same.
  - intros w o w' [= <- <-]. by apply counts_links_same.
  - intros aid title description n w o w' H.
    apply save_album_metadata_inv in H as [(e & _ & ->) | (row & _ & ->)];
      by apply counts_links_same.
  - apply counts_links_download_photostream_photo.
  - intros p aid title. by apply counts_links_download_album_photo.
Qed.

(** X20. "New album associations" never under-reports. When the detail
    returned for a photo carries that photo's id, a run of a fresh updater
    over storage [d], however it ends, leaves at most
    [new_associations_count] more rows in [photo_albums] than [d] had; and
    exactly that many more when every link of [d] is for a photo that has
    its row in [d]. A link of [d] for a photo without a row is counted
    again when an album lists that photo, though [INSERT OR IGNORE] adds
    nothing. *)
Theorem new_associations_count_links flickr fuel d t o w' :
  detail_matches flickr →
  comprehensive_update flickr fuel (start d t) = Some (o, w') →
  (length (photo_albums (db w')) ≤
   length (photo_albums d) + new_associations_count (self w'))%nat ∧
  ((∀ pid aid, (pid, aid) ∈ link_keys d → pid ∈ dom (photos d)) →
   length (photo_albums (db w')) =
   (length (photo_albums d) + new_associations_count (self w'))%nat).
Proof.
  intros Hm H.
  destruct (counts_links_comprehensive_update flickr fuel Hm _ _ _ H) as [Hle Heq].
  simpl in Hle. split; [lia|].
  intros Hd. destruct Heq as [_ Heq]; [exact Hd|]. simpl in Heq. lia.
Qed.

(** Album "Trip" holds [p1]; the photostream is empty. *)
Definition album_only : remote :=
  {| people_getPhotos := Demo.one_page [];
     photosets_getList := photosets_getList Demo.flickr;
     photosets_getPhotos := fun _ => Demo.one_page [Demo.mk "p1" [("title", PyStr "one")]];
     photos_getInfo := photos_getInfo Demo.flickr;
     photos_comments_getList := photos_comments_getList Demo.flickr;
     thumbnail_get := thumbnail_get Demo.flickr |}.

(** Storage with a link of [p1] to "Trip" and no row for [p1]. *)
Definition dangling : database :=
  {| photos := ∅; albums := ∅;
     photo_albums := [{| link_photo_id := "p1"; link_album_id := "a1";
                         link_is_primary := 1; link_date_added := 0 |}];
     comments := [] |}.

(** The first run over the demo collection adds two links and counts two;
    the run of [album_only] over [dangling] adds none and counts one. *)
Lemma new_associations_count_links_witness :
  (∃ w1,
     comprehensive_update Demo.flickr 3 (start empty_database 0) = Some (Ok tt, w1) ∧
     length (photo_albums (db w1)) = 2%nat ∧ new_associations_count (self w1) = 2%nat) ∧
  (∃ w2,
     comprehensive_update album_only 3 (start dangling 0) = Some (Ok tt, w2) ∧
     length (photo_albums (db w2)) = 1%nat ∧ new_associations_count (self w2) = 1%nat).
Proof.
  split.
  - assert (fst <$> comprehensive_update Demo.flickr 3 (start empty_database 0)
            = Some (Ok tt)) as H1 by (vm_compute; reflexivity).
    assert ((fun r => new_associations_count (self (snd r)))
              <$> comprehensive_update Demo.flickr 3 (start empty_database 0)
            = Some 2%nat) as H2 by (vm_compute; reflexivity).
    destruct (comprehensive_update Demo.flickr 3 (start empty_database 0))
      as [[o w1]|] eqn:E; [|discriminate].
    cbn [fmap option_fmap option_map fst snd] in H1, H2.
    injection H1 as ->. injection H2 as H2.
    exists w1. split; [reflexivity|].
    destruct (new_associations_count_links Demo.flickr 3 empty_database 0 (Ok tt) w1
                demo_detail_matches E) as [_ Heq].
    clear E. rewrite Heq, H2.
    + split; reflexivity.
    + intros pid aid Hk. apply elem_of_nil in Hk. destruct Hk.
  - assert (fst <$> comprehensive_update album_only 3 (start dangling 0)
            = Some (Ok tt)) as H1 by (vm_compute; reflexivity).
    assert ((fun r => (length (photo_albums (db (snd r))),
                       new_associations_count (self (snd r))))
              <$> comprehensive_update album_only 3 (start dangling 0)
            = Some (1%nat, 1%nat)) as H2 by (vm_compute; reflexivity).
    destruct (comprehensive_update album_only 3 (start dangling 0))
      as [[o w2]|] eqn:E; [|discriminate].
    cbn [fmap option_fmap option_map fst snd] in H1, H2.
    injection H1 as ->. injection H2 as H2 H3.
    exists w2. split; [reflexivity|]. split; [exact H2 | exact H3].
Defined.

